(** * DevLog: the validated local persistence layer

    A shallow embedding of [src/utils/storage.ts], of the
    [SecureStorage], [RateLimiter] and [generateSecureId] parts of
    [src/utils/security.ts], of the provider of
    [src/context/LogContext.tsx] and of the grouping of
    [src/pages/Home.tsx].

    - JavaScript strings are byte strings ([string]); the size of a
      [Blob] built from one string is then [String.length].
    - Exceptions are values of [exn]; a computation that may throw and
      that touches [localStorage] or the console is a function
      [World -> outcome A * World] (state is kept when an exception is
      thrown, as in JavaScript).
    - The browser built-ins ([JSON.parse], [JSON.stringify],
      [Date.prototype.toISOString], the quota of [localStorage]) are the
      fields of the class [Platform]; the five functions imported from
      [./validation] are the fields of the class [Validation].  Both get
      a reference instance further down, on which the statements are
      evaluated. *)

From Stdlib Require Import ZArith Ascii String List Bool Lia DecimalString Sorting.Sorted Permutation.
From stdpp Require Import base option list gmap strings.

Import ListNotations.
Set Warnings "-register-all".
Local Open Scope string_scope.
Local Open Scope list_scope.

(** ** JavaScript values *)

(** A [Date] object holds a time value: NaN, or a number of milliseconds
    since the epoch. *)
Inductive Date : Type :=
| InvalidDate
| TimeValue (ms : Z).

(** The values that cross the validation boundary.  [JSON.parse] yields
    [VNull], [VBool], [VNum], [VStr], [VArr] and [VObj]; a missing
    property reads as [VUndefined]; [VDate] is an in-memory [Date].
    Numbers are integers: nothing in the storage layer looks at a number
    beyond its truthiness.  An object keeps its properties in insertion
    order. *)
Inductive value : Type :=
| VUndefined
| VNull
| VBool (b : bool)
| VNum (n : Z)
| VStr (s : string)
| VArr (items : list value)
| VObj (props : list (string * value))
| VDate (d : Date).

(** ToBoolean *)
Definition truthy (v : value) : bool :=
  match v with
  | VUndefined | VNull => false
  | VBool b => b
  | VNum n => negb (n =? 0)%Z
  | VStr s => negb (s =? "")
  | VArr _ | VObj _ | VDate _ => true
  end.

(** [typeof v === 'object' && v !== null] *)
Definition is_object (v : value) : bool :=
  match v with
  | VArr _ | VObj _ | VDate _ => true
  | _ => false
  end.

Fixpoint assoc {A : Type} (k : string) (l : list (string * A)) : option A :=
  match l with
  | [] => None
  | (k', a) :: l' => if k' =? k then Some a else assoc k l'
  end.

(** [e.k] for the property names the storage layer reads ([id],
    [message], [tags], [category], [timestamp]): none of them is defined
    on [Object.prototype], [Array.prototype] or [Date.prototype], so only
    the own properties of a plain object count. *)
Definition get_prop (v : value) (k : string) : value :=
  match v with
  | VObj props => default VUndefined (assoc k props)
  | _ => VUndefined
  end.

(** ** Exceptions and outcomes *)

Inductive exn : Type :=
| Error (message : string)            (* new Error(message) *)
| ValidationError (field : string)    (* thrown by the validation layer *)
| DOMException (name : string)
| SyntaxError
| RangeError
| ReferenceError.

Inductive outcome (A : Type) : Type :=
| Return (a : A)
| Throw (e : exn).
Arguments Return {A} a.
Arguments Throw {A} e.

Definition obind {A B : Type} (o : outcome A) (k : A -> outcome B) : outcome B :=
  match o with
  | Return a => k a
  | Throw e => Throw e
  end.

Notation "'let!' x := o 'in' k" := (obind o (fun x => k))
  (at level 10, x name, o at level 100, k at level 200).

(** [list.map(f)] with an [f] that may throw: the first exception ends
    the traversal. *)
Fixpoint map_throwing {A B : Type} (f : A -> outcome B) (l : list A) : outcome (list B) :=
  match l with
  | [] => Return []
  | a :: l' =>
      let! b := f a in
      let! bs := map_throwing f l' in
      Return (b :: bs)
  end.

(** ** The data model ([src/types/index.ts]) *)

Record LogEntry : Type := mkLogEntry {
  id : string;
  message : string;
  tags : list string;
  category : option string;
  timestamp : Date
}.

(** [Omit<LogEntry, 'id' | 'timestamp'>] *)
Record EntryFields : Type := mkEntryFields {
  f_message : string;
  f_tags : list string;
  f_category : option string
}.

(** [Partial<LogEntry>]: [None] is a property that is absent or
    [undefined]. *)
Record EntryUpdates : Type := mkEntryUpdates {
  u_id : option string;
  u_message : option string;
  u_tags : option (list string);
  u_category : option string;
  u_timestamp : option Date
}.

(** ** The world: [localStorage] and the console *)

Record World : Type := mkWorld {
  localStorage : gmap string string;
  console : list (string * option exn)
}.

Definition M (A : Type) : Type := World -> outcome A * World.

Definition console_error (msg : string) (e : option exn) (w : World) : World :=
  {| localStorage := localStorage w; console := console w ++ [(msg, e)] |}.

(** ** Interfaces of the missing and of the built-in parts *)

(** The browser.  [JSON_parse] is [None] where [JSON.parse] throws a
    [SyntaxError]; [JSON_stringify] leaves out the properties whose value
    is [undefined]; [storage_full m k v] says that
    [localStorage.setItem(k, v)] on the store [m] throws the
    [DOMException] named [QuotaExceededError]. *)
Class Platform : Type := {
  JSON_parse : string -> option value;
  JSON_stringify : value -> string;
  toISOString : Date -> outcome string;
  storage_full : gmap string string -> string -> string -> bool
}.

(** The functions that [storage.ts] imports from [./validation]: each
    returns the normalized value or throws.  The storage layer is
    verified against this interface. *)
Class Validation : Type := {
  validateEntryId : string -> outcome string;
  validateTimestamp : value -> outcome Date;
  validateTags : list value -> outcome (list string);
  validateAndSanitizeText : string -> outcome string;
  validateAndSanitizeCategory : value -> outcome string
}.

(** ** [src/utils/security.ts] *)

Definition hex_digit (n : N) : ascii :=
  match n with
  | 0 => "0" | 1 => "1" | 2 => "2" | 3 => "3" | 4 => "4" | 5 => "5" | 6 => "6" | 7 => "7"
  | 8 => "8" | 9 => "9" | 10 => "a" | 11 => "b" | 12 => "c" | 13 => "d" | 14 => "e"
  | _ => "f"
  end%N%char.

(** [b.toString(16).padStart(2, '0')] for a byte [b] *)
Definition hex_byte (b : Byte.byte) : string :=
  let n := Byte.to_N b in
  String (hex_digit (n / 16)) (String (hex_digit (n mod 16)) "").

(** [generateSecureId], as a function of the 16 bytes that
    [crypto.getRandomValues] writes into the array. *)
Definition generateSecureId (random : list Byte.byte) : string :=
  String.concat "" (map hex_byte random).

Definition is_lower_hex (c : ascii) : bool :=
  let n := N_of_ascii c in ((48 <=? n) && (n <=? 57) || (97 <=? n) && (n <=? 102))%N.

(** The format of [generateSecureId]: 32 hexadecimal digits. *)
Definition is_hex32 (s : string) : bool :=
  (String.length s =? 32)%nat && forallb is_lower_hex (list_ascii_of_string s).

Fixpoint uuid_shape (pos : nat) (l : list ascii) : bool :=
  match l with
  | [] => true
  | c :: l' =>
      (if (pos =? 8)%nat || (pos =? 13)%nat || (pos =? 18)%nat || (pos =? 23)%nat
       then Ascii.eqb c "-" else is_lower_hex c)
      && uuid_shape (S pos) l'
  end.

(** The format of [crypto.randomUUID]: 8-4-4-4-12 hexadecimal digits. *)
Definition is_uuid (s : string) : bool :=
  (String.length s =? 36)%nat && uuid_shape 0 (list_ascii_of_string s).

(** The two formats an identifier is generated in. *)
Definition generator_format (s : string) : bool := is_hex32 s || is_uuid s.

Definition is_key_char (c : ascii) : bool :=
  let n := N_of_ascii c in
  ((97 <=? n) && (n <=? 122) || (65 <=? n) && (n <=? 90) || (48 <=? n) && (n <=? 57)
   || (n =? 95) || (n =? 45))%N.

(** [/^[a-zA-Z0-9_-]+$/.test(key)] *)
Definition valid_key (key : string) : bool :=
  negb (key =? "") && forallb is_key_char (list_ascii_of_string key).

(** ** Plain objects used as counters

    [getStatistics] counts into [{}], an object whose prototype is
    [Object.prototype].  A count is then a number, or (for a key that
    [Object.prototype] defines) the text that [member + 1] yields. *)
Inductive count : Type :=
| CNum (n : nat)
| CText.

(** The property names of [Object.prototype]. *)
Definition Object_prototype_names : list string :=
  ["constructor"; "__defineGetter__"; "__defineSetter__"; "hasOwnProperty";
   "__lookupGetter__"; "__lookupSetter__"; "isPrototypeOf"; "propertyIsEnumerable";
   "toString"; "valueOf"; "__proto__"; "toLocaleString"].

Definition inherited (k : string) : bool :=
  existsb (String.eqb k) Object_prototype_names.

(** [o[k] = v] on an own property: a known key keeps its place. *)
Fixpoint set_own {A : Type} (k : string) (a : A) (l : list (string * A)) : list (string * A) :=
  match l with
  | [] => [(k, a)]
  | (k', a') :: l' => if k' =? k then (k, a) :: l' else (k', a') :: set_own k a l'
  end.

(** [counts[k] = (counts[k] || 0) + 1].  An own number is incremented
    (0 is falsy and yields 1 as well); an own text stays a text.  Without
    an own property the read goes to [Object.prototype]: for [__proto__]
    it finds the prototype object, the sum is a string, and the
    [__proto__] setter ignores a string, so nothing is stored; for the
    other names it finds a function, and the sum, a string, becomes an
    own property; for every other key the read is [undefined]. *)
Definition bump (counts : list (string * count)) (k : string) : list (string * count) :=
  match assoc k counts with
  | Some (CNum n) => set_own k (CNum (n + 1)) counts
  | Some CText => set_own k CText counts
  | None =>
      if k =? "__proto__" then counts
      else if inherited k then set_own k CText counts
      else set_own k (CNum 1) counts
  end.

Definition is_digit (c : ascii) : bool :=
  let n := N_of_ascii c in ((48 <=? n) && (n <=? 57))%N.

Fixpoint decimal_value (acc : N) (s : string) : N :=
  match s with
  | EmptyString => acc
  | String c s' => decimal_value (10 * acc + (N_of_ascii c - 48)) s'
  end%N.

(** The array index a property key denotes, if any: a canonical decimal
    numeral below [2^32 - 1]. *)
Definition array_index (k : string) : option N :=
  match k with
  | EmptyString => None
  | String c rest =>
      if forallb is_digit (list_ascii_of_string k)
         && (negb (Ascii.eqb c "0") || (rest =? ""))
         && (String.length k <=? 10)%nat
         && (decimal_value 0 k <? 4294967295)%N
      then Some (decimal_value 0 k)
      else None
  end.

Fixpoint insert_index {A : Type} (i : N) (x : A) (l : list (N * A)) : list (N * A) :=
  match l with
  | [] => [(i, x)]
  | (j, y) :: l' => if (i <=? j)%N then (i, x) :: (j, y) :: l' else (j, y) :: insert_index i x l'
  end.

(** [Object.entries(o)]: the keys that are array indices in ascending
    order, then the other keys in insertion order. *)
Definition Object_entries {A : Type} (o : list (string * A)) : list (string * A) :=
  let indexed := omap (fun kv => (fun i => (i, kv)) <$> array_index kv.1) o in
  map snd (foldr (fun p acc => insert_index p.1 p.2 acc) [] indexed)
  ++ filter (fun kv => array_index kv.1 = None) o.

(** [b - a] on two counts; with a text the difference is NaN, which
    [sort] reads as 0. *)
Definition descending (a b : string * count) : Z :=
  match a.2, b.2 with
  | CNum x, CNum y => Z.of_nat y - Z.of_nat x
  | _, _ => 0
  end.

Fixpoint sort_insert {A : Type} (cmp : A -> A -> Z) (x : A) (l : list A) : list A :=
  match l with
  | [] => [x]
  | y :: l' => if (cmp x y <=? 0)%Z then x :: y :: l' else y :: sort_insert cmp x l'
  end.

(** [Array.prototype.sort(cmp)], which is stable: an element stays in
    front of the later elements that compare equal to it. *)
Definition Array_sort {A : Type} (cmp : A -> A -> Z) (l : list A) : list A :=
  foldr (sort_insert cmp) [] l.

(** Under the comparison [cmp], [a] may stand in front of [b]. *)
Definition before {A : Type} (cmp : A -> A -> Z) (a b : A) : Prop := (cmp a b <= 0)%Z.

Record Statistics : Type := mkStatistics {
  totalEntries : nat;
  totalTags : nat;
  totalCategories : nat;
  mostUsedTags : list (string * count);
  mostUsedCategories : list (string * count)
}.

Definition STORAGE_KEY_PREFIX : string := "devlog_".

(** [5 * 1024 * 1024] *)
Definition QUOTA_BYTES : Z := 5 * 1024 * 1024.

Section Storage.
Context `{Platform} `{Validation}.

(** [localStorage.setItem] *)
Definition localStorage_setItem (k v : string) : M unit := fun w =>
  if storage_full (localStorage w) k v
  then (Throw (DOMException "QuotaExceededError"), w)
  else (Return tt, {| localStorage := <[k := v]> (localStorage w); console := console w |}).

(** The [try] block of [SecureStorage.setItem]. *)
Definition setItem_body (key val : string) : M unit := fun w =>
  if negb (valid_key key) then (Throw (Error "Invalid storage key"), w)
  else if (QUOTA_BYTES <? Z.of_nat (String.length val))%Z
       then (Throw (Error "Storage quota exceeded"), w)
  else localStorage_setItem (STORAGE_KEY_PREFIX +:+ key) val w.

Definition SecureStorage_setItem (key val : string) : M unit := fun w =>
  match setItem_body key val w with
  | (Return u, w') => (Return u, w')
  | (Throw (DOMException "QuotaExceededError"), w') =>
      (Throw (Error "Storage quota exceeded. Please clear some entries."), w')
  | (Throw e, w') => (Throw e, w')
  end.

Definition SecureStorage_getItem (key : string) (w : World) : option string :=
  if negb (valid_key key) then None
  else localStorage w !! (STORAGE_KEY_PREFIX +:+ key).

Definition SecureStorage_removeItem (key : string) (w : World) : World :=
  if negb (valid_key key) then w
  else {| localStorage := delete (STORAGE_KEY_PREFIX +:+ key) (localStorage w);
          console := console w |}.

(** ** [src/utils/storage.ts] *)

Definition STORAGE_KEY : string := "entries".

(** The callback of [parsed.map] in [getEntries]. *)
Definition read_entry (entry : value) : outcome LogEntry :=
  if negb (is_object entry) then Throw (Error "Invalid entry format")
  else
    match get_prop entry "id", get_prop entry "message" with
    | VStr e_id, VStr e_message =>
        let! i := validateEntryId e_id in
        let! m := validateAndSanitizeText e_message in
        let! t := match get_prop entry "tags" with
                  | VArr e_tags => validateTags e_tags
                  | _ => Return []
                  end in
        let! c := if truthy (get_prop entry "category")
                  then let! c := validateAndSanitizeCategory (get_prop entry "category") in
                       Return (Some c)
                  else Return None in
        let! ts := validateTimestamp (get_prop entry "timestamp") in
        Return {| id := i; message := m; tags := t; category := c; timestamp := ts |}
    | _, _ => Throw (Error "Missing required fields")
    end.

(** The [try] block of [getEntries]; it only reads. *)
Definition load_entries (w : World) : outcome (list LogEntry) :=
  match SecureStorage_getItem STORAGE_KEY w with
  | None => Return []
  | Some stored =>
      if stored =? "" then Return []
      else
        match JSON_parse stored with
        | None => Throw SyntaxError
        | Some (VArr parsed) => map_throwing read_entry parsed
        | Some _ => Throw (Error "Invalid data format")
        end
  end.

Definition getEntries : M (list LogEntry) := fun w =>
  match load_entries w with
  | Return entries => (Return entries, w)
  | Throw _ =>
      let w1 := console_error "Failed to load entries" None w in
      (Return [], SecureStorage_removeItem STORAGE_KEY w1)
  end.

(** [entry.category ? validateAndSanitizeCategory(entry.category) : undefined] *)
Definition validate_optional_category (c : option string) : outcome (option string) :=
  match c with
  | Some s =>
      if truthy (VStr s)
      then let! c' := validateAndSanitizeCategory (VStr s) in Return (Some c')
      else Return None
  | None => Return None
  end.

(** An element of [validatedEntries] in [saveEntries]: the object that
    is handed to [JSON.stringify]. *)
Definition validate_for_save (entry : LogEntry) : outcome value :=
  let! i := validateEntryId (id entry) in
  let! m := validateAndSanitizeText (message entry) in
  let! t := validateTags (map VStr (tags entry)) in
  let! c := validate_optional_category (category entry) in
  let! d := validateTimestamp (VDate (timestamp entry)) in
  let! iso := toISOString d in
  Return (VObj [("id", VStr i); ("message", VStr m); ("tags", VArr (map VStr t));
                ("category", from_option VStr VUndefined c); ("timestamp", VStr iso)]).

Definition saveEntries (entries : list LogEntry) : M unit := fun w =>
  match map_throwing validate_for_save entries with
  | Throw e => (Throw e, console_error "Failed to save entries:" (Some e) w)
  | Return validatedEntries =>
      let serialized := JSON_stringify (VArr validatedEntries) in
      match SecureStorage_setItem STORAGE_KEY serialized w with
      | (Return u, w') => (Return u, w')
      | (Throw e, w') => (Throw e, console_error "Failed to save entries:" (Some e) w')
      end
  end.

(** What the page offers to [addEntry] for the new identifier: no
    [crypto] object at all, a [crypto] without [randomUUID] (then
    [generateSecureId] runs on 16 random bytes), or the string that
    [crypto.randomUUID()] returns. *)
Inductive Crypto : Type :=
| NoCrypto
| GetRandomValues (random : list Byte.byte)
| RandomUUID (uuid : string).

Definition new_id (c : Crypto) : outcome string :=
  match c with
  | RandomUUID uuid => Return uuid
  | GetRandomValues random => Return (generateSecureId random)
  | NoCrypto => Throw ReferenceError
  end.

Definition MAX_ENTRIES : Z := 10000.

(** The error kinds of the storage layer, which are plain [Error]s that
    differ in their message. *)
Definition CapacityExceededError : exn := Error "Maximum number of entries reached".
Definition NotFoundError : exn := Error "Entry not found".
Definition QuotaExceededError : exn := Error "Storage quota exceeded. Please clear some entries.".

(** [addEntry(entry)]; [now] is the time value of [new Date()]. *)
Definition addEntry (entry : EntryFields) (now : Z) (c : Crypto) : M LogEntry := fun w =>
  match validateAndSanitizeText (f_message entry) with
  | Throw e => (Throw e, w)
  | Return m =>
  match validateTags (map VStr (f_tags entry)) with
  | Throw e => (Throw e, w)
  | Return t =>
  match validate_optional_category (f_category entry) with
  | Throw e => (Throw e, w)
  | Return cat =>
  match getEntries w with
  | (Throw e, w1) => (Throw e, w1)
  | (Return entries, w1) =>
      if (MAX_ENTRIES <=? Z.of_nat (length entries))%Z
      then (Throw (Error "Maximum number of entries reached"), w1)
      else
        match new_id c with
        | Throw e => (Throw e, w1)
        | Return i =>
            let newEntry := {| id := i; message := m; tags := t; category := cat;
                               timestamp := TimeValue now |} in
            match saveEntries (entries ++ [newEntry]) w1 with
            | (Throw e, w2) => (Throw e, w2)
            | (Return _, w2) => (Return newEntry, w2)
            end
        end
  end end end end.

Definition deleteEntry (i : string) : M unit := fun w =>
  match validateEntryId i with
  | Throw e => (Throw e, w)
  | Return validatedId =>
      match getEntries w with
      | (Throw e, w1) => (Throw e, w1)
      | (Return entries, w1) =>
          saveEntries (filter (fun entry => id entry ≠ validatedId) entries) w1
      end
  end.

(** [validatedUpdates]: for each of the three fields, [None] when the
    property was not set; the category is set to [Some None] when it is
    set to [undefined]. *)
Record ValidatedUpdates : Type := mkValidatedUpdates {
  v_message : option string;
  v_tags : option (list string);
  v_category : option (option string)
}.

Definition validate_updates (updates : EntryUpdates) : outcome ValidatedUpdates :=
  let! m := match u_message updates with
            | Some m => let! m' := validateAndSanitizeText m in Return (Some m')
            | None => Return None
            end in
  let! t := match u_tags updates with
            | Some t => let! t' := validateTags (map VStr t) in Return (Some t')
            | None => Return None
            end in
  let! c := match u_category updates with
            | Some c => let! c' := validate_optional_category (Some c) in Return (Some c')
            | None => Return None
            end in
  Return {| v_message := m; v_tags := t; v_category := c |}.

(** [{ ...entry, ...validatedUpdates }] *)
Definition merge_updates (entry : LogEntry) (v : ValidatedUpdates) : LogEntry :=
  {| id := id entry;
     message := default (message entry) (v_message v);
     tags := default (tags entry) (v_tags v);
     category := default (category entry) (v_category v);
     timestamp := timestamp entry |}.

(** [entries.findIndex((entry) => entry.id === validatedId)] *)
Fixpoint findIndex (validatedId : string) (entries : list LogEntry) : option nat :=
  match entries with
  | [] => None
  | entry :: rest =>
      if id entry =? validatedId then Some 0
      else S <$> findIndex validatedId rest
  end.

Definition updateEntry (i : string) (updates : EntryUpdates) : M unit := fun w =>
  match validateEntryId i with
  | Throw e => (Throw e, w)
  | Return validatedId =>
      match getEntries w with
      | (Throw e, w1) => (Throw e, w1)
      | (Return entries, w1) =>
          match findIndex validatedId entries with
          | None => (Throw (Error "Entry not found"), w1)
          | Some index =>
              match validate_updates updates with
              | Throw e => (Throw e, w1)
              | Return validatedUpdates =>
                  saveEntries (alter (fun entry => merge_updates entry validatedUpdates)
                                     index entries) w1
              end
          end
      end
  end.

(** The two counters after the [entries.forEach] of [getStatistics]. *)
Definition count_entry (acc : list (string * count) * list (string * count)) (entry : LogEntry)
  : list (string * count) * list (string * count) :=
  let tagCounts := foldl bump acc.1 (tags entry) in
  let categoryCounts :=
    match category entry with
    | Some c => if truthy (VStr c) then bump acc.2 c else acc.2
    | None => acc.2
    end in
  (tagCounts, categoryCounts).

Definition statistics_of (entries : list LogEntry) : Statistics :=
  let counts := foldl count_entry ([], []) entries in
  {| totalEntries := length entries;
     totalTags := length counts.1;
     totalCategories := length counts.2;
     mostUsedTags := take 10 (Array_sort descending (Object_entries counts.1));
     mostUsedCategories := take 10 (Array_sort descending (Object_entries counts.2)) |}.

Definition getStatistics : M Statistics := fun w =>
  match getEntries w with
  | (Throw e, w1) => (Throw e, w1)
  | (Return entries, w1) => (Return (statistics_of entries), w1)
  end.

(** ** Vocabulary of the statements *)

(** The key of [localStorage] under which the collection lives. *)
Definition entries_key : string := STORAGE_KEY_PREFIX +:+ STORAGE_KEY.

(** The stored collection: what a read returns. *)
Definition collection (w : World) : outcome (list LogEntry) := (getEntries w).1.




Definition iso_of (d : Date) : string :=
  match toISOString d with
  | Return iso => iso
  | Throw _ => ""
  end.

(** The object [saveEntries] builds for an entry whose fields the
    validators leave as they are, and the object read back from its
    JSON text. *)
Definition saved_object (e : LogEntry) : value :=
  VObj [("id", VStr (id e)); ("message", VStr (message e));
        ("tags", VArr (map VStr (tags e)));
        ("category", from_option VStr VUndefined (category e));
        ("timestamp", VStr (iso_of (timestamp e)))].

Definition parsed_object (e : LogEntry) : value :=
  VObj ([("id", VStr (id e)); ("message", VStr (message e));
         ("tags", VArr (map VStr (tags e)))]
        ++ match category e with Some c => [("category", VStr c)] | None => [] end
        ++ [("timestamp", VStr (iso_of (timestamp e)))]).

Definition serialized (entries : list LogEntry) : string :=
  JSON_stringify (VArr (map saved_object entries)).

(** The fields of an entry are fixed points of their validators, and
    its timestamp survives the ISO format. *)
Definition stable (e : LogEntry) : Prop :=
  validateEntryId (id e) = Return (id e)
  ∧ validateAndSanitizeText (message e) = Return (message e)
  ∧ validateTags (map VStr (tags e)) = Return (tags e)
  ∧ match category e with
    | Some c => c ≠ "" ∧ validateAndSanitizeCategory (VStr c) = Return c
    | None => True
    end
  ∧ validateTimestamp (VDate (timestamp e)) = Return (timestamp e)
  ∧ ∃ iso, toISOString (timestamp e) = Return iso
           ∧ validateTimestamp (VStr iso) = Return (timestamp e).

(** The validators are the identity on what they return, the empty tag
    list is valid, a category they return is not empty, and a timestamp
    they return survives the ISO format. *)
Definition idempotent_validation : Prop :=
  (∀ raw i, validateEntryId raw = Return i → validateEntryId i = Return i)
  ∧ (∀ raw m, validateAndSanitizeText raw = Return m → validateAndSanitizeText m = Return m)
  ∧ validateTags [] = Return []
  ∧ (∀ raw t, validateTags raw = Return t → validateTags (map VStr t) = Return t)
  ∧ (∀ raw c, validateAndSanitizeCategory raw = Return c →
              c ≠ "" ∧ validateAndSanitizeCategory (VStr c) = Return c)
  ∧ (∀ raw d, validateTimestamp raw = Return d →
              validateTimestamp (VDate d) = Return d
              ∧ ∃ iso, toISOString d = Return iso ∧ validateTimestamp (VStr iso) = Return d).

(** The JSON text of a collection is read back as written (a property
    whose value is [undefined] is not written). *)
Definition json_faithful (entries : list LogEntry) : Prop :=
  serialized entries ≠ ""
  ∧ JSON_parse (serialized entries) = Some (VArr (map parsed_object entries)).

(** The write of a collection passes the size guard of
    [SecureStorage.setItem] and finds room in [localStorage]. *)
Definition writable (w : World) (entries : list LogEntry) : Prop :=
  (Z.of_nat (String.length (serialized entries)) ≤ QUOTA_BYTES)%Z
  ∧ storage_full (localStorage w) entries_key (serialized entries) = false.

(** The entries pass the validation of [saveEntries], their JSON text
    passes the size guard, and [localStorage] has no room for it. *)
Definition write_refused (w : World) (entries : list LogEntry) : Prop :=
  ∃ objs, map_throwing validate_for_save entries = Return objs
          ∧ (Z.of_nat (String.length (JSON_stringify (VArr objs))) ≤ QUOTA_BYTES)%Z
          ∧ storage_full (localStorage w) entries_key (JSON_stringify (VArr objs)) = true.




(** All tags, and all categories that count as present, of a
    collection. *)
Definition all_tags (entries : list LogEntry) : list string :=
  concat (map tags entries).

Definition all_categories (entries : list LogEntry) : list string :=
  omap (fun e => match category e with
                 | Some c => if truthy (VStr c) then Some c else None
                 | None => None
                 end) entries.

Definition occurrences (k : string) (l : list string) : nat :=
  length (filter (fun x => x = k) l).

(** The counter [cs] holds the number of occurrences of each key of
    [l], and nothing else. *)
Definition counts (l : list string) (cs : list (string * count)) : Prop :=
  NoDup cs.*1
  ∧ ∀ k, assoc k cs = match occurrences k l with
                      | O => None
                      | S n => Some (CNum (S n))
                      end.

(** Counts do not increase along the list. *)
Definition descending_counts (l : list (string * count)) : Prop :=
  Sorted (fun a b => ∃ x y, a.2 = CNum x ∧ b.2 = CNum y ∧ (y ≤ x)%nat) l.

(** [top] is the head of a ranking of the keys of [l]: at most 10
    pairs of a key with its number of occurrences, in descending order of
    that number, which some [rest] completes to a descending list of all
    the distinct keys. *)
Definition ranking (l : list string) (top : list (string * count)) : Prop :=
  (length top ≤ 10)%nat
  ∧ length top = Nat.min 10 (length (remove_dups l))
  ∧ descending_counts top
  ∧ (∀ k c, (k, c) ∈ top → k ∈ l ∧ c = CNum (occurrences k l))
  ∧ ∃ rest, descending_counts (top ++ rest) ∧ (top ++ rest).*1 ≡ₚ remove_dups l.

End Storage.

(** ** A reference browser

    An executable instance of [Platform]: the JSON text format (without
    number literals that have a fraction or an exponent, which [value]
    does not hold), the ISO format of [toISOString], and a
    [localStorage] that holds at most [capacity] bytes of keys and
    values. *)
Module Browser.
Local Open Scope Z_scope.

Definition dquote : ascii := Eval cbv in ascii_of_nat 34.


(** *** [JSON.stringify] *)

Definition quote_char (c : ascii) : string :=
  let n := N_of_ascii c in
  if Ascii.eqb c dquote then String "\" (String dquote "")
  else if Ascii.eqb c "\" then "\\"
  else if (n =? 8)%N then "\b"
  else if (n =? 12)%N then "\f"
  else if (n =? 10)%N then "\n"
  else if (n =? 13)%N then "\r"
  else if (n =? 9)%N then "\t"
  else if (n <? 32)%N
       then "\u00" +:+ String (hex_digit (n / 16)) (String (hex_digit (n mod 16)) "")
  else String c "".

Fixpoint quote_chars (s : string) : string :=
  match s with
  | EmptyString => EmptyString
  | String c s' => quote_char c +:+ quote_chars s'
  end.

Definition quote (s : string) : string :=
  String dquote (quote_chars s +:+ String dquote "").

Definition digits2 (n : Z) : string :=
  String (hex_digit (Z.to_N (n / 10))) (String (hex_digit (Z.to_N (n mod 10))) "").

Definition digits3 (n : Z) : string :=
  String (hex_digit (Z.to_N (n / 100))) (digits2 (n mod 100)).

Definition digits4 (n : Z) : string := digits2 (n / 100) +:+ digits2 (n mod 100).

Definition digits6 (n : Z) : string := digits2 (n / 10000) +:+ digits4 (n mod 10000).

(** Day number since 1970-01-01 to (year, month, day) in the proleptic
    Gregorian calendar. *)
Definition civil_from_days (days : Z) : Z * Z * Z :=
  let z := days + 719468 in
  let era := z / 146097 in
  let doe := z - era * 146097 in
  let yoe := (doe - doe / 1460 + doe / 36524 - doe / 146096) / 365 in
  let doy := doe - (365 * yoe + yoe / 4 - yoe / 100) in
  let mp := (5 * doy + 2) / 153 in
  let d := doy - (153 * mp + 2) / 5 + 1 in
  let m := if mp <? 10 then mp + 3 else mp - 9 in
  let y := yoe + era * 400 in
  (if m <=? 2 then y + 1 else y, m, d).

Definition iso_year (y : Z) : string :=
  if (0 <=? y) && (y <=? 9999) then digits4 y
  else if y <? 0 then "-" +:+ digits6 (- y)
  else "+" +:+ digits6 y.

Definition iso_string (ms : Z) : string :=
  let '(y, m, d) := civil_from_days (ms / 86400000) in
  let t := ms mod 86400000 in
  iso_year y +:+ "-" +:+ digits2 m +:+ "-" +:+ digits2 d +:+ "T"
  +:+ digits2 (t / 3600000) +:+ ":" +:+ digits2 (t / 60000 mod 60) +:+ ":"
  +:+ digits2 (t / 1000 mod 60) +:+ "." +:+ digits3 (t mod 1000) +:+ "Z".

(** [Date.prototype.toISOString] *)
Definition Date_toISOString (d : Date) : outcome string :=
  match d with
  | InvalidDate => Throw RangeError
  | TimeValue ms =>
      if (-8640000000000000 <=? ms) && (ms <=? 8640000000000000)
      then Return (iso_string ms) else Throw RangeError
  end.

Definition decimal (n : Z) : string :=
  DecimalString.NilZero.string_of_int (Z.to_int n).

Definition join (sep : string) (l : list string) : string := String.concat sep l.

Fixpoint stringify (v : value) : string :=
  match v with
  | VUndefined | VNull => "null"
  | VBool true => "true"
  | VBool false => "false"
  | VNum n => decimal n
  | VStr s => quote s
  | VArr items => "[" +:+ join "," (map stringify items) +:+ "]"
  | VObj props =>
      "{" +:+ join ","
        ((fix members (l : list (string * value)) : list string :=
            match l with
            | [] => []
            | (_, VUndefined) :: l' => members l'
            | (k, a) :: l' => (quote k +:+ ":" +:+ stringify a) :: members l'
            end) props) +:+ "}"
  | VDate d =>
      match Date_toISOString d with
      | Return iso => quote iso
      | Throw _ => "null"
      end
  end.

(** *** [JSON.parse] *)

Definition is_space (c : ascii) : bool :=
  let n := N_of_ascii c in ((n =? 32) || (n =? 9) || (n =? 10) || (n =? 13))%N.

Fixpoint skip_space (s : string) : string :=
  match s with
  | String c s' => if is_space c then skip_space s' else s
  | EmptyString => s
  end.

Definition hex_value (c : ascii) : option N :=
  let n := N_of_ascii c in
  (if (48 <=? n) && (n <=? 57) then Some (n - 48)
   else if (97 <=? n) && (n <=? 102) then Some (n - 87)
   else if (65 <=? n) && (n <=? 70) then Some (n - 55)
   else None)%N.

Definition hex4 (a b c d : ascii) : option N :=
  x ← hex_value a; y ← hex_value b; z ← hex_value c; u ← hex_value d;
  Some (((x * 16 + y) * 16 + z) * 16 + u)%N.

Definition byte_char (n : N) : ascii := ascii_of_N n.

(** The bytes of a code point in UTF-8. *)
Definition utf8 (cp : N) : string :=
  (if cp <? 128 then String (byte_char cp) ""
   else if cp <? 2048
        then String (byte_char (192 + cp / 64)) (String (byte_char (128 + cp mod 64)) "")
   else if cp <? 65536
        then String (byte_char (224 + cp / 4096))
               (String (byte_char (128 + cp / 64 mod 64))
                  (String (byte_char (128 + cp mod 64)) ""))
   else String (byte_char (240 + cp / 262144))
          (String (byte_char (128 + cp / 4096 mod 64))
             (String (byte_char (128 + cp / 64 mod 64))
                (String (byte_char (128 + cp mod 64)) ""))))%N.

(** The characters of a string literal, after its opening quote.  A
    [\u] escape of a high surrogate that is followed by the escape of a
    low surrogate is one code point. *)
Fixpoint parse_chars (s : string) : option (string * string) :=
  match s with
  | EmptyString => None
  | String "\" (String "u" (String a (String b (String c (String d rest))))) =>
      cp ← hex4 a b c d;
      match rest with
      | String "\" (String "u" (String a' (String b' (String c' (String d' rest'))))) =>
          if ((55296 <=? cp) && (cp <? 56320))%N
          then lo ← hex4 a' b' c' d';
               if ((56320 <=? lo) && (lo <? 57344))%N
               then '(str, r) ← parse_chars rest';
                    Some (utf8 (65536 + (cp - 55296) * 1024 + (lo - 56320))%N +:+ str, r)
               else '(str, r) ← parse_chars rest; Some (utf8 cp +:+ str, r)
          else '(str, r) ← parse_chars rest; Some (utf8 cp +:+ str, r)
      | _ => '(str, r) ← parse_chars rest; Some (utf8 cp +:+ str, r)
      end
  | String "\" (String e rest) =>
      ch ← (if Ascii.eqb e dquote then Some dquote
            else match e with
                 | "\" => Some "\" | "/" => Some "/"
                 | "b" => Some (byte_char 8) | "f" => Some (byte_char 12)
                 | "n" => Some (byte_char 10) | "r" => Some (byte_char 13)
                 | "t" => Some (byte_char 9)
                 | _ => None
                 end)%char;
      '(str, r) ← parse_chars rest;
      Some (String ch str, r)
  | String c rest =>
      if Ascii.eqb c dquote then Some (EmptyString, rest)
      else if (N_of_ascii c <? 32)%N then None
      else '(str, r) ← parse_chars rest; Some (String c str, r)
  end.

Fixpoint parse_digits (acc : Z) (s : string) : Z * string :=
  match s with
  | String c s' => if is_digit c then parse_digits (10 * acc + (Z.of_N (N_of_ascii c) - 48)) s'
                   else (acc, s)
  | EmptyString => (acc, s)
  end.

(** An integer literal: [0], or digits that do not start with [0]. *)
Definition parse_natural (s : string) : option (Z * string) :=
  match s with
  | String "0" rest => Some (0, rest)
  | String c _ => if is_digit c then Some (parse_digits 0 s) else None
  | EmptyString => None
  end.

Definition starts_fraction (s : string) : bool :=
  match s with
  | String "." _ | String "e" _ | String "E" _ => true
  | String c _ => is_digit c
  | EmptyString => false
  end.

Definition parse_number (s : string) : option (value * string) :=
  '(n, rest) ← match s with
               | String "-" s' => '(n, r) ← parse_natural s'; Some (- n, r)
               | _ => parse_natural s
               end;
  if starts_fraction rest then None else Some (VNum n, rest).

Fixpoint parse_value (fuel : nat) (s : string) : option (value * string) :=
  match fuel with
  | O => None
  | S fuel' =>
      match skip_space s with
      | String "n" (String "u" (String "l" (String "l" r))) => Some (VNull, r)
      | String "t" (String "r" (String "u" (String "e" r))) => Some (VBool true, r)
      | String "f" (String "a" (String "l" (String "s" (String "e" r)))) => Some (VBool false, r)
      | String "[" r =>
          match skip_space r with
          | String "]" r' => Some (VArr [], r')
          | _ => '(items, r') ← parse_items fuel' r; Some (VArr items, r')
          end
      | String "{" r =>
          match skip_space r with
          | String "}" r' => Some (VObj [], r')
          | _ => '(props, r') ← parse_members fuel' [] r; Some (VObj props, r')
          end
      | String c r =>
          if Ascii.eqb c dquote
          then '(str, r') ← parse_chars r; Some (VStr str, r')
          else parse_number (String c r)
      | EmptyString => None
      end
  end
with parse_items (fuel : nat) (s : string) : option (list value * string) :=
  match fuel with
  | O => None
  | S fuel' =>
      '(v, r) ← parse_value fuel' s;
      match skip_space r with
      | String "," r' => '(vs, r'') ← parse_items fuel' r'; Some (v :: vs, r'')
      | String "]" r' => Some ([v], r')
      | _ => None
      end
  end
with parse_members (fuel : nat) (acc : list (string * value)) (s : string)
  : option (list (string * value) * string) :=
  match fuel with
  | O => None
  | S fuel' =>
      match skip_space s with
      | String q r =>
          if Ascii.eqb q dquote then
            '(k, r1) ← parse_chars r;
            match skip_space r1 with
            | String ":" r2 =>
                '(v, r3) ← parse_value fuel' r2;
                let acc' := set_own k v acc in
                match skip_space r3 with
                | String "," r4 => parse_members fuel' acc' r4
                | String "}" r4 => Some (acc', r4)
                | _ => None
                end
            | _ => None
            end
          else None
      | EmptyString => None
      end
  end.

Definition parse (s : string) : option value :=
  '(v, rest) ← parse_value (2 * String.length s + 2)%nat s;
  if String.eqb (skip_space rest) "" then Some v else None.

(** *** [localStorage] with a capacity in bytes *)

Definition stored_bytes (m : gmap string string) : Z :=
  map_fold (fun k v acc => Z.of_nat (String.length k) + Z.of_nat (String.length v) + acc) 0 m.

Definition full (capacity : Z) (m : gmap string string) (k v : string) : bool :=
  capacity <? stored_bytes (<[k := v]> m).

Definition platform (capacity : Z) : Platform :=
  {| JSON_parse := parse;
     JSON_stringify := stringify;
     toISOString := Date_toISOString;
     storage_full := full capacity |}.

End Browser.

(** ** Reference validators

    [src/utils/validation.ts] is described by the specification only.
    The choices it leaves open are fixed here: the length bounds, which
    characters count as markup (the angle brackets, which are removed),
    the characters a category may hold, the range of a timestamp, and the
    policy for a tag list (the first tag that fails voids the list).
    Each validator is the identity on what it returns, as the round trip
    of the specification needs. *)
Module SpecValidation.
Local Open Scope Z_scope.

(** Modelled from the spec: [validateEntryId] "accepts only strings
    matching the identifier format the generator produces (fixed-length
    hex, or UUID); fails otherwise". *)
Definition validateEntryId (raw : string) : outcome string :=
  if generator_format raw then Return raw else Throw (ValidationError "id").

Fixpoint trim_end (s : string) : string :=
  match s with
  | EmptyString => EmptyString
  | String c s' =>
      let t := trim_end s' in
      if Browser.is_space c && String.eqb t "" then EmptyString else String c t
  end.

Definition trim (s : string) : string := trim_end (Browser.skip_space s).

Definition is_markup (c : ascii) : bool := Ascii.eqb c "<" || Ascii.eqb c ">".

Fixpoint strip_markup (s : string) : string :=
  match s with
  | EmptyString => EmptyString
  | String c s' => if is_markup c then strip_markup s' else String c (strip_markup s')
  end.

(** A text without markup characters, and a text that does not start
    with a space. *)
Definition no_markup (s : string) : Prop := strip_markup s = s.

Definition starts_clean (s : string) : Prop :=
  match s with String c _ => Browser.is_space c = false | EmptyString => True end.

(** Removes the markup characters and trims; fails on a text that is
    then empty or longer than the bound.  In this order the result is a
    fixed point of the function. *)
Definition sanitize (field : string) (bound : nat) (raw : string) : outcome string :=
  let clean := trim (strip_markup raw) in
  if String.eqb clean "" then Throw (ValidationError field)
  else if (bound <? String.length clean)%nat then Throw (ValidationError field)
  else Return clean.

Definition MAX_MESSAGE_LENGTH : nat := 5000.
Definition MAX_TAG_LENGTH : nat := 50.
Definition MAX_CATEGORY_LENGTH : nat := 50.

(** Modelled from the spec: [validateAndSanitizeText] "trims, enforces a
    maximum length, strips/escapes characters that could be interpreted
    as markup when later rendered; fails on empty-after-trim or oversize
    input"; the message "is non-empty after sanitization". *)
Definition validateAndSanitizeText (raw : string) : outcome string :=
  sanitize "message" MAX_MESSAGE_LENGTH raw.

Definition is_category_char (c : ascii) : bool :=
  let n := N_of_ascii c in
  ((97 <=? n) && (n <=? 122) || (65 <=? n) && (n <=? 90) || (48 <=? n) && (n <=? 57)
   || (n =? 32) || (n =? 95) || (n =? 45))%N.

(** Modelled from the spec: [validateAndSanitizeCategory] has the "same
    discipline as text but with a shorter length bound and no free-form
    punctuation". *)
Definition validateAndSanitizeCategory (raw : value) : outcome string :=
  match raw with
  | VStr s =>
      let! c := sanitize "category" MAX_CATEGORY_LENGTH s in
      if forallb is_category_char (list_ascii_of_string c) then Return c
      else Throw (ValidationError "category")
  | _ => Throw (ValidationError "category")
  end.

(** Modelled from the spec: [validateTags] "requires a sequence type;
    each element independently sanitized with the text rules at a
    tag-appropriate length bound; fails fast if any element fails". *)
Definition validateTags (rawList : list value) : outcome (list string) :=
  map_throwing (fun raw => match raw with
                           | VStr s => sanitize "tags" MAX_TAG_LENGTH s
                           | _ => Throw (ValidationError "tags")
                           end) rawList.

Definition digit_value (c : ascii) : option Z :=
  if is_digit c then Some (Z.of_N (N_of_ascii c) - 48) else None.

Definition number2 (a b : ascii) : option Z :=
  x ← digit_value a; y ← digit_value b; Some (10 * x + y).

(** (year, month, day) to the day number since 1970-01-01. *)
Definition days_from_civil (y m d : Z) : Z :=
  let y := if m <=? 2 then y - 1 else y in
  let era := y / 400 in
  let yoe := y - era * 400 in
  let doy := (153 * (if 2 <? m then m - 3 else m + 9) + 2) / 5 + d - 1 in
  let doe := yoe * 365 + yoe / 4 - yoe / 100 + doy in
  era * 146097 + doe - 719468.

(** Reads [YYYY-MM-DDTHH:mm:ss.sssZ]. *)
Definition parse_iso (s : string) : option Z :=
  match list_ascii_of_string s with
  | [y1; y2; y3; y4; "-"; m1; m2; "-"; d1; d2; "T"; h1; h2; ":"; n1; n2; ":"; s1; s2; ".";
     f1; f2; f3; "Z"]%char =>
      yh ← number2 y1 y2; yl ← number2 y3 y4; m ← number2 m1 m2; d ← number2 d1 d2;
      h ← number2 h1 h2; n ← number2 n1 n2; sec ← number2 s1 s2;
      fh ← digit_value f1; fl ← number2 f2 f3;
      Some (days_from_civil (100 * yh + yl) m d * 86400000
            + h * 3600000 + n * 60000 + sec * 1000 + 100 * fh + fl)
  | _ => None
  end.

Definition EARLIEST : Z := 0.
Definition LATEST : Z := 253402300799999.

Definition sane (ms : Z) : bool := (EARLIEST <=? ms) && (ms <=? LATEST).

(** A string is the ISO form of the time value [ms]. *)
Definition iso_of_time (s : string) (ms : Z) : bool :=
  String.eqb (Browser.iso_string ms) s
  && match parse_iso s with Some ms' => ms' =? ms | None => false end.

(** Modelled from the spec: [validateTimestamp] "accepts an ISO-8601
    string or date-like value; fails if unparsable or out of a sane
    range; returns a normalized point-in-time value".  The strings read
    are those [toISOString] writes; the range is 1970 to 9999; a date is
    accepted when it is in range and has an ISO form. *)
Definition validateTimestamp (raw : value) : outcome Date :=
  match raw with
  | VDate (TimeValue ms) =>
      if sane ms && iso_of_time (Browser.iso_string ms) ms
      then Return (TimeValue ms) else Throw (ValidationError "timestamp")
  | VStr s =>
      match parse_iso s with
      | Some ms =>
          if sane ms && iso_of_time s ms
          then Return (TimeValue ms) else Throw (ValidationError "timestamp")
      | None => Throw (ValidationError "timestamp")
      end
  | _ => Throw (ValidationError "timestamp")
  end.

Definition validation : Validation :=
  Build_Validation validateEntryId validateTimestamp validateTags
    validateAndSanitizeText validateAndSanitizeCategory.

End SpecValidation.

(** ** Example worlds *)
Module Examples.

(** A browser with 10 MiB of [localStorage], and one whose
    [localStorage] takes nothing (a full store; private browsing in old
    versions of Safari). *)
Definition browser : Platform := Browser.platform (10 * 1024 * 1024).
Definition full_browser : Platform := Browser.platform 0.

Definition empty_world : World := {| localStorage := ∅; console := [] |}.

Definition world_with (stored : string) : World :=
  {| localStorage := {[ entries_key := stored ]}; console := [] |}.

Definition uuid : string := "123e4567-e89b-42d3-a456-426614174000".

Definition sample_entry : LogEntry :=
  {| id := uuid; message := "x"; tags := []; category := None;
     timestamp := TimeValue 1704067200000 |}.

Definition sample_object : value := @parsed_object browser sample_entry.

(** The JSON text of [sample_entry]. *)
Definition sample_text : string :=
  Eval vm_compute in Browser.stringify (@saved_object browser sample_entry).

(** The JSON text of an array of [n + 1] copies of the sample entry. *)
Fixpoint more (n : nat) : string :=
  match n with
  | O => "]"
  | S n' => "," +:+ sample_text +:+ more n'
  end.

Definition copies_text (n : nat) : string := String "[" (sample_text +:+ more n).

Definition sample_fields : EntryFields :=
  {| f_message := "x"; f_tags := []; f_category := None |}.

Definition other_uuid : string := "00000000-0000-4000-8000-000000000001".

Definition first_entry : LogEntry :=
  {| id := uuid; message := "first"; tags := ["react"]; category := Some "work";
     timestamp := TimeValue 1704067200000 |}.

Definition second_entry : LogEntry :=
  {| id := generateSecureId (repeat Byte.x0a 16); message := "second"; tags := [];
     category := None; timestamp := TimeValue 1709210096789 |}.

Definition two_entries : list LogEntry := [first_entry; second_entry].

(** A store that holds the two entries. *)
Definition two_world : World := world_with (@serialized browser two_entries).

(** An update that also offers an id and a timestamp. *)
Definition sample_updates : EntryUpdates :=
  {| u_id := Some other_uuid; u_message := Some " new <i>text</i>"; u_tags := None;
     u_category := None; u_timestamp := Some (TimeValue 0) |}.

(** The three entries of the statistics example. *)
Definition statistics_example : list LogEntry :=
  [ {| id := uuid; message := "Entry 1"; tags := ["react"]; category := Some "work";
       timestamp := TimeValue 1704067200000 |};
    {| id := other_uuid; message := "Entry 2"; tags := ["react"; "typescript"];
       category := Some "work"; timestamp := TimeValue 1704067200001 |};
    {| id := generateSecureId (repeat Byte.x0a 16); message := "Entry 3"; tags := ["vue"];
       category := Some "personal"; timestamp := TimeValue 1704067200002 |} ].

(** Fields whose only tag is the name of the prototype accessor, and
    fields whose tag is the name of a method of [Object.prototype]. *)
Definition proto_fields : EntryFields :=
  {| f_message := "notes"; f_tags := ["__proto__"]; f_category := None |}.

Definition constructor_fields : EntryFields :=
  {| f_message := "notes"; f_tags := ["constructor"]; f_category := None |}.


Definition empty_category_fields : EntryFields :=
  {| f_message := "note"; f_tags := []; f_category := Some "" |}.

Definition clear_category : EntryUpdates :=
  {| u_id := None; u_message := None; u_tags := None; u_category := Some "";
     u_timestamp := None |}.

Definition markup_fields : EntryFields :=
  {| f_message := "  Fix <b>bug</b> "; f_tags := ["react"; " typescript"];
     f_category := Some "work" |}.

(** Five entries whose tags tie: [b] and [a] occur twice, [c] once. *)
Definition tied_entries : list LogEntry :=
  map (fun t => {| id := uuid; message := "x"; tags := t; category := Some "work";
                   timestamp := TimeValue 1704067200000 |})
      [["b"]; ["a"; "b"]; ["c"]; ["a"]].

(** One entry with twelve tags. *)
Definition many_tags_entries : list LogEntry :=
  [ {| id := uuid; message := "x";
       tags := ["a"; "b"; "c"; "d"; "e"; "f"; "g"; "h"; "i"; "j"; "k"; "l"];
       category := None; timestamp := TimeValue 1704067200000 |} ].

End Examples.

(** ** The rest of [src/utils/security.ts] *)

(** [localStorage.removeItem] *)
Definition localStorage_removeItem (k : string) (w : World) : World :=
  {| localStorage := delete k (localStorage w); console := console w |}.

(** [Object.keys(localStorage)]: the stored keys, in the order in which
    the browser enumerates them. *)
Definition Object_keys (m : gmap string string) : list string := (map_to_list m).*1.

(** [key.startsWith(prefix)] *)
Definition startsWith (key prefix : string) : bool := String.prefix prefix key.

(** [SecureStorage.clear] *)
Definition SecureStorage_clear (w : World) : World :=
  foldl (fun w' key =>
           if startsWith key STORAGE_KEY_PREFIX then localStorage_removeItem key w' else w')
        w (Object_keys (localStorage w)).

(** The class [RateLimiter]: a map from keys to the times of the
    attempts that were let through, and the two bounds.  The times are
    readings of [Date.now()], the bounds are integers (the exported
    limiter is built with 10 and 60000). *)
Record RateLimiter : Type := mkRateLimiter {
  attempts : gmap string (list Z);
  maxAttempts : Z;
  windowMs : Z
}.

(** [new RateLimiter(maxAttempts, windowMs)] *)
Definition RateLimiter_new (maxAttempts windowMs : Z) : RateLimiter :=
  {| attempts := ∅; maxAttempts := maxAttempts; windowMs := windowMs |}.

Definition rateLimiter : RateLimiter := RateLimiter_new 10 60000.

(** [check(key)]; [now] is the reading of [Date.now()]. *)
Definition RateLimiter_check (key : string) (now : Z) (r : RateLimiter) : bool * RateLimiter :=
  let attempts_key := default [] (attempts r !! key) in
  let validAttempts := filter (fun time => (now - time < windowMs r)%Z) attempts_key in
  if (maxAttempts r <=? Z.of_nat (length validAttempts))%Z then (false, r)
  else (true, {| attempts := <[key := validAttempts ++ [now]]> (attempts r);
                 maxAttempts := maxAttempts r; windowMs := windowMs r |}).

(** [reset(key)] *)
Definition RateLimiter_reset (key : string) (r : RateLimiter) : RateLimiter :=
  {| attempts := delete key (attempts r); maxAttempts := maxAttempts r;
     windowMs := windowMs r |}.

(** A run of [check] calls, each with its key and its reading of the
    clock: the calls that were let through, and the limiter afterwards. *)
Fixpoint RateLimiter_run (calls : list (string * Z)) (r : RateLimiter)
  : list (string * Z) * RateLimiter :=
  match calls with
  | [] => ([], r)
  | (key, now) :: rest =>
      let checked := RateLimiter_check key now r in
      let ran := RateLimiter_run rest checked.2 in
      (if checked.1 then (key, now) :: ran.1 else ran.1, ran.2)
  end.

(** The calls for [key] among [calls] whose time lies in the window of
    length [window] that ends at [t]. *)
Definition in_window (key : string) (window t : Z) (calls : list (string * Z))
  : list (string * Z) :=
  filter (fun c => c.1 = key ∧ (t - c.2 < window)%Z ∧ (c.2 ≤ t)%Z) calls.

(** The times among [times] that are younger than the window at
    [now]: the filter of [check]. *)
Definition recent (window now : Z) (times : list Z) : list Z :=
  filter (fun time => (now - time < window)%Z) times.

(** The times of the calls for [key]. *)
Definition times_of (key : string) (calls : list (string * Z)) : list Z :=
  (filter (fun c => c.1 = key) calls).*2.

(** The limiter [r] remembers the calls [granted] that it let through,
    none later than [last]: at any time from [last] on, the attempts it
    finds for a key are the granted calls for that key that are younger
    than the window. *)
Definition remembers (r : RateLimiter) (granted : list (string * Z)) (last : Z) : Prop :=
  (∀ key now, (last ≤ now)%Z →
     recent (windowMs r) now (default [] (attempts r !! key))
     = recent (windowMs r) now (times_of key granted))
  ∧ Forall (fun c => (c.2 ≤ last)%Z) granted.

(** No key holds more attempts than the limiter lets through. *)
Definition bounded_attempts (r : RateLimiter) : Prop :=
  ∀ key times, attempts r !! key = Some times →
    (1 ≤ Z.of_nat (length times) ≤ maxAttempts r)%Z.

#[global] Instance count_eq_dec : EqDecision count.
Proof. solve_decision. Defined.

#[global] Instance Date_eq_dec : EqDecision Date.
Proof. solve_decision. Defined.

(** The distinct keys of [l] in the order in which they first occur. *)
Definition first_seen (l : list string) : list string :=
  foldl (fun seen k => if decide (k ∈ seen) then seen else seen ++ [k]) [] l.

(** Reading an identifier of [generateSecureId] back into bytes. *)
Definition hex_value (c : ascii) : N :=
  let n := N_of_ascii c in (if n <=? 57 then n - 48 else n - 87)%N.

Fixpoint bytes_of_hex (s : string) : list Byte.byte :=
  match s with
  | String a (String b rest) =>
      default Byte.x00 (Byte.of_N (16 * hex_value a + hex_value b)) :: bytes_of_hex rest
  | _ => []
  end.

(** ** The provider of [src/context/LogContext.tsx]

    The state of [LogProvider] is the array [entries] that [useState]
    holds; an operation of the provider runs on that state and the
    world.  [setEntries] is taken to set the state at once. *)
Section LogContext.
Context `{Platform} `{Validation}.

Definition ProviderState : Type := (list LogEntry * World)%type.

Definition refreshEntries (s : ProviderState) : outcome unit * ProviderState :=
  match getEntries s.2 with
  | (Return entries, w1) => (Return tt, (entries, w1))
  | (Throw e, w1) => (Throw e, (s.1, w1))
  end.

(** The provider when it is mounted: [useState([])], then the effect
    that refreshes. *)
Definition LogProvider (w : World) : outcome unit * ProviderState := refreshEntries ([], w).

Definition LogProvider_addEntry (entry : EntryFields) (now : Z) (c : Crypto)
    (s : ProviderState) : outcome unit * ProviderState :=
  match addEntry entry now c s.2 with
  | (Return _, w1) => refreshEntries (s.1, w1)
  | (Throw e, w1) => (Throw e, (s.1, w1))
  end.

Definition LogProvider_deleteEntry (i : string) (s : ProviderState)
  : outcome unit * ProviderState :=
  match deleteEntry i s.2 with
  | (Return _, w1) => refreshEntries (s.1, w1)
  | (Throw e, w1) => (Throw e, (s.1, w1))
  end.

Definition LogProvider_updateEntry (i : string) (updates : EntryUpdates) (s : ProviderState)
  : outcome unit * ProviderState :=
  match updateEntry i updates s.2 with
  | (Return _, w1) => refreshEntries (s.1, w1)
  | (Throw e, w1) => (Throw e, (s.1, w1))
  end.

(** The provider shows the stored collection. *)
Definition shows_collection (s : ProviderState) : Prop := collection s.2 = Return s.1.

End LogContext.

(** ** The page of [src/pages/Home.tsx]

    The two constants that the page computes from the entries of the
    provider: [sortedEntries] and [entriesByDate].  [format] stands for
    [format(date, 'yyyy-MM-dd')] of date-fns, which depends on the time
    zone of the browser and throws on an invalid date. *)

(** [b.timestamp.getTime() - a.timestamp.getTime()]; with an invalid
    date the difference is NaN, which [sort] reads as 0. *)
Definition newest_first (a b : LogEntry) : Z :=
  match timestamp a, timestamp b with
  | TimeValue x, TimeValue y => y - x
  | _, _ => 0
  end.

Definition sortedEntries (entries : list LogEntry) : list LogEntry :=
  Array_sort newest_first entries.

(** What the reducer can throw: what [format] throws, or the
    [TypeError] of [acc[dateKey].push] when [dateKey] names a member of
    [Object.prototype], which has no [push]. *)
Inductive HomeError : Type :=
| FormatThrew (e : exn)
| PushIsNotAFunction.

Section HomePage.
Variable format : Date → outcome string.

(** The callback of [sortedEntries.reduce]. *)
Definition group_entry (acc : HomeError + list (string * list LogEntry)) (entry : LogEntry)
  : HomeError + list (string * list LogEntry) :=
  match acc with
  | inl err => inl err
  | inr groups =>
      match format (timestamp entry) with
      | Throw e => inl (FormatThrew e)
      | Return dateKey =>
          match assoc dateKey groups with
          | Some group => inr (set_own dateKey (group ++ [entry]) groups)
          | None =>
              if inherited dateKey then inl PushIsNotAFunction
              else inr (set_own dateKey [entry] groups)
          end
      end
  end.

Definition entriesByDate (entries : list LogEntry) : HomeError + list (string * list LogEntry) :=
  foldl group_entry (inr []) (sortedEntries entries).

(** The groups in the order in which the page lists them:
    [Object.entries(entriesByDate)]. *)
Definition Home_groups (entries : list LogEntry) : HomeError + list (string * list LogEntry) :=
  match entriesByDate entries with
  | inl err => inl err
  | inr groups => inr (Object_entries groups)
  end.

End HomePage.

(** The entries of [l] under each date key, the keys in the order in
    which [l] first shows them. *)
Definition grouped (key : LogEntry → string) (l : list LogEntry)
  : list (string * list LogEntry) :=
  map (fun k => (k, filter (fun e => key e = k) l)) (first_seen (map key l)).

(** A [format] for the examples: the date in UTC, which is the first
    ten characters of the ISO text. *)
Definition format_utc (d : Date) : outcome string :=
  match d with
  | TimeValue ms => Return (String.substring 0 10 (Browser.iso_string ms))
  | InvalidDate => Throw RangeError
  end.

Definition utc_key (e : LogEntry) : string :=
  match format_utc (timestamp e) with
  | Return k => k
  | Throw _ => ""
  end.

(** The two stored entries and a third, written an hour after the
    first; and the same with an entry whose date is invalid. *)
Definition dated_entries : list LogEntry :=
  Examples.two_entries
  ++ [ {| id := Examples.other_uuid; message := "third"; tags := []; category := None;
          timestamp := TimeValue 1704070800000 |} ].

Definition misdated_entries : list LogEntry :=
  dated_entries
  ++ [ {| id := Examples.other_uuid; message := "fourth"; tags := []; category := None;
          timestamp := InvalidDate |} ].

(** ** Tactics for closed instances *)

(** Discharge [json_faithful l], [writable w l] and [write_refused w l]
    on closed terms by evaluation. *)
Ltac faithful_entries := split; [vm_compute; discriminate | vm_compute; reflexivity].

Ltac writable_entries := split; vm_compute; congruence.

Ltac refused_entries :=
  eexists; split; [vm_compute; reflexivity | split; vm_compute; congruence].

(** * Properties *)

Section StorageFacts.
Context `{Platform} `{Validation}.

Lemma getItem_entries w :
  SecureStorage_getItem STORAGE_KEY w = localStorage w !! entries_key.
Proof. reflexivity. Qed.

Lemma removeItem_entries w :
  SecureStorage_removeItem STORAGE_KEY w
  = {| localStorage := delete entries_key (localStorage w); console := console w |}.
Proof. reflexivity. Qed.

Lemma setItem_entries val w :
  SecureStorage_setItem STORAGE_KEY val w =
  if (QUOTA_BYTES <? Z.of_nat (String.length val))%Z
  then (Throw (Error "Storage quota exceeded"), w)
  else if storage_full (localStorage w) entries_key val
       then (Throw (Error "Storage quota exceeded. Please clear some entries."), w)
       else (Return tt, {| localStorage := <[entries_key := val]> (localStorage w);
                           console := console w |}).
Proof.
  unfold SecureStorage_setItem, setItem_body, localStorage_setItem.
  change (negb (valid_key STORAGE_KEY)) with false. cbv iota.
  change (STORAGE_KEY_PREFIX +:+ STORAGE_KEY) with entries_key.
  destruct (QUOTA_BYTES <? Z.of_nat (String.length val))%Z; [reflexivity|].
  destruct (storage_full (localStorage w) entries_key val); reflexivity.
Qed.

(** A read either succeeds on the stored text and changes nothing, or
    fails, logs, removes the key and yields the empty collection. *)
Lemma getEntries_cases w :
  (∃ entries, load_entries w = Return entries ∧ getEntries w = (Return entries, w))
  ∨ (∃ e, load_entries w = Throw e
          ∧ getEntries w =
            (Return [], {| localStorage := delete entries_key (localStorage w);
                           console := console w ++ [("Failed to load entries", None)] |})).
Proof.
  unfold getEntries. destruct (load_entries w) as [entries|e].
  - left. eauto.
  - right. exists e. split; [reflexivity|]. rewrite removeItem_entries. reflexivity.
Qed.

Lemma load_entries_absent w :
  localStorage w !! entries_key = None → load_entries w = Return [].
Proof. intros Hk. unfold load_entries. rewrite getItem_entries, Hk. reflexivity. Qed.

Lemma load_entries_stored w s :
  localStorage w !! entries_key = Some s →
  load_entries w =
  if s =? "" then Return []
  else match JSON_parse s with
       | None => Throw SyntaxError
       | Some (VArr parsed) => map_throwing read_entry parsed
       | Some _ => Throw (Error "Invalid data format")
       end.
Proof. intros Hk. unfold load_entries. rewrite getItem_entries, Hk. reflexivity. Qed.

(** Reading twice is reading once. *)
Lemma getEntries_again w entries w1 :
  getEntries w = (Return entries, w1) → getEntries w1 = (Return entries, w1).
Proof.
  intros Hget. destruct (getEntries_cases w) as [(es & Hload & Hg)|(e & Hload & Hg)];
    rewrite Hg in Hget; injection Hget as <- <-.
  - exact Hg.
  - unfold getEntries. rewrite load_entries_absent; [reflexivity|].
    cbn. apply lookup_delete_eq.
Qed.

(** A non-empty collection can only come from a read that changed
    nothing. *)
Lemma getEntries_nonempty w entries w1 :
  getEntries w = (Return entries, w1) → entries ≠ [] → w1 = w.
Proof.
  intros Hget Hne. destruct (getEntries_cases w) as [(es & _ & Hg)|(e & _ & Hg)];
    rewrite Hg in Hget; injection Hget as <- <-; [reflexivity | contradiction].
Qed.

Lemma length_append (a b : string) :
  String.length (a +:+ b) = (String.length a + String.length b)%nat.
Proof. induction a as [|c a IH]; [reflexivity | simpl; f_equal; exact IH]. Qed.

Lemma map_throwing_Return {A B : Type} (f : A → outcome B) (g : A → B) (l : list A) :
  Forall (fun a => f a = Return (g a)) l → map_throwing f l = Return (map g l).
Proof.
  induction 1 as [|a l Ha _ IH]; [reflexivity|].
  cbn. rewrite Ha. cbn. rewrite IH. reflexivity.
Qed.

Lemma map_throwing_inv {A B : Type} (f : A → outcome B) (l : list A) (bs : list B) :
  map_throwing f l = Return bs → Forall2 (fun a b => f a = Return b) l bs.
Proof.
  revert bs. induction l as [|a l IH]; intros bs Hm; cbn in Hm.
  - injection Hm as <-. constructor.
  - destruct (f a) as [b|] eqn:Hb; [|discriminate]. cbn in Hm.
    destruct (map_throwing f l) as [bs'|]; [|discriminate]. cbn in Hm.
    injection Hm as <-. constructor; [exact Hb | apply IH; reflexivity].
Qed.


Lemma iso_of_Return d iso : toISOString d = Return iso → iso_of d = iso.
Proof. unfold iso_of. intros ->. reflexivity. Qed.

Lemma truthy_nonempty c : c ≠ "" → truthy (VStr c) = true.
Proof.
  intros Hc. cbn. destruct (String.eqb_spec c ""); [contradiction | reflexivity].
Qed.

(** What [saveEntries] hands to [JSON.stringify] for a stable entry. *)
Lemma validate_for_save_stable e : stable e → validate_for_save e = Return (saved_object e).
Proof.
  intros (Hi & Hm & Ht & Hc & Hd & iso & Hiso & _).
  unfold validate_for_save, saved_object, validate_optional_category.
  rewrite Hi, Hm, Ht, (iso_of_Return _ _ Hiso). cbn [obind].
  destruct (category e) as [c|].
  - destruct Hc as [Hne Hc]. rewrite (truthy_nonempty c Hne), Hc. cbn [obind].
    rewrite Hd. cbn [obind]. rewrite Hiso. reflexivity.
  - cbn [obind]. rewrite Hd. cbn [obind]. rewrite Hiso. reflexivity.
Qed.

(** What [getEntries] makes of the object read back. *)
Lemma read_parsed_object e : stable e → read_entry (parsed_object e) = Return e.
Proof.
  intros (Hi & Hm & Ht & Hc & _ & iso & Hiso & Hd).
  destruct e as [i m t c d]. cbn [id message tags category timestamp] in *.
  unfold parsed_object, read_entry. cbn [id message tags category timestamp].
  rewrite (iso_of_Return _ _ Hiso).
  destruct c as [c|].
  - destruct Hc as [Hne Hc].
    change (get_prop _ "id") with (VStr i). change (get_prop _ "message") with (VStr m).
    change (get_prop _ "tags") with (VArr (map VStr t)).
    change (get_prop _ "category") with (VStr c).
    change (get_prop _ "timestamp") with (VStr iso).
    cbn [is_object negb].
    rewrite Hi, Hm, Ht, (truthy_nonempty c Hne), Hc, Hd. reflexivity.
  - change (get_prop _ "id") with (VStr i). change (get_prop _ "message") with (VStr m).
    change (get_prop _ "tags") with (VArr (map VStr t)).
    change (get_prop _ "category") with VUndefined.
    change (get_prop _ "timestamp") with (VStr iso).
    cbn [is_object negb truthy].
    rewrite Hi, Hm, Ht, Hd. reflexivity.
Qed.

Lemma saveEntries_validated entries objs w :
  map_throwing validate_for_save entries = Return objs →
  saveEntries entries w =
  match SecureStorage_setItem STORAGE_KEY (JSON_stringify (VArr objs)) w with
  | (Return u, w') => (Return u, w')
  | (Throw e, w') => (Throw e, console_error "Failed to save entries:" (Some e) w')
  end.
Proof. intros Hv. unfold saveEntries. rewrite Hv. reflexivity. Qed.

(** A stable collection that is writable is written as it is. *)
Lemma saveEntries_stable entries w :
  Forall stable entries → writable w entries →
  saveEntries entries w =
  (Return tt, {| localStorage := <[entries_key := serialized entries]> (localStorage w);
                 console := console w |}).
Proof.
  intros Hst [Hsize Hroom].
  rewrite (saveEntries_validated entries (map saved_object entries)).
  - rewrite setItem_entries. fold (serialized entries).
    destruct (Z.ltb_spec QUOTA_BYTES (Z.of_nat (String.length (serialized entries)))); [lia|].
    rewrite Hroom. reflexivity.
  - apply map_throwing_Return. eapply Forall_impl; [exact Hst|].
    intros e He. apply validate_for_save_stable, He.
Qed.

Lemma read_parsed_objects entries :
  Forall stable entries → map_throwing read_entry (map parsed_object entries) = Return entries.
Proof.
  induction 1 as [|e es He _ IH]; [reflexivity|].
  cbn [map map_throwing]. rewrite (read_parsed_object e He), IH. reflexivity.
Qed.

(** The text of a stable collection that JSON reads back as written is
    read as that collection. *)
Lemma getEntries_serialized entries w :
  Forall stable entries → json_faithful entries →
  localStorage w !! entries_key = Some (serialized entries) →
  getEntries w = (Return entries, w).
Proof.
  intros Hst [Hne Hjson] Hk. unfold getEntries.
  rewrite (load_entries_stored w _ Hk), Hjson.
  destruct (String.eqb_spec (serialized entries) ""); [contradiction|].
  rewrite (read_parsed_objects entries Hst). reflexivity.
Qed.

(** Saving a stable collection and reading it back. *)
Lemma save_then_read entries w :
  Forall stable entries → json_faithful entries → writable w entries →
  ∃ w', saveEntries entries w = (Return tt, w')
        ∧ localStorage w' = <[entries_key := serialized entries]> (localStorage w)
        ∧ getEntries w' = (Return entries, w').
Proof.
  intros Hst Hjson Hw. eexists. split; [apply saveEntries_stable; assumption|].
  split; [reflexivity|].
  apply getEntries_serialized; [assumption..|]. cbn. apply lookup_insert_eq.
Qed.


Lemma getEntries_Forall2 w entries w1 :
  getEntries w = (Return entries, w1) →
  entries = [] ∨ ∃ parsed, Forall2 (fun v e => read_entry v = Return e) parsed entries.
Proof.
  intros Hget. destruct (getEntries_cases w) as [(es & Hload & Hg)|(e & _ & Hg)];
    rewrite Hg in Hget; injection Hget as <- <-; [|left; reflexivity].
  unfold load_entries in Hload.
  destruct (SecureStorage_getItem STORAGE_KEY w) as [s|]; [|left; congruence].
  destruct (s =? ""); [left; congruence|].
  destruct (JSON_parse s) as [[| | | | |parsed| |]|]; try discriminate.
  right. exists parsed. apply map_throwing_inv, Hload.
Qed.




(** *** Idempotent validators keep the collection stable *)

Lemma optional_category_stable c0 cat :
  idempotent_validation → validate_optional_category c0 = Return cat →
  match cat with
  | Some c => c ≠ "" ∧ validateAndSanitizeCategory (VStr c) = Return c
  | None => True
  end.
Proof.
  intros (_ & _ & _ & _ & Hcat & _). unfold validate_optional_category.
  destruct c0 as [s|]; [|intros [= <-]; exact I].
  destruct (truthy (VStr s)); [|intros [= <-]; exact I].
  destruct (validateAndSanitizeCategory (VStr s)) as [c|] eqn:Hc; [|discriminate].
  intros [= <-]. exact (Hcat _ _ Hc).
Qed.

(** An entry made of outputs of the validators is stable. *)
Lemma validated_entry_stable raw_i raw_m raw_t c0 raw_d i m t cat d :
  idempotent_validation →
  validateEntryId raw_i = Return i →
  validateAndSanitizeText raw_m = Return m →
  validateTags raw_t = Return t →
  validate_optional_category c0 = Return cat →
  validateTimestamp raw_d = Return d →
  stable (mkLogEntry i m t cat d).
Proof.
  intros Hidem Hi Hm Ht Hc Hd.
  pose proof (optional_category_stable c0 cat Hidem Hc) as Hcat.
  destruct Hidem as (Hid & Htext & _ & Htags & _ & Hts).
  destruct (Hts _ _ Hd) as (Hdate & Hiso).
  unfold stable. cbn [id message tags category timestamp].
  repeat split; eauto.
Qed.

Lemma read_entry_stable v e : idempotent_validation → read_entry v = Return e → stable e.
Proof.
  intros Hidem. unfold read_entry. destruct (negb (is_object v)); [discriminate|].
  destruct (get_prop v "id") as [| | | |i| | |]; try discriminate.
  destruct (get_prop v "message") as [| | | |m| | |]; try discriminate.
  destruct (validateEntryId i) as [i'|] eqn:Hi; [|discriminate].
  destruct (validateAndSanitizeText m) as [m'|] eqn:Hm; [|discriminate]. cbn [obind].
  assert (∀ t c0 cat d,
            validateTags (map VStr t) = Return t →
            validate_optional_category c0 = Return cat →
            validateTimestamp (get_prop v "timestamp") = Return d →
            stable (mkLogEntry i' m' t cat d)) as Hstable.
  { intros t c0 cat d Ht Hc Hd. exact (validated_entry_stable _ _ _ _ _ _ _ _ _ _ Hidem Hi Hm Ht Hc Hd). }
  destruct Hidem as (_ & _ & Hnil & Htags & Hcat & _).
  destruct (match get_prop v "tags" with VArr l => validateTags l | _ => Return [] end)
    as [t|] eqn:Ht; [|discriminate]. cbn [obind].
  assert (validateTags (map VStr t) = Return t) as Ht'.
  { destruct (get_prop v "tags") as [| | | | |l| |]; try (injection Ht as <-; exact Hnil).
    exact (Htags _ _ Ht). }
  destruct (truthy (get_prop v "category")) eqn:Htr.
  - destruct (validateAndSanitizeCategory (get_prop v "category")) as [c|] eqn:Hc;
      [|discriminate]. cbn [obind].
    destruct (validateTimestamp (get_prop v "timestamp")) as [d|] eqn:Hd; [|discriminate].
    cbn [obind]. intros [= <-].
    destruct (Hcat _ _ Hc) as [Hne Hc'].
    apply (Hstable t (Some c) (Some c) d Ht'); [|reflexivity].
    unfold validate_optional_category. rewrite (truthy_nonempty c Hne), Hc'. reflexivity.
  - cbn [obind].
    destruct (validateTimestamp (get_prop v "timestamp")) as [d|] eqn:Hd; [|discriminate].
    cbn [obind]. intros [= <-]. apply (Hstable t None None d Ht'); reflexivity.
Qed.

(** What a read returns is stable. *)
Lemma getEntries_stable w entries w1 :
  idempotent_validation → getEntries w = (Return entries, w1) → Forall stable entries.
Proof.
  intros Hidem Hg.
  destruct (getEntries_Forall2 w entries w1 Hg) as [->|(parsed & Hall)]; [constructor|].
  clear Hg. induction Hall as [|v e vs es Hv _ IH]; [constructor|].
  constructor; [exact (read_entry_stable v e Hidem Hv) | exact IH].
Qed.

(** Each field of a validated update is unset or the output of its
    validator. *)
Lemma validate_updates_inv updates validatedUpdates :
  validate_updates updates = Return validatedUpdates →
  (v_message validatedUpdates = None
   ∨ ∃ raw m, validateAndSanitizeText raw = Return m ∧ v_message validatedUpdates = Some m)
  ∧ (v_tags validatedUpdates = None
     ∨ ∃ raw t, validateTags raw = Return t ∧ v_tags validatedUpdates = Some t)
  ∧ (v_category validatedUpdates = None
     ∨ ∃ c0 cat, validate_optional_category c0 = Return cat
                 ∧ v_category validatedUpdates = Some cat).
Proof.
  intros Hv. unfold validate_updates in Hv.
  destruct (u_message updates) as [um|];
    [destruct (validateAndSanitizeText um) as [m'|] eqn:Hum|];
    cbn [obind] in Hv; try discriminate;
    (destruct (u_tags updates) as [ut|];
     [destruct (validateTags (map VStr ut)) as [t'|] eqn:Hut|];
     cbn [obind] in Hv; try discriminate);
    (destruct (u_category updates) as [uc|];
     [destruct (validate_optional_category (Some uc)) as [c'|] eqn:Huc|];
     cbn [obind] in Hv; try discriminate);
    injection Hv as <-; cbn [v_message v_tags v_category];
    (split; [|split]); first [left; reflexivity | right; eauto].
Qed.

Lemma merge_updates_stable e updates validatedUpdates :
  idempotent_validation → stable e → validate_updates updates = Return validatedUpdates →
  stable (merge_updates e validatedUpdates).
Proof.
  intros Hidem (Hi & Hm & Ht & Hc & Hd & Hiso) Hv.
  destruct (validate_updates_inv updates validatedUpdates Hv) as (Hvm & Hvt & Hvc).
  pose proof Hidem as (_ & Htext & _ & Htags & _ & _).
  unfold stable, merge_updates. cbn [id message tags category timestamp].
  split; [exact Hi|]. split; [|split; [|split; [|split; [exact Hd | exact Hiso]]]].
  - destruct Hvm as [->|(raw & m & Hraw & ->)]; [exact Hm | exact (Htext _ _ Hraw)].
  - destruct Hvt as [->|(raw & t & Hraw & ->)]; [exact Ht | exact (Htags _ _ Hraw)].
  - destruct Hvc as [->|(c0 & cat & Hraw & ->)];
      [exact Hc | exact (optional_category_stable c0 cat Hidem Hraw)].
Qed.

Lemma alter_merge_stable entries index updates validatedUpdates :
  idempotent_validation → Forall stable entries →
  validate_updates updates = Return validatedUpdates →
  Forall stable (alter (fun e => merge_updates e validatedUpdates) index entries).
Proof.
  intros Hidem Hst Hv. apply Forall_alter; [exact Hst|].
  intros e _ He. exact (merge_updates_stable e updates validatedUpdates Hidem He Hv).
Qed.

Lemma filter_stable (P : LogEntry → Prop) `{∀ e, Decision (P e)} entries :
  Forall stable entries → Forall stable (filter P entries).
Proof.
  induction 1 as [|e es He _ IH]; [constructor|].
  rewrite filter_cons. destruct (decide (P e)); [constructor|]; assumption.
Qed.

(** A read depends on [localStorage] only. *)
Lemma load_entries_store w w' :
  localStorage w = localStorage w' → load_entries w = load_entries w'.
Proof.
  intros Heq. unfold load_entries, SecureStorage_getItem. rewrite Heq. reflexivity.
Qed.

Lemma collection_store w w' :
  localStorage w = localStorage w' → collection w = collection w'.
Proof.
  intros Heq. unfold collection, getEntries. rewrite (load_entries_store w w' Heq).
  destruct (load_entries w'); reflexivity.
Qed.

(** A write that [localStorage] refuses. *)
Lemma saveEntries_refused entries w :
  write_refused w entries →
  saveEntries entries w
  = (Throw QuotaExceededError,
     console_error "Failed to save entries:" (Some QuotaExceededError) w).
Proof.
  intros (objs & Hv & Hsize & Hfull).
  rewrite (saveEntries_validated entries objs w Hv), setItem_entries.
  destruct (Z.ltb_spec QUOTA_BYTES (Z.of_nat (String.length (JSON_stringify (VArr objs)))));
    [lia|].
  rewrite Hfull. reflexivity.
Qed.

End StorageFacts.

(** ** Reading *)

Section Reading.
Context `{Platform} `{Validation}.


End Reading.



(** ** Adding *)

Section Adding.
Context `{Platform} `{Validation}.

(** [addEntry] once the fields are validated and the collection is
    read. *)
Lemma addEntry_validated entry now c w m t cat entries w1 :
  validateAndSanitizeText (f_message entry) = Return m →
  validateTags (map VStr (f_tags entry)) = Return t →
  validate_optional_category (f_category entry) = Return cat →
  getEntries w = (Return entries, w1) →
  addEntry entry now c w =
  if (MAX_ENTRIES <=? Z.of_nat (length entries))%Z then (Throw CapacityExceededError, w1)
  else match new_id c with
       | Throw e => (Throw e, w1)
       | Return i =>
           let newEntry := {| id := i; message := m; tags := t; category := cat;
                              timestamp := TimeValue now |} in
           match saveEntries (entries ++ [newEntry]) w1 with
           | (Throw e, w2) => (Throw e, w2)
           | (Return _, w2) => (Return newEntry, w2)
           end
       end.
Proof. intros Hm Ht Hc Hg. unfold addEntry. rewrite Hm, Ht, Hc, Hg. reflexivity. Qed.

(** The collection that [addEntry] writes is stable. *)
Lemma added_stable entry now w m t cat entries w1 i :
  idempotent_validation →
  validateAndSanitizeText (f_message entry) = Return m →
  validateTags (map VStr (f_tags entry)) = Return t →
  validate_optional_category (f_category entry) = Return cat →
  getEntries w = (Return entries, w1) →
  validateEntryId i = Return i →
  validateTimestamp (VDate (TimeValue now)) = Return (TimeValue now) →
  Forall stable (entries ++ [mkLogEntry i m t cat (TimeValue now)]).
Proof.
  intros Hidem Hm Ht Hc Hg Hid Hnow. apply Forall_app. split.
  - exact (getEntries_stable w entries w1 Hidem Hg).
  - constructor; [|constructor].
    exact (validated_entry_stable _ _ _ _ _ _ _ _ _ _ Hidem Hid Hm Ht Hc Hnow).
Qed.

(** C2, as the code has it.  With valid fields, on a collection of
    10,000 entries (or more) [addEntry] throws the capacity error and
    the store and the collection stay as they are; on a smaller
    collection it succeeds and writes the collection extended by the new
    entry, provided the save succeeds: the validators are idempotent (so
    that what was read passes the validation of [saveEntries]), they
    accept the generated identifier and the current time as they are,
    the JSON text is within 5 MiB and [localStorage] has room for it. *)
Theorem addEntry_capacity entry now c w m t cat entries w1 :
  validateAndSanitizeText (f_message entry) = Return m →
  validateTags (map VStr (f_tags entry)) = Return t →
  validate_optional_category (f_category entry) = Return cat →
  getEntries w = (Return entries, w1) →
  ((MAX_ENTRIES ≤ Z.of_nat (length entries))%Z →
     addEntry entry now c w = (Throw CapacityExceededError, w)
     ∧ getEntries w = (Return entries, w))
  ∧ ((Z.of_nat (length entries) < MAX_ENTRIES)%Z →
     ∀ i, new_id c = Return i →
       idempotent_validation →
       validateEntryId i = Return i →
       validateTimestamp (VDate (TimeValue now)) = Return (TimeValue now) →
       writable w1 (entries ++ [mkLogEntry i m t cat (TimeValue now)]) →
       ∃ w2, addEntry entry now c w = (Return (mkLogEntry i m t cat (TimeValue now)), w2)
             ∧ localStorage w2
               = <[entries_key := serialized (entries ++ [mkLogEntry i m t cat (TimeValue now)])]>
                   (localStorage w1)).
Proof.
  intros Hm Ht Hc Hg.
  rewrite (addEntry_validated entry now c w m t cat entries w1 Hm Ht Hc Hg).
  split.
  - intros Hfull.
    assert (w1 = w) as ->.
    { apply (getEntries_nonempty w entries w1 Hg). intros ->. cbn in Hfull.
      unfold MAX_ENTRIES in Hfull. lia. }
    destruct (Z.leb_spec MAX_ENTRIES (Z.of_nat (length entries))); [|lia].
    split; [reflexivity | exact Hg].
  - intros Hroom i Hi Hidem Hid Hnow Hw.
    destruct (Z.leb_spec MAX_ENTRIES (Z.of_nat (length entries))); [lia|].
    rewrite Hi. cbv zeta.
    rewrite (saveEntries_stable _ w1 (added_stable _ _ _ _ _ _ _ _ _ Hidem Hm Ht Hc Hg Hid Hnow) Hw).
    eexists. split; reflexivity.
Qed.

End Adding.

(** ** Facts about the example worlds *)

Section ExampleFacts.
Import Examples.

Lemma length_more n : (n < String.length (more n))%nat.
Proof.
  induction n as [|n IH]; [cbn; lia|].
  cbn [more]. rewrite !length_append. cbn [String.length]. lia.
Qed.

Lemma more_S n : more (S n) = String "," (sample_text +:+ more n).
Proof. reflexivity. Qed.

Lemma parse_items_step fuel s :
  Browser.parse_items (S fuel) s =
  match Browser.parse_value fuel s with
  | Some (v, r) =>
      match Browser.skip_space r with
      | String "," r' =>
          match Browser.parse_items fuel r' with
          | Some (vs, r'') => Some (v :: vs, r'')
          | None => None
          end
      | String "]" r' => Some ([v], r')
      | _ => None
      end
  | None => None
  end.
Proof. reflexivity. Qed.

Lemma parse_sample fuel rest :
  Browser.parse_value (8 + fuel) (sample_text +:+ rest) = Some (sample_object, rest).
Proof. vm_compute. reflexivity. Qed.

Lemma parse_copies n fuel :
  Browser.parse_items (n + (9 + fuel)) (sample_text +:+ more n)
  = Some (repeat sample_object (S n), "").
Proof.
  induction n as [|n IH].
  - change (0 + (9 + fuel))%nat with (S (8 + fuel)).
    rewrite parse_items_step, parse_sample. reflexivity.
  - change (S n + (9 + fuel))%nat with (S (n + (9 + fuel))).
    rewrite parse_items_step.
    replace (n + (9 + fuel))%nat with (8 + (n + S fuel))%nat at 1 by lia.
    rewrite parse_sample, more_S.
    change (Browser.skip_space (String "," ?r)) with (String "," r).
    cbv iota beta. rewrite IH. reflexivity.
Qed.

Lemma parse_value_array fuel items rest r :
  Browser.parse_items fuel (sample_text +:+ r) = Some (items, rest) →
  Browser.parse_value (S fuel) (String "[" (sample_text +:+ r)) = Some (VArr items, rest).
Proof.
  intros Hitems.
  change (Browser.parse_value (S fuel) (String "[" (sample_text +:+ r)))
    with (match Browser.skip_space (sample_text +:+ r) with
          | String "]" r' => Some (VArr [], r')
          | _ => '(items, r') ← Browser.parse_items fuel (sample_text +:+ r);
                 Some (VArr items, r')
          end).
  rewrite Hitems. reflexivity.
Qed.

Lemma parse_copies_text n :
  Browser.parse (copies_text n) = Some (VArr (repeat sample_object (S n))).
Proof.
  unfold Browser.parse, copies_text.
  assert (∃ fuel, (2 * String.length (String "[" (sample_text +:+ more n)) + 2
                   = S (n + (9 + fuel)))%nat) as [fuel ->].
  { pose proof (length_more n).
    assert (10 ≤ String.length sample_text)%nat by (vm_compute; lia).
    exists (2 * String.length (String "[" (sample_text +:+ more n)) + 2 - S (n + 9))%nat.
    cbn [String.length]. rewrite length_append. lia. }
  rewrite (parse_value_array _ _ _ _ (parse_copies n fuel)). reflexivity.
Qed.

Lemma read_copies n :
  map_throwing (@read_entry SpecValidation.validation) (repeat sample_object n)
  = Return (repeat sample_entry n).
Proof.
  induction n as [|n IH]; [reflexivity|].
  cbn [repeat map_throwing]. rewrite IH. reflexivity.
Qed.

(** The world that stores [n + 1] copies of the sample entry. *)
Lemma getEntries_copies n :
  @getEntries browser SpecValidation.validation (world_with (copies_text n))
  = (Return (repeat sample_entry (S n)), world_with (copies_text n)).
Proof.
  unfold getEntries.
  rewrite (load_entries_stored _ (copies_text n)) by apply lookup_singleton_eq.
  change (copies_text n =? "") with false. cbv iota.
  change (@JSON_parse browser) with Browser.parse.
  rewrite parse_copies_text, read_copies. reflexivity.
Qed.

End ExampleFacts.

(** ** The reference validators are idempotent *)

Section ReferenceValidators.
Import SpecValidation.

Lemma length_strip_markup s : (String.length (strip_markup s) <= String.length s)%nat.
Proof.
  induction s as [|c s IH]; cbn; [lia|]. destruct (is_markup c); cbn; lia.
Qed.

Lemma no_markup_cons c s : no_markup (String c s) ↔ is_markup c = false ∧ no_markup s.
Proof.
  unfold no_markup. cbn. destruct (is_markup c) eqn:Hc.
  - split; [|intros [? _]; discriminate]. intros Heq. exfalso.
    pose proof (length_strip_markup s) as Hlen. rewrite Heq in Hlen. cbn in Hlen. lia.
  - split; [intros [= Heq]; split; [reflexivity | exact Heq] | intros [_ ->]; reflexivity].
Qed.

Lemma no_markup_strip s : no_markup (strip_markup s).
Proof.
  unfold no_markup. induction s as [|c s IH]; cbn; [reflexivity|].
  destruct (is_markup c) eqn:Hc; [exact IH|]. cbn. rewrite Hc, IH. reflexivity.
Qed.

Lemma no_markup_skip_space s : no_markup s → no_markup (Browser.skip_space s).
Proof.
  induction s as [|c s IH]; cbn; [trivial|]. intros Hs.
  destruct (Browser.is_space c); [|exact Hs]. apply IH. apply no_markup_cons in Hs. tauto.
Qed.

Lemma no_markup_trim_end s : no_markup s → no_markup (trim_end s).
Proof.
  induction s as [|c s IH]; cbn; [trivial|]. intros Hs. apply no_markup_cons in Hs as [Hc Hs].
  destruct (Browser.is_space c && String.eqb (trim_end s) ""); [reflexivity|].
  apply no_markup_cons. split; [exact Hc | apply IH, Hs].
Qed.

Lemma trim_end_idem s : trim_end (trim_end s) = trim_end s.
Proof.
  induction s as [|c s IH]; cbn; [reflexivity|].
  destruct (Browser.is_space c && String.eqb (trim_end s) "") eqn:Hc; [reflexivity|].
  cbn. rewrite IH, Hc. reflexivity.
Qed.

Lemma starts_clean_skip_space s : starts_clean (Browser.skip_space s).
Proof.
  induction s as [|c s IH]; cbn; [trivial|].
  destruct (Browser.is_space c) eqn:Hc; [exact IH | exact Hc].
Qed.

Lemma skip_space_trim_end s : starts_clean s → Browser.skip_space (trim_end s) = trim_end s.
Proof.
  destruct s as [|c s]; cbn; [reflexivity|]. intros Hc. rewrite Hc. cbn. rewrite Hc. reflexivity.
Qed.

Lemma trim_idem s : trim (trim s) = trim s.
Proof.
  unfold trim. rewrite skip_space_trim_end by apply starts_clean_skip_space.
  apply trim_end_idem.
Qed.

Lemma sanitize_idem field bound raw clean :
  sanitize field bound raw = Return clean → sanitize field bound clean = Return clean.
Proof.
  unfold sanitize.
  destruct (String.eqb (trim (strip_markup raw)) "") eqn:He; [discriminate|].
  destruct (bound <? String.length (trim (strip_markup raw)))%nat eqn:Hb; [discriminate|].
  intros [= <-].
  assert (strip_markup (trim (strip_markup raw)) = trim (strip_markup raw)) as ->.
  { apply no_markup_trim_end, no_markup_skip_space, no_markup_strip. }
  rewrite trim_idem, He, Hb. reflexivity.
Qed.

Lemma sanitize_nonempty field bound raw clean :
  sanitize field bound raw = Return clean → clean ≠ "".
Proof.
  unfold sanitize.
  destruct (String.eqb_spec (trim (strip_markup raw)) "") as [|Hne]; [discriminate|].
  destruct (_ <? _)%nat; [discriminate|]. intros [= <-]. exact Hne.
Qed.

Lemma validateTags_idem raw t :
  validateTags raw = Return t → validateTags (map VStr t) = Return t.
Proof.
  unfold validateTags. revert t. induction raw as [|v raw IH]; intros t; cbn.
  - intros [= <-]. reflexivity.
  - destruct v as [| | | |s| | |]; try discriminate.
    destruct (sanitize "tags" MAX_TAG_LENGTH s) as [c|] eqn:Hs; [|discriminate]. cbn.
    destruct (map_throwing _ raw) as [cs|]; [|discriminate]. cbn.
    intros [= <-]. cbn. rewrite (sanitize_idem _ _ _ _ Hs). cbn.
    rewrite (IH cs eq_refl). reflexivity.
Qed.

Lemma sane_in_range ms :
  sane ms = true → Browser.Date_toISOString (TimeValue ms) = Return (Browser.iso_string ms).
Proof.
  unfold sane, EARLIEST, LATEST. intros Hs. apply andb_true_iff in Hs as [Hlo Hhi].
  apply Z.leb_le in Hlo, Hhi. cbn.
  destruct (Z.leb_spec (-8640000000000000) ms); [|lia].
  destruct (Z.leb_spec ms 8640000000000000); [|lia]. reflexivity.
Qed.

Lemma iso_of_time_spec s ms :
  iso_of_time s ms = true → Browser.iso_string ms = s ∧ parse_iso s = Some ms.
Proof.
  unfold iso_of_time. intros Hi. apply andb_true_iff in Hi as [Hs Hp].
  apply String.eqb_eq in Hs. split; [exact Hs|].
  destruct (parse_iso s) as [ms'|]; [|discriminate]. apply Z.eqb_eq in Hp. congruence.
Qed.

Lemma validateTimestamp_accepts ms :
  sane ms = true → iso_of_time (Browser.iso_string ms) ms = true →
  validateTimestamp (VDate (TimeValue ms)) = Return (TimeValue ms)
  ∧ validateTimestamp (VStr (Browser.iso_string ms)) = Return (TimeValue ms).
Proof.
  intros Hs Hi. unfold validateTimestamp. rewrite Hs, Hi.
  split; [reflexivity|].
  destruct (iso_of_time_spec _ _ Hi) as [_ Hp]. rewrite Hp, Hs, Hi. reflexivity.
Qed.

Lemma spec_validation_idempotent capacity :
  @idempotent_validation (Browser.platform capacity) validation.
Proof.
  unfold idempotent_validation.
  split; [|split; [|split; [|split; [|split]]]].
  - intros raw i. cbn. unfold validateEntryId.
    destruct (generator_format raw) eqn:Hf; [|discriminate]. intros [= <-]. rewrite Hf. reflexivity.
  - intros raw m. apply sanitize_idem.
  - reflexivity.
  - intros raw t. apply validateTags_idem.
  - intros raw c. cbn. unfold validateAndSanitizeCategory.
    destruct raw as [| | | |s| | |]; try discriminate.
    destruct (sanitize "category" MAX_CATEGORY_LENGTH s) as [c'|] eqn:Hs; [|discriminate]. cbn.
    destruct (forallb is_category_char (list_ascii_of_string c')) eqn:Hc; [|discriminate].
    intros [= <-]. split; [eapply sanitize_nonempty, Hs|].
    rewrite (sanitize_idem _ _ _ _ Hs). cbn. rewrite Hc. reflexivity.
  - intros raw d Hv.
    assert (∃ ms, d = TimeValue ms ∧ sane ms = true
                  ∧ iso_of_time (Browser.iso_string ms) ms = true) as (ms & -> & Hs & Hi).
    { cbn in Hv. unfold validateTimestamp in Hv. destruct raw as [| | | |s| | |[|ms]]; try discriminate.
      - destruct (parse_iso s) as [ms|]; [|discriminate].
        destruct (sane ms) eqn:Hs; [|discriminate].
        destruct (iso_of_time s ms) eqn:Hi; [|discriminate]. injection Hv as <-.
        exists ms. destruct (iso_of_time_spec _ _ Hi) as [-> _]. auto.
      - destruct (sane ms) eqn:Hs; [|discriminate].
        destruct (iso_of_time (Browser.iso_string ms) ms) eqn:Hi; [|discriminate].
        injection Hv as <-. exists ms. auto. }
    destruct (validateTimestamp_accepts ms Hs Hi) as [Hd Hstr].
    split; [exact Hd|]. exists (Browser.iso_string ms). split; [apply sane_in_range, Hs | exact Hstr].
Qed.
End ReferenceValidators.

(** The theorem at a store of 10,000 copies of the sample entry, and at
    the empty store. *)
Lemma addEntry_capacity_witness :
  let add := @addEntry Examples.browser SpecValidation.validation Examples.sample_fields
               1704067200000 (RandomUUID Examples.uuid) in
  let w := Examples.world_with (Examples.copies_text (Z.to_nat 9999)) in
  (add w = (Throw CapacityExceededError, w)
   ∧ @getEntries Examples.browser SpecValidation.validation w
     = (Return (repeat Examples.sample_entry (S (Z.to_nat 9999))), w))
  ∧ ∃ w2, add Examples.empty_world = (Return Examples.sample_entry, w2)
          ∧ localStorage w2
            = <[entries_key := @serialized Examples.browser [Examples.sample_entry]]>
                (localStorage Examples.empty_world).
Proof.
  intros add w. split.
  - apply (proj1 (@addEntry_capacity Examples.browser SpecValidation.validation
                    Examples.sample_fields 1704067200000%Z (RandomUUID Examples.uuid) w
                    "x" [] None (repeat Examples.sample_entry (S (Z.to_nat 9999))) w
                    eq_refl eq_refl eq_refl (getEntries_copies (Z.to_nat 9999)))).
    rewrite repeat_length. unfold MAX_ENTRIES. lia.
  - apply (proj2 (@addEntry_capacity Examples.browser SpecValidation.validation
                    Examples.sample_fields 1704067200000%Z (RandomUUID Examples.uuid)
                    Examples.empty_world "x" [] None [] Examples.empty_world
                    eq_refl eq_refl eq_refl eq_refl)).
    + cbn. unfold MAX_ENTRIES. lia.
    + reflexivity.
    + apply spec_validation_idempotent.
    + reflexivity.
    + reflexivity.
    + writable_entries.
Defined.

(** C2 as stated fails where [localStorage] is full: the collection is
    empty, the fields are valid, and [addEntry] throws. *)
Lemma addEntry_fails_below_capacity :
  ¬ (∀ w entry now c m t cat entries,
       @validateAndSanitizeText SpecValidation.validation (f_message entry) = Return m →
       @validateTags SpecValidation.validation (map VStr (f_tags entry)) = Return t →
       @validate_optional_category SpecValidation.validation (f_category entry) = Return cat →
       @collection Examples.full_browser SpecValidation.validation w = Return entries →
       (Z.of_nat (length entries) < MAX_ENTRIES)%Z →
       ∃ e w2, @addEntry Examples.full_browser SpecValidation.validation entry now c w
               = (Return e, w2)).
Proof.
  intros Hclaim.
  destruct (Hclaim Examples.empty_world Examples.sample_fields 1704067200000%Z
              (RandomUUID Examples.uuid) "x" [] None [] eq_refl eq_refl eq_refl eq_refl)
    as (e & w2 & Hadd).
  - cbn. unfold MAX_ENTRIES. lia.
  - vm_compute in Hadd. discriminate.
Qed.

Section RoundTrip.
Context `{Platform} `{Validation}.

(** C3.  After [addEntry] on valid fields, the collection read back is
    the former collection followed by the entry that [addEntry]
    returned, whose message, tags and category are the sanitized input
    and whose id and timestamp are the generated ones; reading again
    yields the same (the read leaves the world as it is).  The
    validators are taken to be idempotent and to accept the generated
    identifier and the current time as they are; JSON reads back the text
    written, and the write is accepted. *)
Theorem addEntry_getEntries_roundtrip entry now c w m t cat entries w1 i :
  validateAndSanitizeText (f_message entry) = Return m →
  validateTags (map VStr (f_tags entry)) = Return t →
  validate_optional_category (f_category entry) = Return cat →
  getEntries w = (Return entries, w1) →
  (Z.of_nat (length entries) < MAX_ENTRIES)%Z →
  new_id c = Return i →
  idempotent_validation →
  validateEntryId i = Return i →
  validateTimestamp (VDate (TimeValue now)) = Return (TimeValue now) →
  json_faithful (entries ++ [mkLogEntry i m t cat (TimeValue now)]) →
  writable w1 (entries ++ [mkLogEntry i m t cat (TimeValue now)]) →
  ∃ e w2,
    addEntry entry now c w = (Return e, w2)
    ∧ message e = m ∧ tags e = t ∧ category e = cat
    ∧ id e = i ∧ timestamp e = TimeValue now
    ∧ getEntries w2 = (Return (entries ++ [e]), w2)
    ∧ e ∈ entries ++ [e]
    ∧ getEntries (getEntries w2).2 = getEntries w2.
Proof.
  intros Hm Ht Hc Hg Hlen Hi Hidem Hid Hnow Hjson Hw.
  pose proof (added_stable _ _ _ _ _ _ _ _ _ Hidem Hm Ht Hc Hg Hid Hnow) as Hst.
  rewrite (addEntry_validated entry now c w m t cat entries w1 Hm Ht Hc Hg).
  destruct (Z.leb_spec MAX_ENTRIES (Z.of_nat (length entries))); [lia|].
  rewrite Hi. cbv zeta.
  destruct (save_then_read _ w1 Hst Hjson Hw) as (w2 & Hsave & _ & Hread).
  rewrite Hsave. exists (mkLogEntry i m t cat (TimeValue now)), w2.
  repeat split; try reflexivity; try exact Hread.
  - apply elem_of_app. right. apply list_elem_of_singleton. reflexivity.
  - rewrite Hread. exact Hread.
Qed.

End RoundTrip.

(** The theorem at the empty store, for a message with markup, two
    tags and a category. *)
Lemma addEntry_getEntries_roundtrip_witness :
  ∃ e w2,
    @addEntry Examples.browser SpecValidation.validation Examples.markup_fields
      1704067200123 (RandomUUID Examples.uuid) Examples.empty_world = (Return e, w2)
    ∧ message e = "Fix bbug/b" ∧ tags e = ["react"; "typescript"] ∧ category e = Some "work"
    ∧ id e = Examples.uuid ∧ timestamp e = TimeValue 1704067200123
    ∧ @getEntries Examples.browser SpecValidation.validation w2 = (Return ([] ++ [e]), w2)
    ∧ e ∈ [] ++ [e]
    ∧ @getEntries Examples.browser SpecValidation.validation
        (@getEntries Examples.browser SpecValidation.validation w2).2
      = @getEntries Examples.browser SpecValidation.validation w2.
Proof.
  apply (@addEntry_getEntries_roundtrip Examples.browser SpecValidation.validation
           Examples.markup_fields 1704067200123%Z (RandomUUID Examples.uuid)
           Examples.empty_world "Fix bbug/b" ["react"; "typescript"] (Some "work") []
           Examples.empty_world Examples.uuid eq_refl eq_refl eq_refl eq_refl).
  - cbn. unfold MAX_ENTRIES. lia.
  - reflexivity.
  - apply spec_validation_idempotent.
  - reflexivity.
  - reflexivity.
  - faithful_entries.
  - writable_entries.
Defined.

(** ** Updating and deleting *)

Section Mutating.
Context `{Platform} `{Validation}.

Lemma findIndex_None validatedId entries :
  findIndex validatedId entries = None ↔ Forall (fun e => id e ≠ validatedId) entries.
Proof.
  induction entries as [|e entries IH]; cbn.
  - split; [constructor | reflexivity].
  - destruct (String.eqb_spec (id e) validatedId) as [Heq|Hne].
    + split; [discriminate|]. intros Hall. inversion Hall; contradiction.
    + destruct (findIndex validatedId entries) as [n|]; cbn.
      * split; [discriminate|]. intros Hall. inversion Hall as [|? ? _ Hrest]; subst.
        apply IH in Hrest. discriminate.
      * split; [|reflexivity]. intros _. constructor; [exact Hne | apply IH; reflexivity].
Qed.

(** [findIndex] returns the position of the first entry with the id. *)
Lemma findIndex_Some validatedId entries index :
  findIndex validatedId entries = Some index →
  ∃ e, entries !! index = Some e ∧ id e = validatedId
       ∧ Forall (fun e' => id e' ≠ validatedId) (take index entries).
Proof.
  revert index. induction entries as [|e entries IH]; intros index; cbn; [discriminate|].
  destruct (String.eqb_spec (id e) validatedId) as [Heq|Hne].
  - intros [= <-]. exists e. cbn. repeat split; [exact Heq | constructor].
  - destruct (findIndex validatedId entries) as [n|]; cbn; [|discriminate].
    intros [= <-]. destruct (IH n eq_refl) as (e' & Hl & Hid & Hbefore).
    exists e'. cbn. repeat split; [exact Hl | exact Hid |].
    constructor; assumption.
Qed.

Lemma updateEntry_validated i updates w validatedId entries w1 :
  validateEntryId i = Return validatedId →
  getEntries w = (Return entries, w1) →
  updateEntry i updates w =
  match findIndex validatedId entries with
  | None => (Throw NotFoundError, w1)
  | Some index =>
      match validate_updates updates with
      | Throw e => (Throw e, w1)
      | Return validatedUpdates =>
          saveEntries (alter (fun entry => merge_updates entry validatedUpdates)
                             index entries) w1
      end
  end.
Proof. intros Hi Hg. unfold updateEntry. rewrite Hi, Hg. reflexivity. Qed.

Lemma deleteEntry_validated i w validatedId entries w1 :
  validateEntryId i = Return validatedId →
  getEntries w = (Return entries, w1) →
  deleteEntry i w = saveEntries (filter (fun entry => id entry ≠ validatedId) entries) w1.
Proof. intros Hi Hg. unfold deleteEntry. rewrite Hi, Hg. reflexivity. Qed.

(** A field that the update leaves unset is unset in the validated
    update. *)
Lemma validate_updates_unset updates validatedUpdates :
  validate_updates updates = Return validatedUpdates →
  (u_message updates = None → v_message validatedUpdates = None)
  ∧ (u_tags updates = None → v_tags validatedUpdates = None)
  ∧ (u_category updates = None → v_category validatedUpdates = None).
Proof.
  intros Hv. unfold validate_updates in Hv.
  destruct (u_message updates) as [um|]; [destruct (validateAndSanitizeText um)|];
    cbn [obind] in Hv; try discriminate;
    (destruct (u_tags updates) as [ut|]; [destruct (validateTags (map VStr ut))|];
     cbn [obind] in Hv; try discriminate);
    (destruct (u_category updates) as [uc|];
     [destruct (validate_optional_category (Some uc))|];
     cbn [obind] in Hv; try discriminate);
    injection Hv as <-; repeat split; intros; try discriminate; reflexivity.
Qed.

(** C4.  [updateEntry] with a valid id that no entry of the collection
    has throws the not-found error; the collection read afterwards is
    the one read before, and the world is untouched unless the read had
    to discard a corrupted text. *)
Theorem updateEntry_not_found i updates w validatedId entries w1 :
  validateEntryId i = Return validatedId →
  getEntries w = (Return entries, w1) →
  Forall (fun e => id e ≠ validatedId) entries →
  updateEntry i updates w = (Throw NotFoundError, w1)
  ∧ collection w1 = collection w
  ∧ (entries ≠ [] → w1 = w)
  ∧ (localStorage w !! entries_key = None → w1 = w).
Proof.
  intros Hi Hg Hall.
  rewrite (updateEntry_validated i updates w validatedId entries w1 Hi Hg).
  apply findIndex_None in Hall. rewrite Hall.
  split; [reflexivity|]. split; [|split].
  - unfold collection. rewrite (getEntries_again w entries w1 Hg), Hg. reflexivity.
  - apply (getEntries_nonempty w entries w1 Hg).
  - intros Hk. unfold getEntries in Hg. rewrite (load_entries_absent w Hk) in Hg.
    congruence.
Qed.

(** C5.  A successful [updateEntry] replaces, in the collection read
    back, the first entry that has the id by its merge with the
    validated updates: that entry keeps its id and its timestamp
    whatever the update holds for them, keeps every field the update
    does not set, and every other entry is the same.  The validators are
    taken to be idempotent; JSON reads back the text written, and the
    write is accepted. *)
Theorem updateEntry_frame i updates w validatedId entries w1 index validatedUpdates :
  validateEntryId i = Return validatedId →
  getEntries w = (Return entries, w1) →
  findIndex validatedId entries = Some index →
  validate_updates updates = Return validatedUpdates →
  idempotent_validation →
  json_faithful (alter (fun e => merge_updates e validatedUpdates) index entries) →
  writable w1 (alter (fun e => merge_updates e validatedUpdates) index entries) →
  ∃ w2 entries',
    updateEntry i updates w = (Return tt, w2)
    ∧ getEntries w2 = (Return entries', w2)
    ∧ length entries' = length entries
    ∧ (∀ j, j ≠ index → entries' !! j = entries !! j)
    ∧ ∃ old new,
        entries !! index = Some old ∧ entries' !! index = Some new
        ∧ id new = id old ∧ timestamp new = timestamp old
        ∧ (u_message updates = None → message new = message old)
        ∧ (u_tags updates = None → tags new = tags old)
        ∧ (u_category updates = None → category new = category old).
Proof.
  intros Hi Hg Hidx Hv Hidem Hjson Hw.
  pose proof (alter_merge_stable entries index updates validatedUpdates Hidem
                (getEntries_stable w entries w1 Hidem Hg) Hv) as Hst.
  rewrite (updateEntry_validated i updates w validatedId entries w1 Hi Hg), Hidx, Hv.
  destruct (save_then_read _ w1 Hst Hjson Hw) as (w2 & Hsave & _ & Hread).
  exists w2, (alter (fun e => merge_updates e validatedUpdates) index entries).
  split; [exact Hsave|]. split; [exact Hread|]. split; [apply length_alter|].
  split; [intros j Hj; apply list_lookup_alter_ne; congruence|].
  destruct (findIndex_Some validatedId entries index Hidx) as (old & Hold & _ & _).
  exists old, (merge_updates old validatedUpdates).
  split; [exact Hold|]. split; [rewrite list_lookup_alter_eq, Hold; reflexivity|].
  split; [reflexivity|]. split; [reflexivity|].
  destruct (validate_updates_unset updates validatedUpdates Hv) as (Hm & Ht & Hc).
  unfold merge_updates. cbn [message tags category].
  split; [intros Hu; rewrite (Hm Hu); reflexivity|].
  split; [intros Hu; rewrite (Ht Hu); reflexivity|].
  intros Hu; rewrite (Hc Hu); reflexivity.
Qed.

(** C6, as the code has it.  [deleteEntry] with a valid id always
    ends in [saveEntries] of the entries whose id differs from it.  When
    that save succeeds, the collection read back is exactly those
    entries, in their order and as often as they occurred; when no entry
    has the id it is the same collection, and the call succeeds.  When
    [localStorage] refuses the write, [deleteEntry] throws the quota
    error, also for an id that no entry has, and the collection stays as
    it was.  For the save to succeed the validators are taken to be
    idempotent; JSON reads back the text written, and the write is
    accepted. *)
Theorem deleteEntry_removes i w validatedId entries w1 :
  validateEntryId i = Return validatedId →
  getEntries w = (Return entries, w1) →
  (idempotent_validation →
   json_faithful (filter (fun e => id e ≠ validatedId) entries) →
   writable w1 (filter (fun e => id e ≠ validatedId) entries) →
   ∃ w2 kept,
     deleteEntry i w = (Return tt, w2)
     ∧ getEntries w2 = (Return kept, w2)
     ∧ kept = filter (fun e => id e ≠ validatedId) entries
     ∧ kept `sublist_of` entries
     ∧ (∀ e, e ∈ kept ↔ e ∈ entries ∧ id e ≠ validatedId)
     ∧ (Forall (fun e => id e ≠ validatedId) entries → kept = entries))
  ∧ (write_refused w1 (filter (fun e => id e ≠ validatedId) entries) →
     ∃ w2, deleteEntry i w = (Throw QuotaExceededError, w2)
           ∧ localStorage w2 = localStorage w1
           ∧ collection w2 = Return entries).
Proof.
  intros Hi Hg. rewrite (deleteEntry_validated i w validatedId entries w1 Hi Hg). split.
  - intros Hidem Hjson Hw.
    pose proof (filter_stable (fun e => id e ≠ validatedId) entries
                  (getEntries_stable w entries w1 Hidem Hg)) as Hst.
    destruct (save_then_read _ w1 Hst Hjson Hw) as (w2 & Hsave & _ & Hread).
    exists w2, (filter (fun e => id e ≠ validatedId) entries).
    split; [exact Hsave|]. split; [exact Hread|]. split; [reflexivity|].
    split; [apply sublist_filter|]. split.
    + intros e. rewrite list_elem_of_filter. tauto.
    + clear. induction 1 as [|e l He _ IH]; [reflexivity|].
      rewrite filter_cons_True by exact He. rewrite IH. reflexivity.
  - intros Hr. rewrite (saveEntries_refused _ w1 Hr). eexists.
    split; [reflexivity|]. split; [reflexivity|].
    rewrite (collection_store
               (console_error "Failed to save entries:" (Some QuotaExceededError) w1)
               w1 eq_refl).
    unfold collection.
    rewrite (getEntries_again w entries w1 Hg). reflexivity.
Qed.

End Mutating.

Lemma getEntries_two_world :
  @getEntries Examples.browser SpecValidation.validation Examples.two_world
  = (Return Examples.two_entries, Examples.two_world).
Proof. vm_compute. reflexivity. Qed.

(** The theorem at the store of two entries, for an id that neither
    has. *)
Lemma updateEntry_not_found_witness :
  @updateEntry Examples.browser SpecValidation.validation Examples.other_uuid
    Examples.sample_updates Examples.two_world = (Throw NotFoundError, Examples.two_world)
  ∧ @collection Examples.browser SpecValidation.validation Examples.two_world
    = @collection Examples.browser SpecValidation.validation Examples.two_world
  ∧ (Examples.two_entries ≠ [] → Examples.two_world = Examples.two_world)
  ∧ (localStorage Examples.two_world !! entries_key = None
     → Examples.two_world = Examples.two_world).
Proof.
  apply (@updateEntry_not_found Examples.browser SpecValidation.validation
           Examples.other_uuid Examples.sample_updates Examples.two_world
           Examples.other_uuid Examples.two_entries Examples.two_world
           eq_refl getEntries_two_world).
  repeat constructor; vm_compute; discriminate.
Defined.

(** The theorem at the store of two entries, for an update of the
    message of the first that also offers an id and a timestamp. *)
Lemma updateEntry_frame_witness :
  ∃ w2 entries',
    @updateEntry Examples.browser SpecValidation.validation Examples.uuid
      Examples.sample_updates Examples.two_world = (Return tt, w2)
    ∧ @getEntries Examples.browser SpecValidation.validation w2 = (Return entries', w2)
    ∧ length entries' = length Examples.two_entries
    ∧ (∀ j, j ≠ 0 → entries' !! j = Examples.two_entries !! j)
    ∧ ∃ old new,
        Examples.two_entries !! 0 = Some old ∧ entries' !! 0 = Some new
        ∧ id new = id old ∧ timestamp new = timestamp old
        ∧ (u_message Examples.sample_updates = None → message new = message old)
        ∧ (u_tags Examples.sample_updates = None → tags new = tags old)
        ∧ (u_category Examples.sample_updates = None → category new = category old).
Proof.
  apply (@updateEntry_frame Examples.browser SpecValidation.validation Examples.uuid
           Examples.sample_updates Examples.two_world Examples.uuid Examples.two_entries
           Examples.two_world 0
           {| v_message := Some "new itext/i"; v_tags := None; v_category := None |}
           eq_refl getEntries_two_world eq_refl eq_refl).
  - apply spec_validation_idempotent.
  - faithful_entries.
  - writable_entries.
Defined.

(** The theorem at the store of two entries: for the id of the first,
    which leaves the second; for an id that neither has, which leaves
    both; and for that id in the browser whose [localStorage] is full,
    where the call throws. *)
Lemma deleteEntry_removes_witness :
  (∃ w2, @deleteEntry Examples.browser SpecValidation.validation Examples.uuid
           Examples.two_world = (Return tt, w2)
         ∧ @getEntries Examples.browser SpecValidation.validation w2
           = (Return [Examples.second_entry], w2))
  ∧ (∃ w2, @deleteEntry Examples.browser SpecValidation.validation Examples.other_uuid
             Examples.two_world = (Return tt, w2)
           ∧ @getEntries Examples.browser SpecValidation.validation w2
             = (Return Examples.two_entries, w2))
  ∧ (∃ w2, @deleteEntry Examples.full_browser SpecValidation.validation Examples.other_uuid
             Examples.two_world = (Throw QuotaExceededError, w2)
           ∧ localStorage w2 = localStorage Examples.two_world
           ∧ @collection Examples.full_browser SpecValidation.validation w2
             = Return Examples.two_entries).
Proof.
  split; [|split].
  - destruct (proj1 (@deleteEntry_removes Examples.browser SpecValidation.validation
                       Examples.uuid Examples.two_world Examples.uuid Examples.two_entries
                       Examples.two_world eq_refl getEntries_two_world))
      as (w2 & kept & Hdelete & Hread & -> & _).
    + apply spec_validation_idempotent.
    + faithful_entries.
    + writable_entries.
    + exists w2. split; [exact Hdelete | exact Hread].
  - destruct (proj1 (@deleteEntry_removes Examples.browser SpecValidation.validation
                       Examples.other_uuid Examples.two_world Examples.other_uuid
                       Examples.two_entries Examples.two_world eq_refl getEntries_two_world))
      as (w2 & kept & Hdelete & Hread & _ & _ & _ & Hsame).
    + apply spec_validation_idempotent.
    + faithful_entries.
    + writable_entries.
    + exists w2. split; [exact Hdelete|]. rewrite Hread, Hsame; [reflexivity|].
      repeat constructor; vm_compute; discriminate.
  - apply (proj2 (@deleteEntry_removes Examples.full_browser SpecValidation.validation
                    Examples.other_uuid Examples.two_world Examples.other_uuid
                    Examples.two_entries Examples.two_world eq_refl
                    ltac:(vm_compute; reflexivity))).
    refused_entries.
Defined.

(** C6 as stated fails where [localStorage] is full: the collection is
    empty, the id is valid and no entry has it, and [deleteEntry]
    throws. *)
Lemma deleteEntry_absent_id_can_throw :
  ¬ (∀ w i validatedId entries,
       @validateEntryId SpecValidation.validation i = Return validatedId →
       @collection Examples.full_browser SpecValidation.validation w = Return entries →
       Forall (fun e => id e ≠ validatedId) entries →
       ∃ w2, @deleteEntry Examples.full_browser SpecValidation.validation i w
             = (Return tt, w2)
             ∧ @collection Examples.full_browser SpecValidation.validation w2
               = Return entries).
Proof.
  intros Hclaim.
  destruct (Hclaim Examples.empty_world Examples.other_uuid Examples.other_uuid []
              eq_refl eq_refl (Forall_nil_2 _)) as (w2 & Hdelete & _).
  vm_compute in Hdelete. discriminate.
Qed.

(** ** Quota *)

Section Quota.
Context `{Platform} `{Validation}.

(** C8.  When [localStorage] refuses the write for lack of space,
    [SecureStorage.setItem] throws an [Error] with the quota message in
    place of the [DOMException]; [saveEntries] throws that error, and so
    do [addEntry], [updateEntry] and [deleteEntry] once they come to
    save; nothing is written. *)
Theorem quota_error_propagates :
  (∀ val w,
     (Z.of_nat (String.length val) ≤ QUOTA_BYTES)%Z →
     storage_full (localStorage w) entries_key val = true →
     localStorage_setItem entries_key val w = (Throw (DOMException "QuotaExceededError"), w)
     ∧ SecureStorage_setItem STORAGE_KEY val w = (Throw QuotaExceededError, w))
  ∧ (∀ entries w,
       write_refused w entries →
       ∃ w', saveEntries entries w = (Throw QuotaExceededError, w')
             ∧ localStorage w' = localStorage w)
  ∧ (∀ entry now c w m t cat entries w1 i,
       validateAndSanitizeText (f_message entry) = Return m →
       validateTags (map VStr (f_tags entry)) = Return t →
       validate_optional_category (f_category entry) = Return cat →
       getEntries w = (Return entries, w1) →
       (Z.of_nat (length entries) < MAX_ENTRIES)%Z →
       new_id c = Return i →
       write_refused w1 (entries ++ [mkLogEntry i m t cat (TimeValue now)]) →
       ∃ w2, addEntry entry now c w = (Throw QuotaExceededError, w2)
             ∧ localStorage w2 = localStorage w1)
  ∧ (∀ i updates w validatedId entries w1 index validatedUpdates,
       validateEntryId i = Return validatedId →
       getEntries w = (Return entries, w1) →
       findIndex validatedId entries = Some index →
       validate_updates updates = Return validatedUpdates →
       write_refused w1 (alter (fun e => merge_updates e validatedUpdates) index entries) →
       ∃ w2, updateEntry i updates w = (Throw QuotaExceededError, w2)
             ∧ localStorage w2 = localStorage w1)
  ∧ (∀ i w validatedId entries w1,
       validateEntryId i = Return validatedId →
       getEntries w = (Return entries, w1) →
       write_refused w1 (filter (fun e => id e ≠ validatedId) entries) →
       ∃ w2, deleteEntry i w = (Throw QuotaExceededError, w2)
             ∧ localStorage w2 = localStorage w1).
Proof.
  split; [|split; [|split; [|split]]].
  - intros val w Hsize Hfull. split.
    + unfold localStorage_setItem. rewrite Hfull. reflexivity.
    + rewrite setItem_entries.
      destruct (Z.ltb_spec QUOTA_BYTES (Z.of_nat (String.length val))); [lia|].
      rewrite Hfull. reflexivity.
  - intros entries w Hr. rewrite (saveEntries_refused entries w Hr).
    eexists. split; reflexivity.
  - intros entry now c w m t cat entries w1 i Hm Ht Hc Hg Hlen Hi Hr.
    rewrite (addEntry_validated entry now c w m t cat entries w1 Hm Ht Hc Hg).
    destruct (Z.leb_spec MAX_ENTRIES (Z.of_nat (length entries))); [lia|].
    rewrite Hi. cbv zeta. rewrite (saveEntries_refused _ w1 Hr).
    eexists. split; reflexivity.
  - intros i updates w validatedId entries w1 index validatedUpdates Hi Hg Hidx Hv Hr.
    rewrite (updateEntry_validated i updates w validatedId entries w1 Hi Hg), Hidx, Hv.
    rewrite (saveEntries_refused _ w1 Hr). eexists. split; reflexivity.
  - intros i w validatedId entries w1 Hi Hg Hr.
    rewrite (deleteEntry_validated i w validatedId entries w1 Hi Hg).
    rewrite (saveEntries_refused _ w1 Hr). eexists. split; reflexivity.
Qed.

End Quota.

(** The theorem in the browser whose [localStorage] is full: saving the
    sample entry, adding it to the empty store, and updating and
    deleting the first of the two stored entries. *)
Lemma quota_error_propagates_witness :
  (∃ w', @saveEntries Examples.full_browser SpecValidation.validation
           [Examples.sample_entry] Examples.empty_world = (Throw QuotaExceededError, w')
         ∧ localStorage w' = localStorage Examples.empty_world)
  ∧ (∃ w2, @addEntry Examples.full_browser SpecValidation.validation Examples.sample_fields
             1704067200000 (RandomUUID Examples.uuid) Examples.empty_world
           = (Throw QuotaExceededError, w2)
           ∧ localStorage w2 = localStorage Examples.empty_world)
  ∧ (∃ w2, @updateEntry Examples.full_browser SpecValidation.validation Examples.uuid
             Examples.sample_updates Examples.two_world = (Throw QuotaExceededError, w2)
           ∧ localStorage w2 = localStorage Examples.two_world)
  ∧ (∃ w2, @deleteEntry Examples.full_browser SpecValidation.validation Examples.uuid
             Examples.two_world = (Throw QuotaExceededError, w2)
           ∧ localStorage w2 = localStorage Examples.two_world).
Proof.
  destruct (@quota_error_propagates Examples.full_browser SpecValidation.validation)
    as (_ & Hsave & Hadd & Hupdate & Hdelete).
  assert (@getEntries Examples.full_browser SpecValidation.validation Examples.two_world
          = (Return Examples.two_entries, Examples.two_world)) as Htwo
    by (vm_compute; reflexivity).
  split; [|split; [|split]].
  - apply Hsave. refused_entries.
  - apply (Hadd Examples.sample_fields 1704067200000%Z (RandomUUID Examples.uuid)
             Examples.empty_world "x" [] None [] Examples.empty_world Examples.uuid
             eq_refl eq_refl eq_refl eq_refl).
    + cbn. unfold MAX_ENTRIES. lia.
    + reflexivity.
    + refused_entries.
  - apply (Hupdate Examples.uuid Examples.sample_updates Examples.two_world Examples.uuid
             Examples.two_entries Examples.two_world 0
             {| v_message := Some "new itext/i"; v_tags := None; v_category := None |}
             eq_refl Htwo eq_refl eq_refl).
    refused_entries.
  - apply (Hdelete Examples.uuid Examples.two_world Examples.uuid Examples.two_entries
             Examples.two_world eq_refl Htwo).
    refused_entries.
Defined.

(** ** The empty category *)

Section EmptyCategory.
Context `{Platform} `{Validation}.

Lemma validate_empty_category : validate_optional_category (Some "") = Return None.
Proof. reflexivity. Qed.

(** C10.  The empty string as a category is read as no category.
    [addEntry] does with it what it does without a category: the entry
    it returns has none, and so has the entry that it stores and that is
    read back as the last of the collection; [updateEntry] validates the
    other fields only and sets the category to [undefined], so that the
    entry read back has no category; the category validator is not
    called on it.  For the reads after the write the validators are
    taken to be idempotent, JSON to read back the text written, and the
    write to be accepted. *)
Theorem empty_category_is_absent :
  (∀ entry now c w,
     f_category entry = Some "" →
     addEntry entry now c w
     = addEntry (mkEntryFields (f_message entry) (f_tags entry) None) now c w
     ∧ ∀ e w2, addEntry entry now c w = (Return e, w2) → category e = None)
  ∧ (∀ entry now c w m t entries w1 i,
       f_category entry = Some "" →
       validateAndSanitizeText (f_message entry) = Return m →
       validateTags (map VStr (f_tags entry)) = Return t →
       getEntries w = (Return entries, w1) →
       (Z.of_nat (length entries) < MAX_ENTRIES)%Z →
       new_id c = Return i →
       idempotent_validation →
       validateEntryId i = Return i →
       validateTimestamp (VDate (TimeValue now)) = Return (TimeValue now) →
       json_faithful (entries ++ [mkLogEntry i m t None (TimeValue now)]) →
       writable w1 (entries ++ [mkLogEntry i m t None (TimeValue now)]) →
       ∃ e w2 stored,
         addEntry entry now c w = (Return e, w2)
         ∧ e = mkLogEntry i m t None (TimeValue now)
         ∧ localStorage w2 !! entries_key = Some (serialized (entries ++ [e]))
         ∧ getEntries w2 = (Return stored, w2)
         ∧ stored = entries ++ [e]
         ∧ last stored = Some e
         ∧ category e = None)
  ∧ (∀ updates,
       u_category updates = Some "" →
       validate_updates updates
       = let! v := validate_updates
                     (mkEntryUpdates (u_id updates) (u_message updates) (u_tags updates)
                        None (u_timestamp updates)) in
         Return (mkValidatedUpdates (v_message v) (v_tags v) (Some None)))
  ∧ (∀ i updates w validatedId entries w1 index validatedUpdates,
       u_category updates = Some "" →
       validateEntryId i = Return validatedId →
       getEntries w = (Return entries, w1) →
       findIndex validatedId entries = Some index →
       validate_updates updates = Return validatedUpdates →
       idempotent_validation →
       json_faithful (alter (fun e => merge_updates e validatedUpdates) index entries) →
       writable w1 (alter (fun e => merge_updates e validatedUpdates) index entries) →
       ∃ w2 entries' new,
         updateEntry i updates w = (Return tt, w2)
         ∧ getEntries w2 = (Return entries', w2)
         ∧ entries' !! index = Some new ∧ category new = None).
Proof.
  split; [|split; [|split]].
  - intros entry now c w Hcat. split.
    + unfold addEntry. cbn [f_message f_tags f_category]. rewrite Hcat. reflexivity.
    + intros e w2. unfold addEntry. rewrite Hcat, validate_empty_category.
      destruct (validateAndSanitizeText (f_message entry)); [|discriminate].
      destruct (validateTags (map VStr (f_tags entry))); [|discriminate].
      destruct (getEntries w) as [[entries|] w1]; [|discriminate].
      destruct (MAX_ENTRIES <=? Z.of_nat (length entries))%Z; [discriminate|].
      destruct (new_id c); [|discriminate].
      destruct (saveEntries _ w1) as [[u|] w']; [|discriminate].
      intros [= <- _]. reflexivity.
  - intros entry now c w m t entries w1 i Hcat Hm Ht Hg Hlen Hi Hidem Hid Hnow Hjson Hw.
    assert (validate_optional_category (f_category entry) = Return None) as Hc.
    { rewrite Hcat. apply validate_empty_category. }
    pose proof (added_stable _ _ _ _ _ _ _ _ _ Hidem Hm Ht Hc Hg Hid Hnow) as Hst.
    rewrite (addEntry_validated entry now c w m t None entries w1 Hm Ht Hc Hg).
    destruct (Z.leb_spec MAX_ENTRIES (Z.of_nat (length entries))); [lia|].
    rewrite Hi. cbv zeta.
    destruct (save_then_read _ w1 Hst Hjson Hw) as (w2 & Hsave & Hstore & Hread).
    rewrite Hsave.
    exists (mkLogEntry i m t None (TimeValue now)), w2,
      (entries ++ [mkLogEntry i m t None (TimeValue now)]).
    split; [reflexivity|]. split; [reflexivity|].
    split; [rewrite Hstore; apply lookup_insert_eq|].
    split; [exact Hread|]. split; [reflexivity|].
    split; [apply last_snoc | reflexivity].
  - intros updates Hcat. unfold validate_updates.
    cbn [u_message u_tags u_category]. rewrite Hcat, validate_empty_category.
    destruct (u_message updates) as [um|]; [destruct (validateAndSanitizeText um)|];
      cbn [obind]; try reflexivity;
      (destruct (u_tags updates) as [ut|]; [destruct (validateTags (map VStr ut))|];
       reflexivity).
  - intros i updates w validatedId entries w1 index validatedUpdates
      Hcat Hi Hg Hidx Hv Hidem Hjson Hw.
    pose proof (alter_merge_stable entries index updates validatedUpdates Hidem
                  (getEntries_stable w entries w1 Hidem Hg) Hv) as Hst.
    rewrite (updateEntry_validated i updates w validatedId entries w1 Hi Hg), Hidx, Hv.
    destruct (save_then_read _ w1 Hst Hjson Hw) as (w2 & Hsave & _ & Hread).
    destruct (findIndex_Some validatedId entries index Hidx) as (old & Hold & _ & _).
    exists w2, (alter (fun e => merge_updates e validatedUpdates) index entries),
      (merge_updates old validatedUpdates).
    split; [exact Hsave|]. split; [exact Hread|].
    split; [rewrite list_lookup_alter_eq, Hold; reflexivity|].
    assert (v_category validatedUpdates = Some None) as Hvc.
    { unfold validate_updates in Hv. rewrite Hcat, validate_empty_category in Hv.
      destruct (u_message updates) as [um|]; [destruct (validateAndSanitizeText um)|];
        cbn [obind] in Hv; try discriminate;
        (destruct (u_tags updates) as [ut|]; [destruct (validateTags (map VStr ut))|];
         cbn [obind] in Hv; try discriminate);
        injection Hv as <-; reflexivity. }
    unfold merge_updates. cbn [category]. rewrite Hvc. reflexivity.
Qed.

End EmptyCategory.

(** The theorem at the empty store, for fields with the empty
    category: the entry is stored and read back without a category; and
    at the store of two entries, for an update that sets the category of
    the first (which is [work]) to the empty string. *)
Lemma empty_category_is_absent_witness :
  (∃ e w2 stored,
     @addEntry Examples.browser SpecValidation.validation
       Examples.empty_category_fields 1704067200000 (RandomUUID Examples.uuid)
       Examples.empty_world = (Return e, w2)
     ∧ e = mkLogEntry Examples.uuid "note" [] None (TimeValue 1704067200000)
     ∧ localStorage w2 !! entries_key = Some (@serialized Examples.browser ([] ++ [e]))
     ∧ @getEntries Examples.browser SpecValidation.validation w2 = (Return stored, w2)
     ∧ stored = [] ++ [e]
     ∧ last stored = Some e
     ∧ category e = None)
  ∧ ∃ w2 entries' new,
      @updateEntry Examples.browser SpecValidation.validation Examples.uuid
        Examples.clear_category Examples.two_world = (Return tt, w2)
      ∧ @getEntries Examples.browser SpecValidation.validation w2 = (Return entries', w2)
      ∧ entries' !! 0 = Some new ∧ category new = None.
Proof.
  destruct (@empty_category_is_absent Examples.browser SpecValidation.validation)
    as (_ & Hadd & _ & Hupdate).
  split.
  - apply (Hadd Examples.empty_category_fields 1704067200000%Z (RandomUUID Examples.uuid)
             Examples.empty_world "note" [] [] Examples.empty_world Examples.uuid
             eq_refl eq_refl eq_refl eq_refl).
    + cbn. unfold MAX_ENTRIES. lia.
    + reflexivity.
    + apply spec_validation_idempotent.
    + reflexivity.
    + reflexivity.
    + faithful_entries.
    + writable_entries.
  - apply (Hupdate Examples.uuid Examples.clear_category Examples.two_world Examples.uuid
             Examples.two_entries Examples.two_world 0
             {| v_message := None; v_tags := None; v_category := Some None |}
             eq_refl eq_refl getEntries_two_world eq_refl eq_refl).
    + apply spec_validation_idempotent.
    + faithful_entries.
    + writable_entries.
Defined.

(** ** Invariants of the data model *)

Section Invariants.
Context `{Platform} `{Validation}.


(** The identifiers of [generateSecureId] on 16 bytes have the 32 digit
    format. *)
Lemma hex_digit_lower n : is_lower_hex (hex_digit n) = true.
Proof.
  destruct n as [|p]; [reflexivity|].
  do 4 (destruct p as [p|p|]; try reflexivity).
Qed.

Lemma append_empty_r (s : string) : s +:+ "" = s.
Proof.
  induction s as [|c s IH]; [reflexivity|].
  change (String c s +:+ "") with (String c (s +:+ "")). rewrite IH. reflexivity.
Qed.

Lemma concat_empty_cons (x : string) (l : list string) :
  String.concat "" (x :: l) = x +:+ String.concat "" l.
Proof.
  destruct l as [|y l].
  - change (String.concat "" [x]) with x. rewrite append_empty_r. reflexivity.
  - reflexivity.
Qed.

Lemma forallb_append (p : ascii → bool) (a b : string) :
  forallb p (list_ascii_of_string (a +:+ b))
  = forallb p (list_ascii_of_string a) && forallb p (list_ascii_of_string b).
Proof.
  induction a as [|c a IH]; [reflexivity|].
  change (String c a +:+ b) with (String c (a +:+ b)).
  cbn [list_ascii_of_string forallb]. rewrite IH. apply andb_assoc.
Qed.

Lemma generateSecureId_chars random :
  forallb is_lower_hex (list_ascii_of_string (generateSecureId random)) = true
  ∧ String.length (generateSecureId random) = (2 * length random)%nat.
Proof.
  unfold generateSecureId. induction random as [|b random [IHc IHl]]; [split; reflexivity|].
  cbn [map]. rewrite concat_empty_cons, forallb_append, length_append, IHc, IHl.
  unfold hex_byte. cbn [list_ascii_of_string forallb String.length length].
  rewrite !hex_digit_lower. split; [reflexivity | lia].
Qed.

Lemma generateSecureId_format random :
  length random = 16%nat → generator_format (generateSecureId random) = true.
Proof.
  intros Hlen. destruct (generateSecureId_chars random) as [Hc Hl].
  unfold generator_format, is_hex32. rewrite Hc, Hl, Hlen. reflexivity.
Qed.







End Invariants.





(** ** Statistics *)

Section Sorting.
Context {A : Type} (cmp : A → A → Z).
Hypothesis cmp_total : ∀ a b, (cmp a b ≤ 0)%Z ∨ (cmp b a ≤ 0)%Z.

Lemma sort_insert_perm x l : sort_insert cmp x l ≡ₚ x :: l.
Proof.
  induction l as [|y l IH]; cbn; [reflexivity|].
  destruct (cmp x y <=? 0)%Z; [reflexivity|].
  rewrite IH. apply Permutation_swap.
Qed.

Lemma Array_sort_perm l : Array_sort cmp l ≡ₚ l.
Proof.
  unfold Array_sort. induction l as [|x l IH]; cbn; [reflexivity|].
  rewrite sort_insert_perm, IH. reflexivity.
Qed.

Lemma sort_insert_HdRel a x l :
  HdRel (before cmp) a l → before cmp a x → HdRel (before cmp) a (sort_insert cmp x l).
Proof.
  intros Hl Hx. destruct l as [|y l]; cbn; [constructor; exact Hx|].
  destruct (cmp x y <=? 0)%Z; constructor; [exact Hx|].
  inversion Hl; assumption.
Qed.

Lemma sort_insert_Sorted x l : Sorted (before cmp) l → Sorted (before cmp) (sort_insert cmp x l).
Proof.
  induction 1 as [|y l Hs IH Hhd]; cbn; [repeat constructor|].
  destruct (Z.leb_spec (cmp x y) 0) as [Hle|Hgt].
  - constructor; [constructor; assumption | constructor; exact Hle].
  - constructor; [exact IH|]. apply sort_insert_HdRel; [exact Hhd|].
    unfold before. destruct (cmp_total y x); [assumption | lia].
Qed.

Lemma Array_sort_Sorted l : Sorted (before cmp) (Array_sort cmp l).
Proof.
  unfold Array_sort. induction l as [|x l IH]; cbn; [constructor|].
  apply sort_insert_Sorted, IH.
Qed.

End Sorting.

Lemma Sorted_take {A : Type} (R : A → A → Prop) (n : nat) (l : list A) :
  Sorted R l → Sorted R (take n l).
Proof.
  intros Hs. revert n. induction Hs as [|x l Hs IH Hhd]; intros [|n]; cbn; try constructor.
  - apply IH.
  - destruct Hhd as [|y l' Hxy]; destruct n; cbn; constructor. exact Hxy.
Qed.

Lemma Sorted_impl {A : Type} (R Q : A → A → Prop) (l : list A) :
  (∀ a b, a ∈ l → b ∈ l → R a b → Q a b) → Sorted R l → Sorted Q l.
Proof.
  intros Himpl Hs. induction Hs as [|x l Hs IH Hhd]; [constructor|].
  constructor.
  - apply IH. intros a b Ha Hb. apply Himpl; right; assumption.
  - destruct Hhd as [|y l' Hxy]; constructor.
    apply Himpl; [left | right; left | exact Hxy].
Qed.

Section Counters.

Lemma descending_total a b : (descending a b ≤ 0)%Z ∨ (descending b a ≤ 0)%Z.
Proof.
  unfold descending. destruct a.2 as [x|], b.2 as [y|]; lia.
Qed.

Lemma assoc_set_own {A : Type} (k k' : string) (a : A) (l : list (string * A)) :
  assoc k' (set_own k a l) = if k =? k' then Some a else assoc k' l.
Proof.
  induction l as [|[k0 a0] l IH]; cbn; [reflexivity|].
  destruct (String.eqb_spec k0 k) as [->|Hne]; cbn.
  - destruct (String.eqb_spec k k'); reflexivity.
  - rewrite IH. destruct (String.eqb_spec k0 k') as [->|]; [|reflexivity].
    destruct (String.eqb_spec k k'); [congruence | reflexivity].
Qed.

Lemma assoc_None {A : Type} (k : string) (l : list (string * A)) :
  assoc k l = None ↔ k ∉ l.*1.
Proof.
  induction l as [|[k0 a0] l IH]; cbn.
  - split; [intros _; apply not_elem_of_nil | reflexivity].
  - rewrite not_elem_of_cons. destruct (String.eqb_spec k0 k) as [->|Hne].
    + split; [discriminate | intros [Hk _]; congruence].
    + rewrite IH. split; [intros Hn; split; [congruence | exact Hn] | tauto].
Qed.

Lemma assoc_elem_of {A : Type} (k : string) (a : A) (l : list (string * A)) :
  NoDup l.*1 → (k, a) ∈ l → assoc k l = Some a.
Proof.
  induction l as [|[k0 a0] l IH]; cbn; intros Hnd Hin.
  - apply elem_of_nil in Hin. contradiction.
  - apply NoDup_cons in Hnd as [Hk0 Hnd]. apply elem_of_cons in Hin as [[= -> ->]|Hin].
    + rewrite String.eqb_refl. reflexivity.
    + destruct (String.eqb_spec k0 k) as [->|Hne]; [|apply IH; assumption].
      exfalso. apply Hk0. apply list_elem_of_fmap. exists (k, a). split; [reflexivity | exact Hin].
Qed.

Lemma keys_set_own {A : Type} (k : string) (a : A) (l : list (string * A)) :
  (set_own k a l).*1 = match assoc k l with Some _ => l.*1 | None => l.*1 ++ [k] end.
Proof.
  induction l as [|[k0 a0] l IH]; cbn; [reflexivity|].
  destruct (String.eqb_spec k0 k) as [->|Hne]; cbn; [reflexivity|].
  rewrite IH. destruct (assoc k l); reflexivity.
Qed.

Lemma occurrences_snoc k k' l :
  occurrences k (l ++ [k']) = (occurrences k l + if decide (k' = k) then 1 else 0)%nat.
Proof.
  unfold occurrences. rewrite filter_app, length_app.
  rewrite filter_cons, filter_nil. destruct (decide (k' = k)); reflexivity.
Qed.

Lemma occurrences_zero k l : occurrences k l = 0%nat ↔ k ∉ l.
Proof.
  unfold occurrences. induction l as [|x l IH].
  - split; [intros _; apply not_elem_of_nil | reflexivity].
  - rewrite filter_cons, not_elem_of_cons. destruct (decide (x = k)) as [->|Hne]; cbn [length].
    + split; [discriminate | intros [Hk _]; congruence].
    + rewrite IH. split; [intros Hn; split; [congruence | exact Hn] | tauto].
Qed.

Lemma counts_nil : counts [] [].
Proof. split; [constructor | reflexivity]. Qed.

Lemma inherited_proto k : inherited k = false → (k =? "__proto__") = false.
Proof.
  intros Hk. destruct (String.eqb_spec k "__proto__") as [->|]; [discriminate Hk | reflexivity].
Qed.

Lemma bump_counts l cs k :
  inherited k = false → counts l cs → counts (l ++ [k]) (bump cs k).
Proof.
  intros Hsafe [Hnd Hc]. pose proof (Hc k) as Hk. unfold bump.
  assert (∀ v, (∀ k', k' ≠ k → True) →
               (match occurrences k l with O => assoc k cs = None | S _ => is_Some (assoc k cs) end) →
               NoDup (set_own k v cs).*1) as Hkeys.
  { intros v _ Hcase. rewrite keys_set_own. destruct (assoc k cs) eqn:Ha; [exact Hnd|].
    apply NoDup_app. split; [exact Hnd|]. split; [|apply NoDup_singleton].
    intros x Hx Hx'. apply list_elem_of_singleton in Hx' as ->.
    apply assoc_None in Ha. contradiction. }
  destruct (occurrences k l) as [|n] eqn:Hocc; rewrite Hk.
  - rewrite (inherited_proto k Hsafe), Hsafe. split.
    + apply Hkeys; [trivial | exact Hk].
    + intros k'. rewrite assoc_set_own, occurrences_snoc.
      destruct (String.eqb_spec k k') as [<-|Hne].
      * rewrite Hocc. destruct (decide (k = k)); [reflexivity | congruence].
      * destruct (decide (k = k')); [congruence|]. rewrite Nat.add_0_r. apply Hc.
  - split.
    + apply Hkeys; [trivial | rewrite Hk; eauto].
    + intros k'. rewrite assoc_set_own, occurrences_snoc.
      destruct (String.eqb_spec k k') as [<-|Hne].
      * rewrite Hocc. destruct (decide (k = k)); [|congruence].
        replace (S n + 1)%nat with (S (S n)) by lia. reflexivity.
      * destruct (decide (k = k')); [congruence|]. rewrite Nat.add_0_r. apply Hc.
Qed.

Lemma foldl_bump_counts ks l cs :
  Forall (fun k => inherited k = false) ks → counts l cs →
  counts (l ++ ks) (foldl bump cs ks).
Proof.
  intros Hsafe. revert l cs. induction Hsafe as [|k ks Hk _ IH]; intros l cs Hc; cbn.
  - rewrite app_nil_r. exact Hc.
  - replace (l ++ k :: ks) with ((l ++ [k]) ++ ks) by (rewrite <- app_assoc; reflexivity).
    apply IH, bump_counts; assumption.
Qed.

(** The two counters of [getStatistics] are the counter of all tags and
    the counter of all categories. *)
Lemma foldl_count_entry entries c1 c2 :
  foldl count_entry (c1, c2) entries
  = (foldl bump c1 (all_tags entries), foldl bump c2 (all_categories entries)).
Proof.
  revert c1 c2. induction entries as [|e entries IH]; intros c1 c2; [reflexivity|].
  cbn [foldl]. unfold count_entry at 2. cbn [fst snd].
  rewrite IH. unfold all_tags, all_categories. cbn [map concat].
  rewrite foldl_app. f_equal.
  destruct e as [i m t [c|] d]; cbn [category]; [|reflexivity].
  cbn [truthy]. destruct (c =? "") eqn:Hc; simpl; rewrite Hc; reflexivity.
Qed.

Lemma insert_index_perm {A : Type} (i : N) (x : A) (l : list (N * A)) :
  insert_index i x l ≡ₚ (i, x) :: l.
Proof.
  induction l as [|[j y] l IH]; cbn; [reflexivity|].
  destruct (i <=? j)%N; [reflexivity|]. rewrite IH. apply Permutation_swap.
Qed.

(** [Object.entries] lists every own property once. *)
Lemma Object_entries_perm {A : Type} (o : list (string * A)) : Object_entries o ≡ₚ o.
Proof.
  unfold Object_entries. induction o as [|kv o IH]; [reflexivity|].
  rewrite filter_cons.
  change (omap ?f (kv :: o))
    with (match f kv with Some y => y :: omap f o | None => omap f o end).
  cbv beta.
  destruct (array_index kv.1) as [i|] eqn:Hi; cbn [fmap option_fmap option_map foldr].
  - destruct (decide (Some i = None)) as [|_]; [discriminate|].
    cbn [fst snd]. rewrite insert_index_perm. cbn [map snd app]. rewrite IH. reflexivity.
  - destruct (decide (None = None)) as [_|]; [|congruence].
    rewrite <- Permutation_middle, IH. reflexivity.
Qed.

Lemma counts_keys l cs : counts l cs → cs.*1 ≡ₚ remove_dups l.
Proof.
  intros [Hnd Hc]. apply NoDup_Permutation; [exact Hnd | apply NoDup_remove_dups|].
  intros k. rewrite elem_of_remove_dups.
  pose proof (assoc_None k cs) as Hn. pose proof (occurrences_zero k l) as Hz.
  specialize (Hc k). destruct (occurrences k l) as [|n].
  - split; intros Hk; exfalso; [apply Hn in Hc | apply (proj1 Hz eq_refl)]; tauto.
  - split; intros Hk.
    + destruct (decide (k ∈ l)) as [|Hnot]; [assumption|]. apply Hz in Hnot. discriminate.
    + destruct (decide (k ∈ cs.*1)) as [|Hnot]; [assumption|]. apply Hn in Hnot. congruence.
Qed.

Lemma counts_elem_of l cs k c :
  counts l cs → (k, c) ∈ cs → k ∈ l ∧ c = CNum (occurrences k l).
Proof.
  intros [Hnd Hc] Hin. pose proof (assoc_elem_of k c cs Hnd Hin) as Ha.
  rewrite Hc in Ha. destruct (occurrences k l) as [|n] eqn:Ho; [discriminate|].
  injection Ha as <-. split; [|reflexivity].
  destruct (decide (k ∈ l)) as [|Hnot]; [assumption|].
  apply occurrences_zero in Hnot. congruence.
Qed.

(** The first ten of the sorted entries of a counter are a ranking. *)
Lemma counts_ranking l cs :
  counts l cs → ranking l (take 10 (Array_sort descending (Object_entries cs))).
Proof.
  intros Hc. set (sorted := Array_sort descending (Object_entries cs)).
  assert (sorted ≡ₚ cs) as Hperm.
  { unfold sorted. rewrite Array_sort_perm. apply Object_entries_perm. }
  assert (∀ k c, (k, c) ∈ sorted → k ∈ l ∧ c = CNum (occurrences k l)) as Hin.
  { intros k c Hk. apply (counts_elem_of l cs k c Hc). rewrite <- Hperm. exact Hk. }
  assert (descending_counts sorted) as Hsorted.
  { unfold descending_counts.
    apply (Sorted_impl (before descending)); [|apply Array_sort_Sorted, descending_total].
    intros [ka ca] [kb cb] Ha Hb Hab. apply Hin in Ha as [_ ->]. apply Hin in Hb as [_ ->].
    unfold before, descending in Hab. cbn in Hab. cbn. eexists _, _.
    split; [reflexivity|]. split; [reflexivity | lia]. }
  assert (length sorted = length (remove_dups l)) as Hlen.
  { rewrite <- (length_fmap fst sorted), Hperm, (counts_keys l cs Hc). reflexivity. }
  split; [rewrite length_take; lia|].
  split; [rewrite length_take, Hlen; reflexivity|].
  split; [apply Sorted_take, Hsorted|].
  split; [intros k c Hk; apply Hin; eapply subseteq_take; exact Hk|].
  exists (drop 10 sorted). rewrite take_drop.
  split; [exact Hsorted|]. rewrite Hperm. apply counts_keys, Hc.
Qed.

End Counters.

Section Statistics.
Context `{Platform} `{Validation}.

Lemma getStatistics_statistics_of w entries w1 :
  getEntries w = (Return entries, w1) →
  getStatistics w = (Return (statistics_of entries), w1).
Proof. intros Hg. unfold getStatistics. rewrite Hg. reflexivity. Qed.

(** The statistics of a collection none of whose tags and categories is
    the name of a property of [Object.prototype]: the number of entries,
    the numbers of distinct tags and of distinct categories, and the
    rankings of the tags and of the categories. *)
Theorem statistics_of_safe_keys entries :
  Forall (fun k => inherited k = false) (all_tags entries) →
  Forall (fun k => inherited k = false) (all_categories entries) →
  totalEntries (statistics_of entries) = length entries
  ∧ totalTags (statistics_of entries) = length (remove_dups (all_tags entries))
  ∧ totalCategories (statistics_of entries) = length (remove_dups (all_categories entries))
  ∧ ranking (all_tags entries) (mostUsedTags (statistics_of entries))
  ∧ ranking (all_categories entries) (mostUsedCategories (statistics_of entries)).
Proof.
  intros Htags Hcats. unfold statistics_of. rewrite foldl_count_entry.
  cbn [totalEntries totalTags totalCategories mostUsedTags mostUsedCategories fst snd].
  pose proof (foldl_bump_counts _ [] [] Htags counts_nil) as Ht.
  pose proof (foldl_bump_counts _ [] [] Hcats counts_nil) as Hc.
  cbn [app] in Ht, Hc.
  split; [reflexivity|].
  split; [rewrite <- (length_fmap fst), (counts_keys _ _ Ht); reflexivity|].
  split; [rewrite <- (length_fmap fst), (counts_keys _ _ Hc); reflexivity|].
  split; apply counts_ranking; assumption.
Qed.

(** X23.  [getStatistics] on a collection with such tags and
    categories: it returns the number of entries, the numbers of distinct
    tags and of distinct categories, and the two rankings. *)
Corollary getStatistics_safe_keys w entries w1 :
  getEntries w = (Return entries, w1) →
  Forall (fun k => inherited k = false) (all_tags entries) →
  Forall (fun k => inherited k = false) (all_categories entries) →
  ∃ s, getStatistics w = (Return s, w1)
       ∧ totalEntries s = length entries
       ∧ totalTags s = length (remove_dups (all_tags entries))
       ∧ totalCategories s = length (remove_dups (all_categories entries))
       ∧ ranking (all_tags entries) (mostUsedTags s)
       ∧ ranking (all_categories entries) (mostUsedCategories s).
Proof.
  intros Hg Htags Hcats. exists (statistics_of entries).
  split; [apply getStatistics_statistics_of, Hg|].
  apply statistics_of_safe_keys; assumption.
Qed.

End Statistics.

(** The statistics example of the specification. *)
Lemma statistics_of_example :
  let s := statistics_of Examples.statistics_example in
  totalEntries s = 3%nat ∧ totalTags s = 3%nat ∧ totalCategories s = 2%nat
  ∧ head (mostUsedTags s) = Some ("react", CNum 2)
  ∧ mostUsedTags s = [("react", CNum 2); ("typescript", CNum 1); ("vue", CNum 1)]
  ∧ mostUsedCategories s = [("work", CNum 2); ("personal", CNum 1)].
Proof. vm_compute. repeat split; reflexivity. Qed.

(** C7 fails on the code for a tag that names a property of
    [Object.prototype].  An entry added with the single tag [__proto__]
    is stored and read back with that tag, and [getStatistics] then
    counts no tag at all; an entry added with the tag [constructor] is
    ranked with a text in place of its count. *)
Theorem getStatistics_miscounts_prototype_keys :
  (∃ e w1 s,
     @addEntry Examples.browser SpecValidation.validation Examples.proto_fields
       1704067200000 (RandomUUID Examples.uuid) Examples.empty_world = (Return e, w1)
     ∧ @getEntries Examples.browser SpecValidation.validation w1 = (Return [e], w1)
     ∧ tags e = ["__proto__"]
     ∧ length (remove_dups (all_tags [e])) = 1%nat
     ∧ @getStatistics Examples.browser SpecValidation.validation w1 = (Return s, w1)
     ∧ totalEntries s = 1%nat ∧ totalTags s = 0%nat ∧ mostUsedTags s = [])
  ∧ (∃ e w1 s,
       @addEntry Examples.browser SpecValidation.validation Examples.constructor_fields
         1704067200000 (RandomUUID Examples.uuid) Examples.empty_world = (Return e, w1)
       ∧ tags e = ["constructor"]
       ∧ @getStatistics Examples.browser SpecValidation.validation w1 = (Return s, w1)
       ∧ totalTags s = 1%nat ∧ mostUsedTags s = [("constructor", CText)]).
Proof.
  split.
  - eexists _, _, _.
    split; [vm_compute; reflexivity|]. split; [vm_compute; reflexivity|].
    split; [reflexivity|]. split; [vm_compute; reflexivity|].
    split; [vm_compute; reflexivity|]. repeat split.
  - eexists _, _, _.
    split; [vm_compute; reflexivity|]. split; [reflexivity|].
    split; [vm_compute; reflexivity|]. split; reflexivity.
Qed.

(** * More of the code *)

(** ** [SecureStorage] as a store of its own keys *)

Section SecureStorageFacts.
Context `{Platform}.

Lemma full_key_inj k k' : STORAGE_KEY_PREFIX +:+ k = STORAGE_KEY_PREFIX +:+ k' → k = k'.
Proof. cbv [String.append STORAGE_KEY_PREFIX]. congruence. Qed.

Lemma startsWith_full_key k : startsWith (STORAGE_KEY_PREFIX +:+ k) STORAGE_KEY_PREFIX = true.
Proof. destruct k; reflexivity. Qed.

(** [SecureStorage.setItem] on a valid key. *)
Lemma setItem_valid_key key val w :
  valid_key key = true →
  SecureStorage_setItem key val w =
  if (QUOTA_BYTES <? Z.of_nat (String.length val))%Z
  then (Throw (Error "Storage quota exceeded"), w)
  else if storage_full (localStorage w) (STORAGE_KEY_PREFIX +:+ key) val
       then (Throw QuotaExceededError, w)
       else (Return tt, {| localStorage := <[STORAGE_KEY_PREFIX +:+ key := val]> (localStorage w);
                           console := console w |}).
Proof.
  intros Hkey. unfold SecureStorage_setItem, setItem_body, localStorage_setItem.
  rewrite Hkey. cbn [negb].
  destruct (QUOTA_BYTES <? Z.of_nat (String.length val))%Z; [reflexivity|].
  destruct (storage_full (localStorage w) (STORAGE_KEY_PREFIX +:+ key) val); reflexivity.
Qed.

Lemma setItem_invalid_key key val w :
  valid_key key = false →
  SecureStorage_setItem key val w = (Throw (Error "Invalid storage key"), w).
Proof.
  intros Hkey. unfold SecureStorage_setItem, setItem_body. rewrite Hkey. reflexivity.
Qed.

(** X1.  A value that [SecureStorage.setItem] accepts is what
    [SecureStorage.getItem] returns for the key afterwards; the other
    keys of [SecureStorage], the other keys of [localStorage] and the
    console are as before. *)
Theorem SecureStorage_setItem_getItem key val w :
  valid_key key = true →
  (Z.of_nat (String.length val) ≤ QUOTA_BYTES)%Z →
  storage_full (localStorage w) (STORAGE_KEY_PREFIX +:+ key) val = false →
  ∃ w', SecureStorage_setItem key val w = (Return tt, w')
        ∧ SecureStorage_getItem key w' = Some val
        ∧ (∀ key', key' ≠ key → SecureStorage_getItem key' w' = SecureStorage_getItem key' w)
        ∧ (∀ k, k ≠ STORAGE_KEY_PREFIX +:+ key → localStorage w' !! k = localStorage w !! k)
        ∧ console w' = console w.
Proof.
  intros Hkey Hsize Hroom. rewrite (setItem_valid_key key val w Hkey), Hroom.
  destruct (Z.ltb_spec QUOTA_BYTES (Z.of_nat (String.length val))); [lia|].
  eexists. split; [reflexivity|]. unfold SecureStorage_getItem. cbn [localStorage console].
  rewrite Hkey. cbn [negb]. split; [apply lookup_insert_eq|]. split; [|split; [|reflexivity]].
  - intros key' Hne. destruct (negb (valid_key key')); [reflexivity|].
    apply lookup_insert_ne. intros Heq. apply Hne. symmetry. exact (full_key_inj _ _ Heq).
  - intros k Hne. apply lookup_insert_ne. congruence.
Qed.

(** X2.  A key outside [[a-zA-Z0-9_-]+] reaches nothing: whatever
    [localStorage] holds, [getItem] answers [null], [removeItem] does
    nothing, and [setItem] throws the invalid-key error and writes
    nothing. *)
Theorem SecureStorage_rejects_invalid_key key val w :
  valid_key key = false →
  SecureStorage_getItem key w = None
  ∧ SecureStorage_removeItem key w = w
  ∧ SecureStorage_setItem key val w = (Throw (Error "Invalid storage key"), w).
Proof.
  intros Hkey. rewrite (setItem_invalid_key key val w Hkey).
  unfold SecureStorage_getItem, SecureStorage_removeItem. rewrite Hkey. repeat split.
Qed.

(** X3.  When [SecureStorage.setItem] throws, the world is as it was,
    and the error is one of three: the invalid-key error, the error of
    the 5 MiB guard, or the quota error that stands for the
    [DOMException] of [localStorage], which itself never escapes. *)
Theorem SecureStorage_setItem_throws key val w e w' :
  SecureStorage_setItem key val w = (Throw e, w') →
  w' = w
  ∧ (∀ name, e ≠ DOMException name)
  ∧ (e = Error "Invalid storage key" ∧ valid_key key = false
     ∨ e = Error "Storage quota exceeded" ∧ valid_key key = true
       ∧ (QUOTA_BYTES < Z.of_nat (String.length val))%Z
     ∨ e = QuotaExceededError ∧ valid_key key = true
       ∧ (Z.of_nat (String.length val) ≤ QUOTA_BYTES)%Z
       ∧ storage_full (localStorage w) (STORAGE_KEY_PREFIX +:+ key) val = true).
Proof.
  destruct (valid_key key) eqn:Hkey.
  - rewrite (setItem_valid_key key val w Hkey).
    destruct (Z.ltb_spec QUOTA_BYTES (Z.of_nat (String.length val))) as [Hbig|Hfits].
    + intros [= <- <-]. split; [reflexivity|]. split; [discriminate|]. right. left. auto.
    + destruct (storage_full _ _ _) eqn:Hfull; [|discriminate].
      intros [= <- <-]. split; [reflexivity|]. split; [discriminate|]. right. right. auto.
  - rewrite (setItem_invalid_key key val w Hkey).
    intros [= <- <-]. split; [reflexivity|]. split; [discriminate|]. left. auto.
Qed.

(** X4.  After [SecureStorage.removeItem] the key reads as [null]; the
    other keys of [SecureStorage], the other keys of [localStorage] and
    the console are as before. *)
Theorem SecureStorage_removeItem_getItem key w :
  SecureStorage_getItem key (SecureStorage_removeItem key w) = None
  ∧ (∀ key', key' ≠ key →
       SecureStorage_getItem key' (SecureStorage_removeItem key w)
       = SecureStorage_getItem key' w)
  ∧ (∀ k, k ≠ STORAGE_KEY_PREFIX +:+ key →
       localStorage (SecureStorage_removeItem key w) !! k = localStorage w !! k)
  ∧ console (SecureStorage_removeItem key w) = console w.
Proof.
  unfold SecureStorage_getItem, SecureStorage_removeItem.
  destruct (valid_key key) eqn:Hkey; cbn [negb].
  - cbn [negb localStorage console].
    split; [apply lookup_delete_eq|]. split; [|split; [|reflexivity]].
    + intros key' Hne. destruct (negb (valid_key key')); [reflexivity|].
      apply lookup_delete_ne. intros Heq. apply Hne. symmetry. exact (full_key_inj _ _ Heq).
    + intros k Hne. apply lookup_delete_ne. congruence.
  - repeat split.
Qed.

Lemma clear_fold ks w k :
  let w' := foldl (fun w' key =>
                     if startsWith key STORAGE_KEY_PREFIX
                     then localStorage_removeItem key w' else w') w ks in
  localStorage w' !! k
  = (if startsWith k STORAGE_KEY_PREFIX && bool_decide (k ∈ ks)
     then None else localStorage w !! k)
  ∧ console w' = console w.
Proof.
  revert w. induction ks as [|a ks IH]; intros w; cbn [foldl].
  - rewrite andb_false_r. split; reflexivity.
  - destruct (IH (if startsWith a STORAGE_KEY_PREFIX
                  then localStorage_removeItem a w else w)) as [Hl Hc].
    cbv zeta. rewrite Hl, Hc. clear IH Hl Hc.
    destruct (decide (k = a)) as [->|Hne].
    + rewrite (bool_decide_eq_true_2 (a ∈ a :: ks)) by apply list_elem_of_here.
      destruct (startsWith a STORAGE_KEY_PREFIX); cbn [andb localStorage_removeItem localStorage console].
      * split; [|reflexivity]. destruct (bool_decide (a ∈ ks)); [reflexivity|].
        apply lookup_delete_eq.
      * split; reflexivity.
    + assert (bool_decide (k ∈ a :: ks) = bool_decide (k ∈ ks)) as ->.
      { apply bool_decide_ext. rewrite elem_of_cons. tauto. }
      destruct (startsWith a STORAGE_KEY_PREFIX); cbn [localStorage_removeItem localStorage console].
      * split; [|reflexivity]. rewrite lookup_delete_ne by congruence. reflexivity.
      * split; reflexivity.
Qed.

Lemma clear_lookup w k :
  localStorage (SecureStorage_clear w) !! k
  = if startsWith k STORAGE_KEY_PREFIX then None else localStorage w !! k.
Proof.
  unfold SecureStorage_clear.
  rewrite (proj1 (clear_fold (Object_keys (localStorage w)) w k)).
  destruct (startsWith k STORAGE_KEY_PREFIX); [|reflexivity]. cbn [andb].
  destruct (bool_decide_reflect (k ∈ Object_keys (localStorage w))) as [|Hnot]; [reflexivity|].
  destruct (localStorage w !! k) as [v|] eqn:Hk; [|reflexivity].
  exfalso. apply Hnot. unfold Object_keys. apply list_elem_of_fmap.
  exists (k, v). split; [reflexivity|]. apply elem_of_map_to_list. exact Hk.
Qed.

Lemma World_eq w w' : localStorage w = localStorage w' → console w = console w' → w = w'.
Proof. destruct w, w'. cbn. intros -> ->. reflexivity. Qed.

(** X5.  [SecureStorage.clear] removes from [localStorage] the keys
    that start with the prefix and no other: afterwards every key of
    [SecureStorage] reads as [null], the keys of other applications hold
    what they held, nothing is logged, and clearing again changes
    nothing. *)
Theorem SecureStorage_clear_removes_prefixed w :
  (∀ k, localStorage (SecureStorage_clear w) !! k
        = if startsWith k STORAGE_KEY_PREFIX then None else localStorage w !! k)
  ∧ (∀ key, SecureStorage_getItem key (SecureStorage_clear w) = None)
  ∧ console (SecureStorage_clear w) = console w
  ∧ SecureStorage_clear (SecureStorage_clear w) = SecureStorage_clear w.
Proof.
  split; [apply clear_lookup|]. split; [|split].
  - intros key. unfold SecureStorage_getItem. destruct (negb (valid_key key)); [reflexivity|].
    rewrite clear_lookup, startsWith_full_key. reflexivity.
  - unfold SecureStorage_clear. apply (clear_fold _ w "").
  - apply World_eq.
    + apply map_eq. intros k. rewrite !clear_lookup.
      destruct (startsWith k STORAGE_KEY_PREFIX); reflexivity.
    + unfold SecureStorage_clear at 1. apply (clear_fold _ _ "").
Qed.

End SecureStorageFacts.

(** The theorem for the key [theme] on the store of two entries. *)
Lemma SecureStorage_setItem_getItem_witness :
  ∃ w', @SecureStorage_setItem Examples.browser "theme" "dark" Examples.two_world
        = (Return tt, w')
        ∧ SecureStorage_getItem "theme" w' = Some "dark"
        ∧ (∀ key', key' ≠ "theme" →
             SecureStorage_getItem key' w' = SecureStorage_getItem key' Examples.two_world)
        ∧ (∀ k, k ≠ STORAGE_KEY_PREFIX +:+ "theme" →
             localStorage w' !! k = localStorage Examples.two_world !! k)
        ∧ console w' = console Examples.two_world.
Proof.
  apply (@SecureStorage_setItem_getItem Examples.browser "theme" "dark" Examples.two_world).
  - reflexivity.
  - vm_compute. congruence.
  - vm_compute. reflexivity.
Defined.

(** The theorem for a key with a space, on a [localStorage] that holds
    a value under the prefixed key. *)
Lemma SecureStorage_rejects_invalid_key_witness :
  let w := {| localStorage := {[ "devlog_my key" := "kept" ]}; console := [] |} in
  SecureStorage_getItem "my key" w = None
  ∧ SecureStorage_removeItem "my key" w = w
  ∧ @SecureStorage_setItem Examples.browser "my key" "new" w
    = (Throw (Error "Invalid storage key"), w).
Proof.
  intros w. apply (@SecureStorage_rejects_invalid_key Examples.browser "my key" "new" w).
  reflexivity.
Defined.

(** The theorem in the browser whose [localStorage] is full. *)
Lemma SecureStorage_setItem_throws_witness :
  Examples.empty_world = Examples.empty_world
  ∧ (∀ name, QuotaExceededError ≠ DOMException name)
  ∧ (QuotaExceededError = Error "Invalid storage key" ∧ valid_key "entries" = false
     ∨ QuotaExceededError = Error "Storage quota exceeded" ∧ valid_key "entries" = true
       ∧ (QUOTA_BYTES < Z.of_nat (String.length "[]"))%Z
     ∨ QuotaExceededError = QuotaExceededError ∧ valid_key "entries" = true
       ∧ (Z.of_nat (String.length "[]") ≤ QUOTA_BYTES)%Z
       ∧ @storage_full Examples.full_browser (localStorage Examples.empty_world)
           (STORAGE_KEY_PREFIX +:+ "entries") "[]" = true).
Proof.
  apply (@SecureStorage_setItem_throws Examples.full_browser "entries" "[]"
           Examples.empty_world QuotaExceededError Examples.empty_world).
  vm_compute. reflexivity.
Defined.

Section ClearedStore.
Context `{Platform} `{Validation}.

(** X6.  After [SecureStorage.clear] the collection is empty:
    [getEntries] returns no entry, removes nothing and logs nothing, and
    the statistics count nothing. *)
Theorem getEntries_after_clear w :
  getEntries (SecureStorage_clear w) = (Return [], SecureStorage_clear w)
  ∧ getStatistics (SecureStorage_clear w)
    = (Return {| totalEntries := 0; totalTags := 0; totalCategories := 0;
                 mostUsedTags := []; mostUsedCategories := [] |},
       SecureStorage_clear w).
Proof.
  assert (getEntries (SecureStorage_clear w) = (Return [], SecureStorage_clear w)) as Hg.
  { unfold getEntries. rewrite load_entries_absent; [reflexivity|].
    rewrite clear_lookup. reflexivity. }
  split; [exact Hg|]. unfold getStatistics. rewrite Hg. reflexivity.
Qed.

End ClearedStore.

(** ** The rate limiter *)

Section RateLimiterFacts.

Lemma check_unfold key now r :
  RateLimiter_check key now r =
  let validAttempts := recent (windowMs r) now (default [] (attempts r !! key)) in
  if (maxAttempts r <=? Z.of_nat (length validAttempts))%Z then (false, r)
  else (true, {| attempts := <[key := validAttempts ++ [now]]> (attempts r);
                 maxAttempts := maxAttempts r; windowMs := windowMs r |}).
Proof. reflexivity. Qed.

Lemma check_bounds key now r :
  maxAttempts (RateLimiter_check key now r).2 = maxAttempts r
  ∧ windowMs (RateLimiter_check key now r).2 = windowMs r.
Proof.
  rewrite check_unfold. cbv zeta.
  destruct (maxAttempts r <=? _)%Z; split; reflexivity.
Qed.

Lemma recent_app window now l1 l2 :
  recent window now (l1 ++ l2) = recent window now l1 ++ recent window now l2.
Proof. apply filter_app. Qed.

(** At a later time, the attempts that were recent before are the only
    ones that can still be recent. *)
Lemma recent_recent window now now' l :
  (now ≤ now')%Z → recent window now' (recent window now l) = recent window now' l.
Proof.
  intros Hle. unfold recent. induction l as [|x l IH]; [reflexivity|].
  rewrite (filter_cons _ x l).
  destruct (decide (now - x < window)%Z) as [Hx|Hx].
  - rewrite !filter_cons. destruct (decide (now' - x < window)%Z); rewrite IH; reflexivity.
  - rewrite IH. rewrite filter_cons_False by lia. reflexivity.
Qed.

Lemma times_of_app key l1 l2 : times_of key (l1 ++ l2) = times_of key l1 ++ times_of key l2.
Proof. unfold times_of. rewrite filter_app, fmap_app. reflexivity. Qed.

Lemma in_window_app key window t l1 l2 :
  in_window key window t (l1 ++ l2) = in_window key window t l1 ++ in_window key window t l2.
Proof. apply filter_app. Qed.

(** The calls in a window that ends at or after [now] are among those
    that [check] finds recent at [now]. *)
Lemma in_window_recent key window t now calls :
  (now ≤ t)%Z →
  (length (in_window key window t calls)
   ≤ length (recent window now (times_of key calls)))%nat.
Proof.
  intros Hle. unfold in_window, recent, times_of.
  induction calls as [|[k x] calls IH]; [reflexivity|].
  rewrite (filter_cons (fun c => c.1 = key) (k, x) calls).
  rewrite (filter_cons _ (k, x) calls). cbn [fst snd].
  destruct (decide (k = key)) as [->|Hk].
  - rewrite fmap_cons. cbn [snd]. rewrite filter_cons.
    destruct (decide (key = key ∧ (t - x < window)%Z ∧ (x ≤ t)%Z)) as [(_ & Hx & _)|_].
    + rewrite decide_True by lia. cbn [length]. lia.
    + destruct (decide (now - x < window)%Z); cbn [length]; lia.
  - rewrite decide_False by tauto. exact IH.
Qed.

Lemma run_cons key now rest r :
  RateLimiter_run ((key, now) :: rest) r =
  let checked := RateLimiter_check key now r in
  let ran := RateLimiter_run rest checked.2 in
  (if checked.1 then (key, now) :: ran.1 else ran.1, ran.2).
Proof. reflexivity. Qed.

Lemma times_of_singleton key key' now :
  times_of key [(key', now)] = if decide (key' = key) then [now] else [].
Proof.
  unfold times_of. rewrite filter_cons, filter_nil. cbn [fst].
  destruct (decide (key' = key)); reflexivity.
Qed.

(** A limiter that remembers what it let through keeps every window
    within the bound, along a run on a clock that does not go back. *)
Lemma run_bounded calls : ∀ r granted last,
  remembers r granted last →
  Sorted Z.le (last :: calls.*2) →
  (∀ key t, (Z.of_nat (length (in_window key (windowMs r) t granted))
             ≤ Z.max 0 (maxAttempts r))%Z) →
  ∀ key t, (Z.of_nat (length (in_window key (windowMs r) t
                            (granted ++ (RateLimiter_run calls r).1)))
            ≤ Z.max 0 (maxAttempts r))%Z.
Proof.
  induction calls as [|[key0 now] rest IH]; intros r granted last [Hrec Hlast] Hsorted Hb key t.
  - cbn [RateLimiter_run fst]. rewrite app_nil_r. apply Hb.
  - apply Sorted_inv in Hsorted as [Hsorted Hhd]. rewrite fmap_cons in Hsorted, Hhd.
    cbn [snd] in Hsorted, Hhd. apply HdRel_inv in Hhd.
    pose proof (Hrec key0 now Hhd) as Hvalid.
    rewrite run_cons, check_unfold. cbv zeta.
    destruct (Z.leb_spec (maxAttempts r)
                (Z.of_nat (length (recent (windowMs r) now (default [] (attempts r !! key0))))))
      as [Hfull|Hroom]; cbn [fst snd].
    + apply (IH r granted now); [|exact Hsorted|exact Hb]. split.
      * intros key1 now' Hle. apply Hrec. lia.
      * eapply Forall_impl; [exact Hlast|]. cbv beta. intros c Hc. lia.
    + replace (granted ++ (key0, now) :: (RateLimiter_run rest _).1)
        with ((granted ++ [(key0, now)]) ++
              (RateLimiter_run rest
                 {| attempts := <[key0 := recent (windowMs r) now
                                            (default [] (attempts r !! key0)) ++ [now]]>
                                  (attempts r);
                    maxAttempts := maxAttempts r; windowMs := windowMs r |}).1)
        by (rewrite <- app_assoc; reflexivity).
      apply (IH {| attempts := <[key0 := recent (windowMs r) now
                                           (default [] (attempts r !! key0)) ++ [now]]>
                                 (attempts r);
                   maxAttempts := maxAttempts r; windowMs := windowMs r |}
                (granted ++ [(key0, now)]) now); [|exact Hsorted|].
      * split.
        -- intros key1 now' Hle. cbn [attempts windowMs].
           rewrite times_of_app, (recent_app _ _ (times_of key1 granted)), times_of_singleton.
           destruct (decide (key0 = key1)) as [<-|Hne].
           ++ rewrite lookup_insert_eq. cbn [from_option Datatypes.id]. rewrite recent_app. f_equal.
              rewrite recent_recent by exact Hle. apply Hrec. lia.
           ++ rewrite lookup_insert_ne by exact Hne. unfold recent at 3.
              rewrite filter_nil, app_nil_r. apply Hrec. lia.
        -- apply Forall_app. split.
           ++ eapply Forall_impl; [exact Hlast|]. cbv beta. intros c Hc. lia.
           ++ constructor; [cbn; lia | constructor].
      * cbn [windowMs maxAttempts]. intros k t'. rewrite in_window_app, length_app.
        unfold in_window at 2. rewrite filter_cons, filter_nil. cbn [fst snd].
        destruct (decide (key0 = k ∧ (t' - now < windowMs r)%Z ∧ (now ≤ t')%Z))
          as [(<- & Hin & Hle)|_].
        -- pose proof (in_window_recent key0 (windowMs r) t' now granted Hle) as Hlen.
           rewrite <- Hvalid in Hlen. cbn [length]. lia.
        -- cbn [length]. rewrite Nat.add_0_r. apply Hb.
Qed.

(** X7.  On a clock that does not go back, a new limiter lets through
    at most [maxAttempts] calls for a key in any window of [windowMs]
    milliseconds. *)
Theorem RateLimiter_window_bound (maxAttempts windowMs : Z) (calls : list (string * Z))
    (key : string) (t : Z) :
  Sorted Z.le calls.*2 →
  (Z.of_nat (length (in_window key windowMs t
                       (RateLimiter_run calls (RateLimiter_new maxAttempts windowMs)).1))
   ≤ Z.max 0 maxAttempts)%Z.
Proof.
  intros Hsorted. destruct calls as [|[key0 now] rest]; [cbn; lia|].
  apply (run_bounded ((key0, now) :: rest) (RateLimiter_new maxAttempts windowMs) [] now).
  - split; [|constructor]. intros key1 now' _. cbn [RateLimiter_new attempts].
    rewrite lookup_empty. reflexivity.
  - constructor; [exact Hsorted|]. constructor. cbn. lia.
  - intros k t'. cbn. lia.
Qed.

(** X8.  The limiter never holds more than [maxAttempts] times for a
    key, and no empty list: this holds of a new limiter and is kept by
    [check] and by [reset], whatever the clock reads. *)
Theorem RateLimiter_bounded_attempts :
  (∀ maxAttempts windowMs, bounded_attempts (RateLimiter_new maxAttempts windowMs))
  ∧ (∀ key now r, bounded_attempts r → bounded_attempts (RateLimiter_check key now r).2)
  ∧ (∀ key r, bounded_attempts r → bounded_attempts (RateLimiter_reset key r)).
Proof.
  split; [|split].
  - intros maxA W key times. cbn. rewrite lookup_empty. discriminate.
  - intros key now r Hb. rewrite check_unfold. cbv zeta.
    destruct (Z.leb_spec (maxAttempts r)
                (Z.of_nat (length (recent (windowMs r) now (default [] (attempts r !! key))))))
      as [Hfull|Hroom]; cbn [snd]; [exact Hb|].
    intros key' times. cbn [attempts maxAttempts].
    destruct (decide (key = key')) as [<-|Hne].
    + rewrite lookup_insert_eq. intros [= <-]. rewrite length_app. cbn [length]. lia.
    + rewrite lookup_insert_ne by exact Hne. apply Hb.
  - intros key r Hb key' times. cbn [RateLimiter_reset attempts maxAttempts].
    intros Hk. apply lookup_delete_Some in Hk as [_ Hk]. exact (Hb key' times Hk).
Qed.

(** X9.  A call that [check] turns down leaves the limiter as it was,
    and a call for one key, let through or not, changes nothing for any
    other key: neither its attempts nor the answer to its next call. *)
Theorem RateLimiter_check_frame key now r :
  ((RateLimiter_check key now r).1 = false → (RateLimiter_check key now r).2 = r)
  ∧ (∀ key', key' ≠ key →
       attempts (RateLimiter_check key now r).2 !! key' = attempts r !! key')
  ∧ (∀ key' now', key' ≠ key →
       (RateLimiter_check key' now' (RateLimiter_check key now r).2).1
       = (RateLimiter_check key' now' r).1).
Proof.
  assert (∀ key', key' ≠ key →
            attempts (RateLimiter_check key now r).2 !! key' = attempts r !! key') as Hframe.
  { intros key' Hne. rewrite check_unfold. cbv zeta.
    destruct (maxAttempts r <=? _)%Z; cbn [snd attempts]; [reflexivity|].
    apply lookup_insert_ne. congruence. }
  split; [|split; [exact Hframe|]].
  - rewrite check_unfold. cbv zeta. destruct (maxAttempts r <=? _)%Z; [reflexivity|discriminate].
  - intros key' now' Hne. rewrite !(check_unfold key' now'). cbv zeta.
    destruct (check_bounds key now r) as [-> ->]. rewrite (Hframe key' Hne).
    destruct (maxAttempts r <=? _)%Z; reflexivity.
Qed.

(** A key without an attempt younger than the window is let through
    exactly when the limiter lets anything through. *)
Lemma check_no_recent key now r :
  recent (windowMs r) now (default [] (attempts r !! key)) = [] →
  (RateLimiter_check key now r).1 = bool_decide (0 < maxAttempts r)%Z.
Proof.
  intros Hnone. rewrite check_unfold. cbv zeta. rewrite Hnone. cbn [length].
  destruct (Z.leb_spec (maxAttempts r) (Z.of_nat 0)) as [Hle|Hlt]; cbn [fst].
  - rewrite bool_decide_eq_false_2 by lia. reflexivity.
  - rewrite bool_decide_eq_true_2 by lia. reflexivity.
Qed.

(** X10.  [check] lets a call through exactly when fewer than
    [maxAttempts] of the attempts held for the key are younger than the
    window.  So a key that is unknown, that was [reset], or whose
    attempts are all [windowMs] old or older is let through when
    [maxAttempts] is at least 1, and a limiter whose [maxAttempts] is
    below 1 lets nothing through; [reset] touches no other key. *)
Theorem RateLimiter_check_grants key now r :
  (RateLimiter_check key now r).1
  = bool_decide (Z.of_nat (length (recent (windowMs r) now (default [] (attempts r !! key))))
                 < maxAttempts r)%Z
  ∧ (attempts r !! key = None →
     (RateLimiter_check key now r).1 = bool_decide (0 < maxAttempts r)%Z)
  ∧ (RateLimiter_check key now (RateLimiter_reset key r)).1 = bool_decide (0 < maxAttempts r)%Z
  ∧ (Forall (fun time => (windowMs r ≤ now - time)%Z) (default [] (attempts r !! key)) →
     (RateLimiter_check key now r).1 = bool_decide (0 < maxAttempts r)%Z)
  ∧ ((maxAttempts r < 1)%Z → (RateLimiter_check key now r).1 = false)
  ∧ (∀ key', key' ≠ key → attempts (RateLimiter_reset key r) !! key' = attempts r !! key').
Proof.
  split; [|split; [|split; [|split; [|split]]]].
  - rewrite check_unfold. cbv zeta.
    destruct (Z.leb_spec (maxAttempts r)
                (Z.of_nat (length (recent (windowMs r) now (default [] (attempts r !! key))))));
      cbn [fst].
    + rewrite bool_decide_eq_false_2 by lia. reflexivity.
    + rewrite bool_decide_eq_true_2 by lia. reflexivity.
  - intros Hk. apply check_no_recent. rewrite Hk. reflexivity.
  - apply (check_no_recent key now (RateLimiter_reset key r)).
    cbn [RateLimiter_reset attempts]. rewrite lookup_delete_eq. reflexivity.
  - intros Hold. apply check_no_recent. unfold recent.
    induction Hold as [|x l Hx _ IH]; [reflexivity|].
    rewrite filter_cons_False by lia. exact IH.
  - intros Hmax. rewrite check_unfold. cbv zeta.
    destruct (Z.leb_spec (maxAttempts r)
                (Z.of_nat (length (recent (windowMs r) now (default [] (attempts r !! key))))));
      [reflexivity | lia].
  - intros key' Hne. cbn [RateLimiter_reset attempts]. apply lookup_delete_ne. congruence.
Qed.

End RateLimiterFacts.

(** The theorem for a limiter of two attempts a second: of six calls
    for one key and one for another, those at 900, 999 and 1005 are
    turned down, and the window that ends at 1005 holds two. *)
Lemma RateLimiter_window_bound_witness :
  let calls := [("add", 0); ("add", 400); ("add", 900); ("search", 900);
                ("add", 999); ("add", 1000); ("add", 1005)]%Z in
  (RateLimiter_run calls (RateLimiter_new 2 1000)).1
  = [("add", 0); ("add", 400); ("search", 900); ("add", 1000)]%Z
  ∧ (Z.of_nat (length (in_window "add" 1000 1005
                         (RateLimiter_run calls (RateLimiter_new 2 1000)).1))
     ≤ Z.max 0 2)%Z.
Proof.
  intros calls. split; [vm_compute; reflexivity|].
  apply (RateLimiter_window_bound 2 1000 calls "add" 1005).
  repeat constructor; cbn; lia.
Defined.

(** ** Identifiers *)

Lemma byte_of_hex_byte b :
  default Byte.x00
    (Byte.of_N (16 * hex_value (hex_digit (Byte.to_N b / 16))
                + hex_value (hex_digit (Byte.to_N b mod 16))))
  = b.
Proof. destruct b; reflexivity. Qed.

Lemma generateSecureId_cons b random :
  generateSecureId (b :: random)
  = String (hex_digit (Byte.to_N b / 16))
      (String (hex_digit (Byte.to_N b mod 16)) (generateSecureId random)).
Proof.
  unfold generateSecureId. cbn [map]. rewrite concat_empty_cons. reflexivity.
Qed.

Lemma bytes_of_generateSecureId random : bytes_of_hex (generateSecureId random) = random.
Proof.
  induction random as [|b random IH]; [reflexivity|].
  rewrite generateSecureId_cons. cbn [bytes_of_hex]. rewrite byte_of_hex_byte, IH. reflexivity.
Qed.

(** X11.  [generateSecureId] writes two lowercase hexadecimal digits
    for each byte, in order, so that the bytes can be read back from the
    identifier: different random bytes give different identifiers, and
    16 bytes give an identifier in the 32 digit format. *)
Theorem generateSecureId_faithful :
  (∀ random, bytes_of_hex (generateSecureId random) = random)
  ∧ (∀ random random', generateSecureId random = generateSecureId random' → random = random')
  ∧ (∀ random, String.length (generateSecureId random) = (2 * length random)%nat
               ∧ forallb is_lower_hex (list_ascii_of_string (generateSecureId random)) = true)
  ∧ (∀ random, length random = 16%nat → is_hex32 (generateSecureId random) = true).
Proof.
  split; [exact bytes_of_generateSecureId|]. split; [|split].
  - intros random random' Heq.
    rewrite <- (bytes_of_generateSecureId random), <- (bytes_of_generateSecureId random').
    rewrite Heq. reflexivity.
  - intros random. destruct (generateSecureId_chars random) as [Hc Hl]. split; assumption.
  - intros random Hlen. destruct (generateSecureId_chars random) as [Hc Hl].
    unfold is_hex32. rewrite Hc, Hl, Hlen. reflexivity.
Qed.

(** ** Effects and failures of the storage operations *)

Section StorageEffects.
Context `{Platform} `{Validation}.

Lemma collection_getEntries w r w1 : getEntries w = (r, w1) → collection w1 = collection w.
Proof.
  intros Hg. destruct (getEntries_cases w) as [(es & _ & Hes)|(e & _ & Hes)];
    rewrite Hes in Hg; injection Hg as <- <-.
  - reflexivity.
  - unfold collection. rewrite Hes.
    assert (getEntries w = (Return [], {| localStorage := delete entries_key (localStorage w);
              console := console w ++ [("Failed to load entries", None)] |})) as Hg by exact Hes.
    rewrite (getEntries_again w [] _ Hg). reflexivity.
Qed.

Lemma getEntries_frame w r w1 k :
  getEntries w = (r, w1) → k ≠ entries_key → localStorage w1 !! k = localStorage w !! k.
Proof.
  intros Hg Hk. destruct (getEntries_cases w) as [(es & _ & Hes)|(e & _ & Hes)];
    rewrite Hes in Hg; injection Hg as <- <-; [reflexivity|].
  cbn [localStorage]. apply lookup_delete_ne. congruence.
Qed.

Lemma getEntries_returns w : ∃ entries w1, getEntries w = (Return entries, w1).
Proof.
  destruct (getEntries_cases w) as [(es & _ & Hes)|(e & _ & Hes)]; rewrite Hes; eauto.
Qed.

(** X12.  Reading twice without a write in between yields the same
    entries, and the second read changes nothing. *)
Theorem getEntries_idempotent w :
  ∃ entries w1, getEntries w = (Return entries, w1)
                ∧ getEntries w1 = (Return entries, w1).
Proof.
  destruct (getEntries_cases w) as [(es & _ & Hes)|(e & _ & Hes)].
  - exists es, w. split; exact Hes.
  - eexists [], _. split; [exact Hes|]. exact (getEntries_again w [] _ Hes).
Qed.

(** X13.  A read touches no key of [localStorage] but its own, and it
    either changes nothing at all, or it found a non-empty text under its
    key, returns no entry, has removed that key, and has logged one line
    that tells nothing about the error. *)
Theorem getEntries_effects w entries w1 :
  getEntries w = (Return entries, w1) →
  (∀ k, k ≠ entries_key → localStorage w1 !! k = localStorage w !! k)
  ∧ (w1 = w
     ∨ entries = []
       ∧ (∃ stored, localStorage w !! entries_key = Some stored ∧ stored ≠ "")
       ∧ localStorage w1 = delete entries_key (localStorage w)
       ∧ console w1 = console w ++ [("Failed to load entries", None)]).
Proof.
  intros Hg. split; [intros k; apply (getEntries_frame w _ w1 k Hg)|].
  destruct (getEntries_cases w) as [(es & _ & Hes)|(e & Hload & Hes)];
    rewrite Hes in Hg; injection Hg as <- <-; [left; reflexivity|].
  right. split; [reflexivity|]. split; [|split; reflexivity].
  destruct (localStorage w !! entries_key) as [stored|] eqn:Hk.
  - exists stored. split; [reflexivity|]. intros ->.
    rewrite (load_entries_stored w "" Hk) in Hload. discriminate.
  - rewrite (load_entries_absent w Hk) in Hload. discriminate.
Qed.

(** X14.  [saveEntries] writes all or nothing: when it returns, the
    validated collection is stored under its key as one JSON text and
    nothing is logged; when it throws, [localStorage] is as it was and the
    error thrown is the one logged.  Either way no other key changes. *)
Theorem saveEntries_all_or_nothing entries w r w1 :
  saveEntries entries w = (r, w1) →
  (∀ k, k ≠ entries_key → localStorage w1 !! k = localStorage w !! k)
  ∧ match r with
    | Return _ =>
        ∃ objs, map_throwing validate_for_save entries = Return objs
                ∧ localStorage w1 !! entries_key = Some (JSON_stringify (VArr objs))
                ∧ console w1 = console w
    | Throw e =>
        localStorage w1 = localStorage w
        ∧ console w1 = console w ++ [("Failed to save entries:", Some e)]
    end.
Proof.
  unfold saveEntries. destruct (map_throwing validate_for_save entries) as [objs|e].
  - rewrite setItem_entries.
    destruct (QUOTA_BYTES <? _)%Z; [intros [= <- <-]; repeat split|].
    destruct (storage_full _ _ _); [intros [= <- <-]; repeat split|].
    intros [= <- <-]. cbn [localStorage console]. split.
    + intros k Hk. apply lookup_insert_ne. congruence.
    + exists objs. split; [reflexivity|]. split; [apply lookup_insert_eq | reflexivity].
  - intros [= <- <-]. repeat split.
Qed.

Lemma saveEntries_Throw entries w e w1 :
  saveEntries entries w = (Throw e, w1) → localStorage w1 = localStorage w.
Proof.
  unfold saveEntries. destruct (map_throwing validate_for_save entries) as [objs|e'].
  - rewrite setItem_entries.
    destruct (QUOTA_BYTES <? _)%Z; [intros [= <- <-]; reflexivity|].
    destruct (storage_full _ _ _); [intros [= <- <-]; reflexivity | discriminate].
  - intros [= <- <-]. reflexivity.
Qed.

(** What a mutation that read [w1] from [w] and then failed to save
    leaves behind. *)
Lemma failed_save_keeps w r w1 entries e w2 :
  getEntries w = (r, w1) → saveEntries entries w1 = (Throw e, w2) →
  collection w2 = collection w
  ∧ ∀ k, k ≠ entries_key → localStorage w2 !! k = localStorage w !! k.
Proof.
  intros Hg Hs. pose proof (saveEntries_Throw _ _ _ _ Hs) as Heq. split.
  - rewrite (collection_store w2 w1 Heq). exact (collection_getEntries w r w1 Hg).
  - intros k Hk. rewrite Heq. exact (getEntries_frame w r w1 k Hg Hk).
Qed.

(** X15.  An operation that throws has not changed the collection:
    whatever makes [addEntry], [updateEntry] or [deleteEntry] fail
    (validation, the cap, a missing entry, the identifier, the size
    guard, the quota), the entries read afterwards are the entries read
    before, and no other key of [localStorage] has changed. *)
Theorem failed_mutation_keeps_collection :
  (∀ entry now c w e w2,
     addEntry entry now c w = (Throw e, w2) →
     collection w2 = collection w
     ∧ ∀ k, k ≠ entries_key → localStorage w2 !! k = localStorage w !! k)
  ∧ (∀ i updates w e w2,
       updateEntry i updates w = (Throw e, w2) →
       collection w2 = collection w
       ∧ ∀ k, k ≠ entries_key → localStorage w2 !! k = localStorage w !! k)
  ∧ (∀ i w e w2,
       deleteEntry i w = (Throw e, w2) →
       collection w2 = collection w
       ∧ ∀ k, k ≠ entries_key → localStorage w2 !! k = localStorage w !! k).
Proof.
  assert (∀ w r w1, getEntries w = (r, w1) →
            collection w1 = collection w
            ∧ ∀ k, k ≠ entries_key → localStorage w1 !! k = localStorage w !! k) as Hread.
  { intros w r w1 Hg. split; [exact (collection_getEntries w r w1 Hg)|].
    intros k. exact (getEntries_frame w r w1 k Hg). }
  split; [|split].
  - intros entry now c w e w2. unfold addEntry.
    destruct (validateAndSanitizeText (f_message entry)); [|intros [= <- <-]; auto].
    destruct (validateTags (map VStr (f_tags entry))); [|intros [= <- <-]; auto].
    destruct (validate_optional_category (f_category entry)); [|intros [= <- <-]; auto].
    destruct (getEntries w) as [[entries|e0] w1] eqn:Hg; [|intros [= <- <-]; eauto].
    destruct (MAX_ENTRIES <=? Z.of_nat (length entries))%Z; [intros [= <- <-]; eauto|].
    destruct (new_id c) as [i|e0]; [|intros [= <- <-]; eauto].
    destruct (saveEntries _ w1) as [[u|e0] w'] eqn:Hs; [discriminate|].
    intros [= <- <-]. exact (failed_save_keeps w _ w1 _ e0 w' Hg Hs).
  - intros i updates w e w2. unfold updateEntry.
    destruct (validateEntryId i) as [validatedId|]; [|intros [= <- <-]; auto].
    destruct (getEntries w) as [[entries|e0] w1] eqn:Hg; [|intros [= <- <-]; eauto].
    destruct (findIndex validatedId entries) as [index|]; [|intros [= <- <-]; eauto].
    destruct (validate_updates updates) as [v|e0]; [|intros [= <- <-]; eauto].
    intros Hs. exact (failed_save_keeps w _ w1 _ e w2 Hg Hs).
  - intros i w e w2. unfold deleteEntry.
    destruct (validateEntryId i) as [validatedId|]; [|intros [= <- <-]; auto].
    destruct (getEntries w) as [[entries|e0] w1] eqn:Hg; [|intros [= <- <-]; eauto].
    intros Hs. exact (failed_save_keeps w _ w1 _ e w2 Hg Hs).
Qed.

End StorageEffects.

(** ** How the operations compose *)

Section Composition.
Context `{Platform} `{Validation}.

(** X16.  Input that fails validation is turned away at the door:
    [addEntry] with an invalid message, tag list or category, and
    [updateEntry] and [deleteEntry] with an invalid id, throw the
    validator's error without reading, writing or logging; [updateEntry]
    with an invalid field for an entry that exists throws the
    validator's error after the read and saves nothing. *)
Theorem invalid_input_is_rejected :
  (∀ entry now c w e,
     validateAndSanitizeText (f_message entry) = Throw e
     ∨ (∃ m, validateAndSanitizeText (f_message entry) = Return m
             ∧ validateTags (map VStr (f_tags entry)) = Throw e)
     ∨ (∃ m t, validateAndSanitizeText (f_message entry) = Return m
               ∧ validateTags (map VStr (f_tags entry)) = Return t
               ∧ validate_optional_category (f_category entry) = Throw e) →
     addEntry entry now c w = (Throw e, w))
  ∧ (∀ i updates w e,
       validateEntryId i = Throw e →
       updateEntry i updates w = (Throw e, w) ∧ deleteEntry i w = (Throw e, w))
  ∧ (∀ i updates w validatedId entries w1 index e,
       validateEntryId i = Return validatedId →
       getEntries w = (Return entries, w1) →
       findIndex validatedId entries = Some index →
       validate_updates updates = Throw e →
       updateEntry i updates w = (Throw e, w1)).
Proof.
  split; [|split].
  - intros entry now c w e [Hm|[(m & Hm & Ht)|(m & t & Hm & Ht & Hc)]]; unfold addEntry.
    + rewrite Hm. reflexivity.
    + rewrite Hm, Ht. reflexivity.
    + rewrite Hm, Ht, Hc. reflexivity.
  - intros i updates w e Hi. unfold updateEntry, deleteEntry. rewrite Hi. split; reflexivity.
  - intros i updates w validatedId entries w1 index e Hi Hg Hidx Hv.
    rewrite (updateEntry_validated i updates w validatedId entries w1 Hi Hg), Hidx, Hv.
    reflexivity.
Qed.

(** X17.  A successful [updateEntry] sets each field that the update
    holds to what its validator returns for it: that is the message, the
    tags and the category of the entry read back.  The validators are
    taken to be idempotent; JSON reads back the text written, and the
    write is accepted. *)
Theorem updateEntry_sets_fields i updates w validatedId entries w1 index validatedUpdates :
  validateEntryId i = Return validatedId →
  getEntries w = (Return entries, w1) →
  findIndex validatedId entries = Some index →
  validate_updates updates = Return validatedUpdates →
  idempotent_validation →
  json_faithful (alter (fun e => merge_updates e validatedUpdates) index entries) →
  writable w1 (alter (fun e => merge_updates e validatedUpdates) index entries) →
  ∃ w2 entries' new,
    updateEntry i updates w = (Return tt, w2)
    ∧ getEntries w2 = (Return entries', w2)
    ∧ entries' !! index = Some new
    ∧ id new = validatedId
    ∧ (∀ raw, u_message updates = Some raw →
              validateAndSanitizeText raw = Return (message new))
    ∧ (∀ raw, u_tags updates = Some raw →
              validateTags (map VStr raw) = Return (tags new))
    ∧ (∀ raw, u_category updates = Some raw →
              validate_optional_category (Some raw) = Return (category new)).
Proof.
  intros Hi Hg Hidx Hv Hidem Hjson Hw.
  pose proof (alter_merge_stable entries index updates validatedUpdates Hidem
                (getEntries_stable w entries w1 Hidem Hg) Hv) as Hst.
  rewrite (updateEntry_validated i updates w validatedId entries w1 Hi Hg), Hidx, Hv.
  destruct (save_then_read _ w1 Hst Hjson Hw) as (w2 & Hsave & _ & Hread).
  destruct (findIndex_Some validatedId entries index Hidx) as (old & Hold & Hid & _).
  exists w2, (alter (fun e => merge_updates e validatedUpdates) index entries),
    (merge_updates old validatedUpdates).
  split; [exact Hsave|]. split; [exact Hread|].
  split; [rewrite list_lookup_alter_eq, Hold; reflexivity|].
  split; [exact Hid|].
  unfold validate_updates in Hv. unfold merge_updates. cbn [message tags category].
  destruct (u_message updates) as [um|];
    [destruct (validateAndSanitizeText um) as [m'|] eqn:Hum|];
    cbn [obind] in Hv; try discriminate;
    (destruct (u_tags updates) as [ut|];
     [destruct (validateTags (map VStr ut)) as [t'|] eqn:Hut|];
     cbn [obind] in Hv; try discriminate);
    (destruct (u_category updates) as [uc|];
     [destruct (validate_optional_category (Some uc)) as [c'|] eqn:Huc|];
     cbn [obind] in Hv; try discriminate);
    injection Hv as <-; cbn [v_message v_tags v_category from_option];
    (split; [|split]); intros raw Hraw; try discriminate;
    injection Hraw as <-; assumption.
Qed.

Lemma filter_id_all (validatedId : string) (entries : list LogEntry) :
  Forall (fun e => id e ≠ validatedId) entries →
  filter (fun e => id e ≠ validatedId) entries = entries.
Proof.
  induction 1 as [|e l He _ IH]; [reflexivity|].
  rewrite filter_cons_True by exact He. rewrite IH. reflexivity.
Qed.

(** X18.  Deleting the entry that [addEntry] has just returned undoes
    the addition: the collection read back is the former one, given that
    no former entry has the new identifier (an entry that has it is
    deleted as well).  The validators are taken to be idempotent; JSON
    reads back the texts written, and both writes are accepted. *)
Theorem addEntry_then_deleteEntry entry now c w m t cat entries w1 i :
  validateAndSanitizeText (f_message entry) = Return m →
  validateTags (map VStr (f_tags entry)) = Return t →
  validate_optional_category (f_category entry) = Return cat →
  getEntries w = (Return entries, w1) →
  (Z.of_nat (length entries) < MAX_ENTRIES)%Z →
  new_id c = Return i →
  idempotent_validation →
  validateEntryId i = Return i →
  validateTimestamp (VDate (TimeValue now)) = Return (TimeValue now) →
  json_faithful (entries ++ [mkLogEntry i m t cat (TimeValue now)]) →
  writable w1 (entries ++ [mkLogEntry i m t cat (TimeValue now)]) →
  json_faithful (filter (fun e => id e ≠ i) entries) →
  writable {| localStorage :=
                <[entries_key := serialized (entries ++ [mkLogEntry i m t cat (TimeValue now)])]>
                  (localStorage w1);
              console := console w1 |}
           (filter (fun e => id e ≠ i) entries) →
  ∃ e w2 w3,
    addEntry entry now c w = (Return e, w2)
    ∧ deleteEntry (id e) w2 = (Return tt, w3)
    ∧ getEntries w3 = (Return (filter (fun e' => id e' ≠ id e) entries), w3)
    ∧ (Forall (fun e' => id e' ≠ id e) entries → getEntries w3 = (Return entries, w3)).
Proof.
  intros Hm Ht Hc Hg Hlen Hi Hidem Hid Hnow Hjson Hw Hjson' Hw'.
  pose proof (added_stable _ _ _ _ _ _ _ _ _ Hidem Hm Ht Hc Hg Hid Hnow) as Hst.
  rewrite (addEntry_validated entry now c w m t cat entries w1 Hm Ht Hc Hg).
  destruct (Z.leb_spec MAX_ENTRIES (Z.of_nat (length entries))); [lia|].
  rewrite Hi. cbv zeta. rewrite (saveEntries_stable _ w1 Hst Hw).
  set (w2 := {| localStorage :=
                  <[entries_key := serialized (entries ++ [mkLogEntry i m t cat (TimeValue now)])]>
                    (localStorage w1);
                console := console w1 |}) in *.
  assert (getEntries w2 = (Return (entries ++ [mkLogEntry i m t cat (TimeValue now)]), w2))
    as Hread.
  { apply (getEntries_serialized _ w2 Hst Hjson). apply lookup_insert_eq. }
  exists (mkLogEntry i m t cat (TimeValue now)), w2.
  cbn [id]. rewrite (deleteEntry_validated i w2 i _ w2 Hid Hread).
  assert (filter (fun e' => id e' ≠ i) (entries ++ [mkLogEntry i m t cat (TimeValue now)])
          = filter (fun e' => id e' ≠ i) entries) as ->.
  { rewrite filter_app, filter_cons_False, filter_nil, app_nil_r; [reflexivity|].
    cbn [id]. intros Hne. apply Hne. reflexivity. }
  apply Forall_app in Hst as [Hst _].
  destruct (save_then_read _ _ (filter_stable (fun e' => id e' ≠ i) entries Hst) Hjson' Hw')
    as (w3 & Hsave & _ & Hread3).
  exists w3. split; [reflexivity|]. split; [exact Hsave|]. split; [exact Hread3|].
  intros Hfresh. rewrite Hread3, (filter_id_all i entries Hfresh). reflexivity.
Qed.

(** X19.  Deleting twice is deleting once: the second [deleteEntry]
    with the same id succeeds and leaves the world, and so the
    collection, as the first left it.  The validators are taken to be
    idempotent; JSON reads back the text written, and both writes are
    accepted. *)
Theorem deleteEntry_twice i w validatedId entries w1 :
  validateEntryId i = Return validatedId →
  getEntries w = (Return entries, w1) →
  idempotent_validation →
  json_faithful (filter (fun e => id e ≠ validatedId) entries) →
  writable w1 (filter (fun e => id e ≠ validatedId) entries) →
  writable {| localStorage :=
                <[entries_key := serialized (filter (fun e => id e ≠ validatedId) entries)]>
                  (localStorage w1);
              console := console w1 |}
           (filter (fun e => id e ≠ validatedId) entries) →
  ∃ w2,
    deleteEntry i w = (Return tt, w2)
    ∧ deleteEntry i w2 = (Return tt, w2)
    ∧ getEntries w2 = (Return (filter (fun e => id e ≠ validatedId) entries), w2).
Proof.
  intros Hi Hg Hidem Hjson Hw Hw'.
  pose proof (filter_stable (fun e => id e ≠ validatedId) entries
                (getEntries_stable w entries w1 Hidem Hg)) as Hst.
  rewrite (deleteEntry_validated i w validatedId entries w1 Hi Hg).
  rewrite (saveEntries_stable _ w1 Hst Hw).
  set (w2 := {| localStorage :=
                  <[entries_key := serialized (filter (fun e => id e ≠ validatedId) entries)]>
                    (localStorage w1);
                console := console w1 |}) in *.
  assert (getEntries w2 = (Return (filter (fun e => id e ≠ validatedId) entries), w2))
    as Hread.
  { apply (getEntries_serialized _ w2 Hst Hjson). apply lookup_insert_eq. }
  exists w2. split; [reflexivity|]. split; [|exact Hread].
  rewrite (deleteEntry_validated i w2 validatedId _ w2 Hi Hread).
  rewrite list_filter_filter_l by auto.
  rewrite (saveEntries_stable _ w2 Hst Hw'). unfold w2. cbn [localStorage console].
  rewrite insert_insert_eq. reflexivity.
Qed.

(** X20.  Whenever [addEntry] returns, it has read fewer than 10,000
    entries and has saved them followed by the entry it returns, so that
    no collection it writes has more than 10,000; the entry carries the
    validated fields, the current time, and an identifier that comes
    from [crypto]: without [crypto], [addEntry] does not return. *)
Theorem addEntry_returns entry now c w e w2 :
  addEntry entry now c w = (Return e, w2) →
  ∃ entries w1,
    getEntries w = (Return entries, w1)
    ∧ (Z.of_nat (length entries) < MAX_ENTRIES)%Z
    ∧ saveEntries (entries ++ [e]) w1 = (Return tt, w2)
    ∧ (Z.of_nat (length (entries ++ [e])) ≤ MAX_ENTRIES)%Z
    ∧ validateAndSanitizeText (f_message entry) = Return (message e)
    ∧ validateTags (map VStr (f_tags entry)) = Return (tags e)
    ∧ validate_optional_category (f_category entry) = Return (category e)
    ∧ timestamp e = TimeValue now
    ∧ new_id c = Return (id e)
    ∧ c ≠ NoCrypto.
Proof.
  unfold addEntry.
  destruct (validateAndSanitizeText (f_message entry)) as [m|]; [|discriminate].
  destruct (validateTags (map VStr (f_tags entry))) as [t|]; [|discriminate].
  destruct (validate_optional_category (f_category entry)) as [cat|]; [|discriminate].
  destruct (getEntries w) as [[entries|] w1]; [|discriminate].
  destruct (Z.leb_spec MAX_ENTRIES (Z.of_nat (length entries))) as [|Hlen]; [discriminate|].
  destruct (new_id c) as [i|] eqn:Hi; [|discriminate].
  destruct (saveEntries _ w1) as [[[]|] w'] eqn:Hsave; [|discriminate].
  intros [= <- <-]. exists entries, w1. cbn [id message tags category timestamp].
  rewrite length_app. cbn [length].
  repeat split; try assumption; try reflexivity; try lia.
  intros ->. discriminate Hi.
Qed.

End Composition.

(** The theorem at a store whose text is not JSON. *)
Lemma getEntries_effects_witness :
  let w := Examples.world_with "oops" in
  let w1 := (@getEntries Examples.browser SpecValidation.validation w).2 in
  (∀ k, k ≠ entries_key → localStorage w1 !! k = localStorage w !! k)
  ∧ (w1 = w
     ∨ ([] : list LogEntry) = []
       ∧ (∃ stored, localStorage w !! entries_key = Some stored ∧ stored ≠ "")
       ∧ localStorage w1 = delete entries_key (localStorage w)
       ∧ console w1 = console w ++ [("Failed to load entries", None)]).
Proof.
  intros w w1.
  apply (@getEntries_effects Examples.browser SpecValidation.validation w [] w1).
  vm_compute. reflexivity.
Defined.

(** The theorem for the sample entry saved to the empty store, in the
    browser with room and in the browser without. *)
Lemma saveEntries_all_or_nothing_witness :
  let w1 := (@saveEntries Examples.browser SpecValidation.validation
               [Examples.sample_entry] Examples.empty_world).2 in
  let w2 := (@saveEntries Examples.full_browser SpecValidation.validation
               [Examples.sample_entry] Examples.empty_world).2 in
  ((∀ k, k ≠ entries_key → localStorage w1 !! k = localStorage Examples.empty_world !! k)
   ∧ ∃ objs, map_throwing (@validate_for_save Examples.browser SpecValidation.validation)
               [Examples.sample_entry] = Return objs
             ∧ localStorage w1 !! entries_key
               = Some (@JSON_stringify Examples.browser (VArr objs))
             ∧ console w1 = console Examples.empty_world)
  ∧ ((∀ k, k ≠ entries_key → localStorage w2 !! k = localStorage Examples.empty_world !! k)
     ∧ localStorage w2 = localStorage Examples.empty_world
     ∧ console w2 = console Examples.empty_world
                    ++ [("Failed to save entries:", Some QuotaExceededError)]).
Proof.
  intros w1 w2. split.
  - apply (@saveEntries_all_or_nothing Examples.browser SpecValidation.validation
             [Examples.sample_entry] Examples.empty_world (Return tt) w1).
    vm_compute. reflexivity.
  - apply (@saveEntries_all_or_nothing Examples.full_browser SpecValidation.validation
             [Examples.sample_entry] Examples.empty_world (Throw QuotaExceededError) w2).
    vm_compute. reflexivity.
Defined.

(** The theorem at the store of two entries, for an update of the
    message of the first. *)
Lemma updateEntry_sets_fields_witness :
  ∃ w2 entries' new,
    @updateEntry Examples.browser SpecValidation.validation Examples.uuid
      Examples.sample_updates Examples.two_world = (Return tt, w2)
    ∧ @getEntries Examples.browser SpecValidation.validation w2 = (Return entries', w2)
    ∧ entries' !! 0 = Some new
    ∧ id new = Examples.uuid
    ∧ (∀ raw, u_message Examples.sample_updates = Some raw →
              SpecValidation.validateAndSanitizeText raw = Return (message new))
    ∧ (∀ raw, u_tags Examples.sample_updates = Some raw →
              SpecValidation.validateTags (map VStr raw) = Return (tags new))
    ∧ (∀ raw, u_category Examples.sample_updates = Some raw →
              @validate_optional_category SpecValidation.validation (Some raw)
              = Return (category new)).
Proof.
  apply (@updateEntry_sets_fields Examples.browser SpecValidation.validation Examples.uuid
           Examples.sample_updates Examples.two_world Examples.uuid Examples.two_entries
           Examples.two_world 0
           {| v_message := Some "new itext/i"; v_tags := None; v_category := None |}
           eq_refl getEntries_two_world eq_refl eq_refl).
  - apply spec_validation_idempotent.
  - faithful_entries.
  - writable_entries.
Defined.

(** The theorem at the store of two entries: a third is added and
    deleted again. *)
Lemma addEntry_then_deleteEntry_witness :
  ∃ e w2 w3,
    @addEntry Examples.browser SpecValidation.validation Examples.markup_fields
      1704067200123 (RandomUUID Examples.other_uuid) Examples.two_world = (Return e, w2)
    ∧ @deleteEntry Examples.browser SpecValidation.validation (id e) w2 = (Return tt, w3)
    ∧ @getEntries Examples.browser SpecValidation.validation w3
      = (Return (filter (fun e' => id e' ≠ id e) Examples.two_entries), w3)
    ∧ (Forall (fun e' => id e' ≠ id e) Examples.two_entries →
       @getEntries Examples.browser SpecValidation.validation w3
       = (Return Examples.two_entries, w3)).
Proof.
  apply (@addEntry_then_deleteEntry Examples.browser SpecValidation.validation
           Examples.markup_fields 1704067200123%Z (RandomUUID Examples.other_uuid)
           Examples.two_world "Fix bbug/b" ["react"; "typescript"] (Some "work")
           Examples.two_entries Examples.two_world Examples.other_uuid
           eq_refl eq_refl eq_refl getEntries_two_world).
  - cbn. unfold MAX_ENTRIES. lia.
  - reflexivity.
  - apply spec_validation_idempotent.
  - reflexivity.
  - reflexivity.
  - faithful_entries.
  - writable_entries.
  - faithful_entries.
  - writable_entries.
Defined.

(** The theorem at the store of two entries, for the id of the
    first. *)
Lemma deleteEntry_twice_witness :
  ∃ w2,
    @deleteEntry Examples.browser SpecValidation.validation Examples.uuid Examples.two_world
    = (Return tt, w2)
    ∧ @deleteEntry Examples.browser SpecValidation.validation Examples.uuid w2
      = (Return tt, w2)
    ∧ @getEntries Examples.browser SpecValidation.validation w2
      = (Return (filter (fun e => id e ≠ Examples.uuid) Examples.two_entries), w2).
Proof.
  apply (@deleteEntry_twice Examples.browser SpecValidation.validation Examples.uuid
           Examples.two_world Examples.uuid Examples.two_entries Examples.two_world
           eq_refl getEntries_two_world).
  - apply spec_validation_idempotent.
  - faithful_entries.
  - writable_entries.
  - writable_entries.
Defined.

(** The theorem for the sample fields added to the empty store, with
    an identifier made of 16 random bytes. *)
Lemma addEntry_returns_witness :
  let c := GetRandomValues (repeat Byte.x0a 16) in
  let added := @addEntry Examples.browser SpecValidation.validation Examples.sample_fields
                 1704067200000 c Examples.empty_world in
  let e := {| id := "0a0a0a0a0a0a0a0a0a0a0a0a0a0a0a0a"; message := "x"; tags := [];
              category := None; timestamp := TimeValue 1704067200000 |} in
  ∃ entries w1,
    @getEntries Examples.browser SpecValidation.validation Examples.empty_world
    = (Return entries, w1)
    ∧ (Z.of_nat (length entries) < MAX_ENTRIES)%Z
    ∧ @saveEntries Examples.browser SpecValidation.validation (entries ++ [e]) w1
      = (Return tt, added.2)
    ∧ (Z.of_nat (length (entries ++ [e])) ≤ MAX_ENTRIES)%Z
    ∧ SpecValidation.validateAndSanitizeText (f_message Examples.sample_fields)
      = Return (message e)
    ∧ SpecValidation.validateTags (map VStr (f_tags Examples.sample_fields))
      = Return (tags e)
    ∧ @validate_optional_category SpecValidation.validation
        (f_category Examples.sample_fields) = Return (category e)
    ∧ timestamp e = TimeValue 1704067200000
    ∧ new_id c = Return (id e)
    ∧ c ≠ NoCrypto.
Proof.
  intros c added e.
  apply (@addEntry_returns Examples.browser SpecValidation.validation Examples.sample_fields
           1704067200000%Z c Examples.empty_world e added.2).
  vm_compute. reflexivity.
Defined.

(** ** Statistics of any collection *)

Section CounterBounds.

(** The keys of a counter after a [bump]: as before, or with the new
    key at the end. *)
Lemma keys_bump cs k :
  (bump cs k).*1 = cs.*1 ∨ ((k ∉ cs.*1) ∧ (bump cs k).*1 = cs.*1 ++ [k]).
Proof.
  unfold bump. destruct (assoc k cs) as [[n|]|] eqn:Ha.
  - left. rewrite keys_set_own, Ha. reflexivity.
  - left. rewrite keys_set_own, Ha. reflexivity.
  - apply assoc_None in Ha. destruct (k =? "__proto__"); [left; reflexivity|].
    right. split; [exact Ha|].
    destruct (inherited k); rewrite keys_set_own;
      destruct (assoc k cs) eqn:Ha'; try reflexivity;
      apply assoc_None in Ha; congruence.
Qed.

Lemma foldl_bump_keys ks : ∀ cs l,
  NoDup cs.*1 → (∀ k, k ∈ cs.*1 → k ∈ l) →
  NoDup (foldl bump cs ks).*1 ∧ (∀ k, k ∈ (foldl bump cs ks).*1 → k ∈ l ++ ks).
Proof.
  induction ks as [|k ks IH]; intros cs l Hnd Hin; cbn [foldl].
  - rewrite app_nil_r. split; assumption.
  - replace (l ++ k :: ks) with ((l ++ [k]) ++ ks) by (rewrite <- app_assoc; reflexivity).
    apply IH.
    + destruct (keys_bump cs k) as [->|[Hk ->]]; [exact Hnd|].
      apply NoDup_app. split; [exact Hnd|]. split; [|apply NoDup_singleton].
      intros x Hx Hx'. apply list_elem_of_singleton in Hx' as ->. contradiction.
    + intros x. destruct (keys_bump cs k) as [->|[Hk ->]]; rewrite !elem_of_app.
      * intros Hx. left. apply Hin, Hx.
      * intros [Hx|Hx]; [left; apply Hin, Hx | right; exact Hx].
Qed.

(** A counter has at most as many keys as there are distinct keys
    counted, and its first ten entries in sorted order have distinct
    keys, all of them counted. *)
Lemma counter_bounds ks :
  let cs := foldl bump [] ks in
  let top := take 10 (Array_sort descending (Object_entries cs)) in
  (length cs ≤ length (remove_dups ks))%nat
  ∧ length top = Nat.min 10 (length cs)
  ∧ NoDup top.*1
  ∧ ∀ k, k ∈ top.*1 → k ∈ ks.
Proof.
  intros cs top.
  destruct (foldl_bump_keys ks [] [] (NoDup_nil_2) (fun k Hk => Hk)) as [Hnd Hin].
  fold cs in Hnd, Hin. cbn [app] in Hin.
  assert (Array_sort descending (Object_entries cs) ≡ₚ cs) as Hperm.
  { rewrite Array_sort_perm. apply Object_entries_perm. }
  split; [|split; [|split]].
  - rewrite <- (length_fmap fst cs). apply submseteq_length, NoDup_submseteq; [exact Hnd|].
    intros k Hk. apply elem_of_remove_dups, Hin, Hk.
  - unfold top. rewrite length_take, Hperm. reflexivity.
  - unfold top. rewrite fmap_take. eapply sublist_NoDup; [|apply sublist_take].
    rewrite Hperm. exact Hnd.
  - intros k Hk. apply Hin. unfold top in Hk. rewrite fmap_take in Hk.
    apply subseteq_take in Hk. rewrite Hperm in Hk. exact Hk.
Qed.

End CounterBounds.

Section StatisticsBounds.
Context `{Platform} `{Validation}.

(** X21.  [getStatistics] never throws, and for every collection,
    whatever its tags and categories are: the number of entries is
    exact, the numbers of tags and of categories do not exceed the
    numbers of distinct tags and categories, and each of the two rankings
    has ten pairs or as many as there are keys counted, with distinct
    keys that are tags (categories) of the collection. *)
Theorem getStatistics_bounds w :
  ∃ entries s w1,
    getEntries w = (Return entries, w1)
    ∧ getStatistics w = (Return s, w1)
    ∧ totalEntries s = length entries
    ∧ (totalTags s ≤ length (remove_dups (all_tags entries)))%nat
    ∧ (totalCategories s ≤ length (remove_dups (all_categories entries)))%nat
    ∧ length (mostUsedTags s) = Nat.min 10 (totalTags s)
    ∧ length (mostUsedCategories s) = Nat.min 10 (totalCategories s)
    ∧ NoDup (mostUsedTags s).*1
    ∧ NoDup (mostUsedCategories s).*1
    ∧ (∀ k, k ∈ (mostUsedTags s).*1 → k ∈ all_tags entries)
    ∧ (∀ k, k ∈ (mostUsedCategories s).*1 → k ∈ all_categories entries).
Proof.
  destruct (getEntries_returns w) as (entries & w1 & Hg).
  exists entries, (statistics_of entries), w1.
  split; [exact Hg|]. split; [apply getStatistics_statistics_of, Hg|].
  unfold statistics_of. rewrite foldl_count_entry.
  cbn [totalEntries totalTags totalCategories mostUsedTags mostUsedCategories fst snd].
  destruct (counter_bounds (all_tags entries)) as (Ht1 & Ht2 & Ht3 & Ht4).
  destruct (counter_bounds (all_categories entries)) as (Hc1 & Hc2 & Hc3 & Hc4).
  repeat split; assumption.
Qed.

End StatisticsBounds.

(** The theorem at a store that holds the three entries of the
    statistics example. *)
Lemma getStatistics_safe_keys_witness :
  let w := Examples.world_with (@serialized Examples.browser Examples.statistics_example) in
  ∃ s, @getStatistics Examples.browser SpecValidation.validation w = (Return s, w)
       ∧ totalEntries s = length Examples.statistics_example
       ∧ totalTags s = length (remove_dups (all_tags Examples.statistics_example))
       ∧ totalCategories s
         = length (remove_dups (all_categories Examples.statistics_example))
       ∧ ranking (all_tags Examples.statistics_example) (mostUsedTags s)
       ∧ ranking (all_categories Examples.statistics_example) (mostUsedCategories s).
Proof.
  intros w.
  apply (@getStatistics_safe_keys Examples.browser SpecValidation.validation w
           Examples.statistics_example w).
  - vm_compute. reflexivity.
  - repeat constructor.
  - repeat constructor.
Defined.

(** ** Ties in the rankings *)

Section Ties.

(** The stable sort keeps the order of the elements that a predicate
    selects, when any two of them compare as equal. *)
Lemma sort_insert_filter {A : Type} (cmp : A → A → Z) (P : A → Prop)
    `{∀ a, Decision (P a)} (x : A) (l : list A) :
  (∀ y, P x → P y → (cmp x y ≤ 0)%Z) →
  filter P (sort_insert cmp x l) = filter P (x :: l).
Proof.
  intros Hcmp. induction l as [|y l IH]; [reflexivity|]. cbn [sort_insert].
  destruct (Z.leb_spec (cmp x y) 0) as [Hle|Hgt]; [reflexivity|].
  rewrite (filter_cons P y (sort_insert cmp x l)), IH, (filter_cons P x (y :: l)),
    (filter_cons P y l), (filter_cons P x l).
  destruct (decide (P x)) as [Hx|Hx]; destruct (decide (P y)) as [Hy|Hy]; try reflexivity.
  specialize (Hcmp y Hx Hy). lia.
Qed.

Lemma Array_sort_filter {A : Type} (cmp : A → A → Z) (P : A → Prop)
    `{∀ a, Decision (P a)} (l : list A) :
  (∀ x y, P x → P y → (cmp x y ≤ 0)%Z) →
  filter P (Array_sort cmp l) = filter P l.
Proof.
  intros Hcmp. unfold Array_sort. induction l as [|x l IH]; [reflexivity|].
  cbn [foldr]. rewrite sort_insert_filter by (intros y; apply Hcmp).
  rewrite !filter_cons, IH. reflexivity.
Qed.

(** Without keys that are array indices, [Object.entries] lists the
    properties in insertion order. *)
Lemma Object_entries_plain {A : Type} (o : list (string * A)) :
  Forall (fun kv => array_index kv.1 = None) o → Object_entries o = o.
Proof.
  intros Hplain. unfold Object_entries.
  assert (omap (fun kv => (fun i => (i, kv)) <$> array_index kv.1) o = []) as ->.
  { induction Hplain as [|kv o Hkv _ IH]; [reflexivity|].
    cbn [omap list_omap]. rewrite Hkv. exact IH. }
  cbn [foldr map app].
  induction Hplain as [|kv o Hkv _ IH]; [reflexivity|].
  rewrite filter_cons_True by exact Hkv. rewrite IH. reflexivity.
Qed.

(** The keys of a counter are the keys counted, as first seen. *)
Lemma keys_bump_seen cs k :
  (k =? "__proto__") = false →
  (bump cs k).*1 = if decide (k ∈ cs.*1) then cs.*1 else cs.*1 ++ [k].
Proof.
  intros Hk. unfold bump. rewrite Hk.
  pose proof (assoc_None k cs) as Hnone.
  destruct (assoc k cs) as [[n|]|] eqn:Ha.
  - rewrite keys_set_own, Ha. rewrite decide_True; [reflexivity|].
    destruct (decide (k ∈ cs.*1)) as [|Hn]; [assumption|]. apply Hnone in Hn. discriminate.
  - rewrite keys_set_own, Ha. rewrite decide_True; [reflexivity|].
    destruct (decide (k ∈ cs.*1)) as [|Hn]; [assumption|]. apply Hnone in Hn. discriminate.
  - rewrite decide_False by (apply Hnone; reflexivity).
    destruct (inherited k); rewrite keys_set_own, Ha; reflexivity.
Qed.

Lemma foldl_bump_seen ks : ∀ cs,
  Forall (fun k => inherited k = false) ks →
  (foldl bump cs ks).*1
  = foldl (fun seen k => if decide (k ∈ seen) then seen else seen ++ [k]) cs.*1 ks.
Proof.
  induction ks as [|k ks IH]; intros cs Hsafe; [reflexivity|].
  apply Forall_cons in Hsafe as [Hk Hsafe]. cbn [foldl].
  rewrite (IH _ Hsafe), (keys_bump_seen cs k (inherited_proto k Hk)). reflexivity.
Qed.

Lemma filter_counts (occ : string → nat) (n : nat) (cs : list (string * count)) :
  Forall (fun a => a.2 = CNum (occ a.1)) cs →
  (filter (fun a => a.2 = CNum n) cs).*1 = filter (fun k => occ k = n) cs.*1.
Proof.
  induction 1 as [|[k c] cs Hc _ IH]; [reflexivity|]. cbn [fst snd] in Hc. subst c.
  rewrite fmap_cons, !filter_cons. cbn [fst snd].
  destruct (decide (occ k = n)) as [->|Hne].
  - rewrite decide_True by reflexivity. rewrite fmap_cons, IH. reflexivity.
  - rewrite decide_False by congruence. exact IH.
Qed.

(** The sorted entries of a counter: counts fall, and the keys of each
    count stand in the order in which they were first seen. *)
Lemma sorted_counter ks :
  Forall (fun k => inherited k = false ∧ array_index k = None) ks →
  let sorted := Array_sort descending (Object_entries (foldl bump [] ks)) in
  descending_counts sorted
  ∧ ∀ n, (filter (fun a => a.2 = CNum n) sorted).*1
         = filter (fun k => occurrences k ks = n) (first_seen ks).
Proof.
  intros Hks sorted.
  assert (Forall (fun k => inherited k = false) ks) as Hsafe.
  { eapply Forall_impl; [exact Hks|]. cbv beta. tauto. }
  pose proof (foldl_bump_counts ks [] [] Hsafe counts_nil) as Hc. cbn [app] in Hc.
  assert (Object_entries (foldl bump [] ks) = foldl bump [] ks) as Hentries.
  { apply Object_entries_plain. apply Forall_forall. intros [k c] Hkc.
    destruct (counts_elem_of ks _ k c Hc Hkc) as [Hk _].
    rewrite Forall_forall in Hks. apply (Hks k Hk). }
  subst sorted. rewrite Hentries. split.
  - unfold descending_counts.
    apply (Sorted_impl (before descending)); [|apply Array_sort_Sorted, descending_total].
    assert (∀ k c, (k, c) ∈ Array_sort descending (foldl bump [] ks) →
                   c = CNum (occurrences k ks)) as Hin.
    { intros k c Hk. apply (counts_elem_of ks _ k c Hc).
      rewrite <- (Array_sort_perm descending). exact Hk. }
    intros [ka ca] [kb cb] Ha Hb Hab. apply Hin in Ha as ->. apply Hin in Hb as ->.
    unfold before, descending in Hab. cbn in Hab. cbn. eexists _, _.
    split; [reflexivity|]. split; [reflexivity | lia].
  - intros n. rewrite Array_sort_filter.
    + rewrite (filter_counts (fun k => occurrences k ks)).
      * rewrite (foldl_bump_seen ks [] Hsafe). reflexivity.
      * apply Forall_forall. intros [k c] Hkc.
        destruct (counts_elem_of ks _ k c Hc Hkc) as [_ ->]. reflexivity.
    + intros x y Hx Hy. unfold descending. rewrite Hx, Hy. lia.
Qed.

(** X22.  How the rankings of [getStatistics] break ties.  For tags
    and categories that are neither names of [Object.prototype] nor
    array indices, [mostUsedTags] has at most ten pairs and is the first
    ten of the list of all pairs in which the counts fall and the tags
    of equal count stand in the order in which the collection first
    shows them; likewise [mostUsedCategories]. *)
Theorem statistics_ties_first_seen entries :
  Forall (fun k => inherited k = false ∧ array_index k = None) (all_tags entries) →
  Forall (fun k => inherited k = false ∧ array_index k = None) (all_categories entries) →
  ∃ more_tags more_categories,
    (length (mostUsedTags (statistics_of entries)) ≤ 10)%nat
    ∧ (length (mostUsedCategories (statistics_of entries)) ≤ 10)%nat
    ∧ mostUsedTags (statistics_of entries)
      = take 10 (mostUsedTags (statistics_of entries) ++ more_tags)
    ∧ mostUsedCategories (statistics_of entries)
      = take 10 (mostUsedCategories (statistics_of entries) ++ more_categories)
    ∧ descending_counts (mostUsedTags (statistics_of entries) ++ more_tags)
    ∧ (length (mostUsedTags (statistics_of entries)) < 10 → more_tags = [])%nat
    ∧ (∀ n, (filter (fun a => a.2 = CNum n)
               (mostUsedTags (statistics_of entries) ++ more_tags)).*1
            = filter (fun k => occurrences k (all_tags entries) = n)
                (first_seen (all_tags entries)))
    ∧ descending_counts (mostUsedCategories (statistics_of entries) ++ more_categories)
    ∧ (length (mostUsedCategories (statistics_of entries)) < 10 → more_categories = [])%nat
    ∧ (∀ n, (filter (fun a => a.2 = CNum n)
               (mostUsedCategories (statistics_of entries) ++ more_categories)).*1
            = filter (fun k => occurrences k (all_categories entries) = n)
                (first_seen (all_categories entries))).
Proof.
  intros Htags Hcats. unfold statistics_of. rewrite foldl_count_entry.
  cbn [mostUsedTags mostUsedCategories fst snd].
  destruct (sorted_counter _ Htags) as [Ht1 Ht2].
  destruct (sorted_counter _ Hcats) as [Hc1 Hc2].
  exists (drop 10 (Array_sort descending (Object_entries (foldl bump [] (all_tags entries))))),
    (drop 10 (Array_sort descending
                (Object_entries (foldl bump [] (all_categories entries))))).
  rewrite !take_drop.
  split; [rewrite length_take; lia|]. split; [rewrite length_take; lia|].
  split; [reflexivity|]. split; [reflexivity|].
  split; [exact Ht1|]. split; [|split; [exact Ht2|]].
  { rewrite length_take. intros Hlt. apply drop_ge. lia. }
  split; [exact Hc1|]. split; [|exact Hc2].
  rewrite length_take. intros Hlt. apply drop_ge. lia.
Qed.

End Ties.

(** The theorem at four entries whose tags tie: [b] and [a] occur
    twice and [b] is seen first; and at an entry with twelve tags, of
    which the ranking holds the first ten. *)
Lemma statistics_ties_first_seen_witness :
  (mostUsedTags (statistics_of Examples.tied_entries)
   = [("b", CNum 2); ("a", CNum 2); ("c", CNum 1)]
   ∧ ∃ more_tags more_categories,
         (length (mostUsedTags (statistics_of Examples.tied_entries)) ≤ 10)%nat
         ∧ (length (mostUsedCategories (statistics_of Examples.tied_entries)) ≤ 10)%nat
         ∧ mostUsedTags (statistics_of Examples.tied_entries)
           = take 10 (mostUsedTags (statistics_of Examples.tied_entries) ++ more_tags)
         ∧ mostUsedCategories (statistics_of Examples.tied_entries)
           = take 10 (mostUsedCategories (statistics_of Examples.tied_entries)
                      ++ more_categories)
         ∧ descending_counts (mostUsedTags (statistics_of Examples.tied_entries) ++ more_tags)
         ∧ (length (mostUsedTags (statistics_of Examples.tied_entries)) < 10
            → more_tags = [])%nat
         ∧ (∀ n, (filter (fun a => a.2 = CNum n)
                    (mostUsedTags (statistics_of Examples.tied_entries) ++ more_tags)).*1
                 = filter (fun k => occurrences k (all_tags Examples.tied_entries) = n)
                     (first_seen (all_tags Examples.tied_entries)))
         ∧ descending_counts
             (mostUsedCategories (statistics_of Examples.tied_entries) ++ more_categories)
         ∧ (length (mostUsedCategories (statistics_of Examples.tied_entries)) < 10
            → more_categories = [])%nat
         ∧ (∀ n, (filter (fun a => a.2 = CNum n)
                    (mostUsedCategories (statistics_of Examples.tied_entries)
                     ++ more_categories)).*1
                 = filter (fun k => occurrences k (all_categories Examples.tied_entries) = n)
                     (first_seen (all_categories Examples.tied_entries))))
  ∧ (mostUsedTags (statistics_of Examples.many_tags_entries)
     = [("a", CNum 1); ("b", CNum 1); ("c", CNum 1); ("d", CNum 1); ("e", CNum 1);
        ("f", CNum 1); ("g", CNum 1); ("h", CNum 1); ("i", CNum 1); ("j", CNum 1)]
     ∧ ∃ more_tags more_categories,
           (length (mostUsedTags (statistics_of Examples.many_tags_entries)) ≤ 10)%nat
           ∧ (length (mostUsedCategories (statistics_of Examples.many_tags_entries)) ≤ 10)%nat
           ∧ mostUsedTags (statistics_of Examples.many_tags_entries)
             = take 10 (mostUsedTags (statistics_of Examples.many_tags_entries) ++ more_tags)
           ∧ mostUsedCategories (statistics_of Examples.many_tags_entries)
             = take 10 (mostUsedCategories (statistics_of Examples.many_tags_entries)
                        ++ more_categories)
           ∧ descending_counts (mostUsedTags (statistics_of Examples.many_tags_entries) ++ more_tags)
           ∧ (length (mostUsedTags (statistics_of Examples.many_tags_entries)) < 10
              → more_tags = [])%nat
           ∧ (∀ n, (filter (fun a => a.2 = CNum n)
                      (mostUsedTags (statistics_of Examples.many_tags_entries) ++ more_tags)).*1
                   = filter (fun k => occurrences k (all_tags Examples.many_tags_entries) = n)
                       (first_seen (all_tags Examples.many_tags_entries)))
           ∧ descending_counts
               (mostUsedCategories (statistics_of Examples.many_tags_entries) ++ more_categories)
           ∧ (length (mostUsedCategories (statistics_of Examples.many_tags_entries)) < 10
              → more_categories = [])%nat
           ∧ (∀ n, (filter (fun a => a.2 = CNum n)
                      (mostUsedCategories (statistics_of Examples.many_tags_entries)
                       ++ more_categories)).*1
                   = filter (fun k => occurrences k (all_categories Examples.many_tags_entries) = n)
                       (first_seen (all_categories Examples.many_tags_entries)))).
Proof.
  split; (split; [vm_compute; reflexivity|]).
  - apply (statistics_ties_first_seen Examples.tied_entries).
    + repeat constructor.
    + repeat constructor.
  - apply (statistics_ties_first_seen Examples.many_tags_entries).
    + repeat constructor.
    + repeat constructor.
Defined.

(** ** The provider *)

Section LogContextFacts.
Context `{Platform} `{Validation}.

Lemma refreshEntries_shows s : shows_collection (refreshEntries s).2.
Proof.
  unfold refreshEntries, shows_collection.
  destruct (getEntries s.2) as [[entries|e] w1] eqn:Hg; cbn [fst snd].
  - unfold collection. rewrite (getEntries_again s.2 entries w1 Hg). reflexivity.
  - destruct (getEntries_returns s.2) as (es & w' & Hes). congruence.
Qed.

(** X24.  The provider of [LogContext] shows the stored collection:
    once mounted, and after every [addEntry], [deleteEntry] and
    [updateEntry] through it, whether the operation returns or throws,
    the entries it holds are the entries that [getEntries] reads; an
    operation that throws leaves the entries it holds as they are. *)
Theorem LogProvider_shows_collection :
  (∀ w, (LogProvider w).1 = Return tt ∧ shows_collection (LogProvider w).2)
  ∧ (∀ entry now c s,
       shows_collection s →
       shows_collection (LogProvider_addEntry entry now c s).2
       ∧ ∀ e, (LogProvider_addEntry entry now c s).1 = Throw e →
              (LogProvider_addEntry entry now c s).2.1 = s.1)
  ∧ (∀ i s,
       shows_collection s →
       shows_collection (LogProvider_deleteEntry i s).2
       ∧ ∀ e, (LogProvider_deleteEntry i s).1 = Throw e →
              (LogProvider_deleteEntry i s).2.1 = s.1)
  ∧ (∀ i updates s,
       shows_collection s →
       shows_collection (LogProvider_updateEntry i updates s).2
       ∧ ∀ e, (LogProvider_updateEntry i updates s).1 = Throw e →
              (LogProvider_updateEntry i updates s).2.1 = s.1).
Proof.
  assert (∀ s, (refreshEntries s).1 = Return tt) as Hrefresh.
  { intros s. unfold refreshEntries.
    destruct (getEntries_returns s.2) as (es & w' & ->). reflexivity. }
  assert (∀ (s : ProviderState) w1, collection w1 = collection s.2 →
            shows_collection s → shows_collection (s.1, w1)) as Hkeep.
  { intros s w1 Heq Hs. unfold shows_collection in *. cbn [fst snd]. congruence. }
  assert (∀ w r w1 entries e w2,
            getEntries w = (r, w1) → saveEntries entries w1 = (Throw e, w2) →
            collection w2 = collection w) as Hsave.
  { intros w r w1 entries e w2 Hg Hs. exact (proj1 (failed_save_keeps w r w1 entries e w2 Hg Hs)). }
  split; [|split; [|split]].
  - intros w. split; [apply Hrefresh | apply refreshEntries_shows].
  - intros entry now c s Hs. unfold LogProvider_addEntry.
    destruct (addEntry entry now c s.2) as [[e0|e0] w2] eqn:Ha.
    + split; [apply refreshEntries_shows|]. intros e He. rewrite Hrefresh in He. discriminate.
    + cbn [fst snd]. split; [|reflexivity]. apply Hkeep; [|exact Hs]. revert Ha. unfold addEntry.
      destruct (validateAndSanitizeText (f_message entry)); [|intros [= <- <-]; reflexivity].
      destruct (validateTags (map VStr (f_tags entry))); [|intros [= <- <-]; reflexivity].
      destruct (validate_optional_category (f_category entry));
        [|intros [= <- <-]; reflexivity].
      destruct (getEntries s.2) as [[entries|e1] w1] eqn:Hg;
        [|intros [= <- <-]; exact (collection_getEntries _ _ _ Hg)].
      destruct (MAX_ENTRIES <=? Z.of_nat (length entries))%Z;
        [intros [= <- <-]; exact (collection_getEntries _ _ _ Hg)|].
      destruct (new_id c) as [i|e1]; [|intros [= <- <-]; exact (collection_getEntries _ _ _ Hg)].
      destruct (saveEntries _ w1) as [[u|e1] w'] eqn:Hsv; [discriminate|].
      intros [= <- <-]. exact (Hsave _ _ _ _ _ _ Hg Hsv).
  - intros i s Hs. unfold LogProvider_deleteEntry.
    destruct (deleteEntry i s.2) as [[u|e0] w2] eqn:Hd.
    + split; [apply refreshEntries_shows|]. intros e He. rewrite Hrefresh in He. discriminate.
    + cbn [fst snd]. split; [|reflexivity]. apply Hkeep; [|exact Hs]. revert Hd. unfold deleteEntry.
      destruct (validateEntryId i) as [validatedId|]; [|intros [= <- <-]; reflexivity].
      destruct (getEntries s.2) as [[entries|e1] w1] eqn:Hg;
        [|intros [= <- <-]; exact (collection_getEntries _ _ _ Hg)].
      intros Hsv. exact (Hsave _ _ _ _ _ _ Hg Hsv).
  - intros i updates s Hs. unfold LogProvider_updateEntry.
    destruct (updateEntry i updates s.2) as [[u|e0] w2] eqn:Hu.
    + split; [apply refreshEntries_shows|]. intros e He. rewrite Hrefresh in He. discriminate.
    + cbn [fst snd]. split; [|reflexivity]. apply Hkeep; [|exact Hs]. revert Hu. unfold updateEntry.
      destruct (validateEntryId i) as [validatedId|]; [|intros [= <- <-]; reflexivity].
      destruct (getEntries s.2) as [[entries|e1] w1] eqn:Hg;
        [|intros [= <- <-]; exact (collection_getEntries _ _ _ Hg)].
      destruct (findIndex validatedId entries);
        [|intros [= <- <-]; exact (collection_getEntries _ _ _ Hg)].
      destruct (validate_updates updates);
        [|intros [= <- <-]; exact (collection_getEntries _ _ _ Hg)].
      intros Hsv. exact (Hsave _ _ _ _ _ _ Hg Hsv).
Qed.

End LogContextFacts.

(** ** The home page *)

Section FirstSeen.

Lemma first_seen_snoc l k :
  first_seen (l ++ [k])
  = if decide (k ∈ first_seen l) then first_seen l else first_seen l ++ [k].
Proof. unfold first_seen. rewrite foldl_app. reflexivity. Qed.

Lemma first_seen_spec l : NoDup (first_seen l) ∧ ∀ k, k ∈ first_seen l ↔ k ∈ l.
Proof.
  induction l as [|x l [Hnd Hin]] using rev_ind.
  - split; [constructor | reflexivity].
  - rewrite first_seen_snoc. destruct (decide (x ∈ first_seen l)) as [Hx|Hx].
    + split; [exact Hnd|]. intros k. rewrite elem_of_app, list_elem_of_singleton, <- Hin.
      split; [auto|]. intros [Hk| ->]; assumption.
    + split.
      * apply NoDup_app. split; [exact Hnd|]. split; [|apply NoDup_singleton].
        intros k Hk Hk'. apply list_elem_of_singleton in Hk' as ->. contradiction.
      * intros k. rewrite !elem_of_app, Hin. reflexivity.
Qed.

End FirstSeen.

Section Grouping.
Context {A : Type}.

(** Reading and setting a key of an object that holds [f k] under each
    key [k] of [ks]. *)
Lemma assoc_keyed (f : string → A) (ks : list string) (k : string) :
  assoc k (map (fun k' => (k', f k')) ks) = if decide (k ∈ ks) then Some (f k) else None.
Proof.
  induction ks as [|k0 ks IH]; [reflexivity|]. cbn [map assoc].
  destruct (String.eqb_spec k0 k) as [->|Hne].
  - rewrite decide_True by apply list_elem_of_here. reflexivity.
  - rewrite IH. destruct (decide (k ∈ ks)) as [Hin|Hin].
    + rewrite decide_True by (apply list_elem_of_further, Hin). reflexivity.
    + rewrite decide_False; [reflexivity|]. rewrite elem_of_cons. intros [?|?]; congruence.
Qed.

Lemma set_own_new (f : string → A) (ks : list string) (k : string) (a : A) :
  k ∉ ks →
  set_own k a (map (fun k' => (k', f k')) ks) = map (fun k' => (k', f k')) ks ++ [(k, a)].
Proof.
  induction ks as [|k0 ks IH]; intros Hk; [reflexivity|]. cbn [map set_own app].
  apply not_elem_of_cons in Hk as [Hne Hk].
  destruct (String.eqb_spec k0 k) as [->|_]; [contradiction|]. rewrite (IH Hk). reflexivity.
Qed.

Lemma set_own_known (f : string → A) (ks : list string) (k : string) (a : A) :
  NoDup ks → k ∈ ks →
  set_own k a (map (fun k' => (k', f k')) ks)
  = map (fun k' => (k', if decide (k' = k) then a else f k')) ks.
Proof.
  induction ks as [|k0 ks IH]; intros Hnd Hk; [apply elem_of_nil in Hk; contradiction|].
  apply NoDup_cons in Hnd as [Hk0 Hnd]. cbn [map set_own].
  destruct (String.eqb_spec k0 k) as [->|Hne].
  - rewrite decide_True by reflexivity. f_equal.
    apply map_ext_in. intros k' Hk'. apply list_elem_of_In in Hk'.
    rewrite decide_False; [reflexivity|]. intros ->. contradiction.
  - rewrite decide_False by exact Hne. f_equal. apply IH; [exact Hnd|].
    apply elem_of_cons in Hk as [->|Hk]; [contradiction | exact Hk].
Qed.

End Grouping.

Section HomeFacts.
Variable format : Date → outcome string.
Variable key : LogEntry → string.

Lemma filter_key_absent (k : string) (l : list LogEntry) :
  k ∉ map key l → filter (fun e => key e = k) l = [].
Proof.
  induction l as [|e l IH]; [reflexivity|]. cbn [map]. intros Hk.
  apply not_elem_of_cons in Hk as [Hne Hk].
  rewrite filter_cons_False by congruence. exact (IH Hk).
Qed.

Lemma grouped_snoc l e :
  grouped key (l ++ [e])
  = if decide (key e ∈ first_seen (map key l))
    then map (fun k => (k, if decide (k = key e)
                           then filter (fun e' => key e' = key e) l ++ [e]
                           else filter (fun e' => key e' = k) l))
             (first_seen (map key l))
    else grouped key l ++ [(key e, [e])].
Proof.
  unfold grouped. rewrite map_app. cbn [map]. rewrite first_seen_snoc.
  destruct (first_seen_spec (map key l)) as [_ Hin].
  destruct (decide (key e ∈ first_seen (map key l))) as [Hk|Hk].
  - apply map_ext. intros k. f_equal. rewrite filter_app, filter_cons, filter_nil.
    destruct (decide (k = key e)) as [->|Hne].
    + rewrite decide_True by reflexivity. reflexivity.
    + rewrite decide_False by congruence. apply app_nil_r.
  - rewrite map_app. cbn [map]. f_equal.
    + apply map_ext_in. intros k Hk'. apply list_elem_of_In in Hk'. f_equal.
      rewrite filter_app, filter_cons_False, filter_nil; [apply app_nil_r|].
      intros Heq. apply Hk. rewrite Heq. exact Hk'.
    + rewrite filter_app, filter_cons_True, filter_nil by reflexivity.
      rewrite filter_key_absent; [reflexivity|]. rewrite <- Hin. exact Hk.
Qed.

(** One step of the reducer, for an entry that [format] gives a key
    that is not a name of [Object.prototype]. *)
Lemma group_entry_grouped l e :
  format (timestamp e) = Return (key e) → inherited (key e) = false →
  group_entry format (inr (grouped key l)) e = inr (grouped key (l ++ [e])).
Proof.
  intros Hf Hsafe. unfold group_entry. rewrite Hf, grouped_snoc. unfold grouped at 1.
  rewrite assoc_keyed. destruct (first_seen_spec (map key l)) as [Hnd _].
  destruct (decide (key e ∈ first_seen (map key l))) as [Hk|Hk].
  - unfold grouped. rewrite (set_own_known _ _ _ _ Hnd Hk). reflexivity.
  - rewrite Hsafe. unfold grouped. rewrite (set_own_new _ _ _ _ Hk). reflexivity.
Qed.

Lemma foldl_group_entry l : ∀ done,
  Forall (fun e => format (timestamp e) = Return (key e) ∧ inherited (key e) = false) l →
  foldl (group_entry format) (inr (grouped key done)) l = inr (grouped key (done ++ l)).
Proof.
  induction l as [|e l IH]; intros done Hl; cbn [foldl].
  - rewrite app_nil_r. reflexivity.
  - apply Forall_cons in Hl as [[Hf Hsafe] Hl].
    rewrite (group_entry_grouped done e Hf Hsafe), (IH _ Hl), <- app_assoc. reflexivity.
Qed.

Lemma concat_pick (g : string → list LogEntry) (e : LogEntry) (k0 : string) (ks : list string) :
  NoDup ks → k0 ∈ ks →
  concat (map (fun k => (if decide (k0 = k) then [e] else []) ++ g k) ks)
  ≡ₚ e :: concat (map g ks).
Proof.
  induction ks as [|k ks IH]; intros Hnd Hk; [apply elem_of_nil in Hk; contradiction|].
  apply NoDup_cons in Hnd as [Hfresh Hnd]. cbn [map concat].
  destruct (decide (k0 = k)) as [->|Hne].
  - cbn [app].
    assert (map (fun k' => (if decide (k = k') then [e] else []) ++ g k') ks = map g ks)
      as ->; [|reflexivity].
    apply map_ext_in. intros k' Hk'.
    apply list_elem_of_In in Hk'. rewrite decide_False; [reflexivity|].
    intros ->. contradiction.
  - cbn [app]. apply elem_of_cons in Hk as [->|Hk]; [contradiction|].
    rewrite (IH Hnd Hk). symmetry. apply Permutation_middle.
Qed.

Lemma concat_filters (l : list LogEntry) (ks : list string) :
  NoDup ks → (∀ e, e ∈ l → key e ∈ ks) →
  concat (map (fun k => filter (fun e => key e = k) l) ks) ≡ₚ l.
Proof.
  intros Hnd. induction l as [|e l IH]; intros Hks.
  - clear. induction ks as [|k ks IH]; [reflexivity | exact IH].
  - assert (map (fun k => filter (fun e' => key e' = k) (e :: l)) ks
            = map (fun k => (if decide (key e = k) then [e] else [])
                            ++ filter (fun e' => key e' = k) l) ks) as ->.
    { apply map_ext. intros k. rewrite filter_cons. destruct (decide (key e = k)); reflexivity. }
    rewrite concat_pick; [|exact Hnd|apply Hks, list_elem_of_here].
    constructor. apply IH. intros e' He'. apply Hks, list_elem_of_further, He'.
Qed.

(** Every entry is in one group. *)
Lemma concat_grouped l : concat (grouped key l).*2 ≡ₚ l.
Proof.
  unfold grouped.
  assert ((map (fun k => (k, filter (fun e => key e = k) l)) (first_seen (map key l))).*2
          = map (fun k => filter (fun e => key e = k) l) (first_seen (map key l))) as ->.
  { generalize (first_seen (map key l)). intros ks.
    induction ks as [|k ks IH]; [reflexivity|]. cbn [map]. rewrite fmap_cons, IH.
    reflexivity. }
  destruct (first_seen_spec (map key l)) as [Hnd Hin].
  apply concat_filters; [exact Hnd|]. intros e He. apply Hin.
  apply list_elem_of_In, in_map, list_elem_of_In, He.
Qed.

Lemma newest_first_total a b : (newest_first a b ≤ 0)%Z ∨ (newest_first b a ≤ 0)%Z.
Proof.
  unfold newest_first. destruct (timestamp a) as [|x], (timestamp b) as [|y]; lia.
Qed.

(** X25.  What the home page shows.  For entries with valid
    timestamps, each of which [format] gives a date key that is neither
    a name of [Object.prototype] nor an array index: the page lists the
    entries newest first, entries of the same time in the order of the
    collection; it groups them under their date keys, the keys in the
    order in which the sorted entries first show them, each group
    holding the sorted entries of its key in their order; and every
    entry is in one group. *)
Theorem Home_groups_by_date entries :
  Forall (fun e => timestamp e ≠ InvalidDate) entries →
  Forall (fun e => format (timestamp e) = Return (key e)
                   ∧ inherited (key e) = false ∧ array_index (key e) = None) entries →
  Home_groups format entries = inr (grouped key (sortedEntries entries))
  ∧ sortedEntries entries ≡ₚ entries
  ∧ Sorted (fun a b => ∃ x y, timestamp a = TimeValue x ∧ timestamp b = TimeValue y
                              ∧ (y ≤ x)%Z) (sortedEntries entries)
  ∧ (∀ d, filter (fun e => timestamp e = d) (sortedEntries entries)
          = filter (fun e => timestamp e = d) entries)
  ∧ concat (grouped key (sortedEntries entries)).*2 ≡ₚ entries.
Proof.
  intros Hvalid Hkeys.
  assert (sortedEntries entries ≡ₚ entries) as Hperm by apply Array_sort_perm.
  assert (Forall (fun e => format (timestamp e) = Return (key e) ∧ inherited (key e) = false)
            (sortedEntries entries)) as Hdated.
  { rewrite Hperm. eapply Forall_impl; [exact Hkeys|]. cbv beta. tauto. }
  split; [|split; [exact Hperm|split; [|split]]].
  - unfold Home_groups, entriesByDate.
    change (@inr HomeError (list (string * list LogEntry)) [])
      with (@inr HomeError _ (grouped key [])).
    rewrite (foldl_group_entry _ [] Hdated). cbn [app]. f_equal.
    apply Object_entries_plain. unfold grouped. apply Forall_forall.
    intros [k g] Hkg. apply list_elem_of_In, in_map_iff in Hkg as (k' & [= <- _] & Hk').
    apply list_elem_of_In, (proj2 (first_seen_spec _)), list_elem_of_In, in_map_iff in Hk'
      as (e & <- & He).
    apply list_elem_of_In in He. rewrite Hperm in He.
    rewrite Forall_forall in Hkeys. apply (Hkeys e He).
  - apply (Sorted_impl (before newest_first));
      [|apply Array_sort_Sorted, newest_first_total].
    intros a b Ha Hb Hab. rewrite Hperm in Ha, Hb. rewrite Forall_forall in Hvalid.
    pose proof (Hvalid a Ha) as Hta. pose proof (Hvalid b Hb) as Htb.
    unfold before, newest_first in Hab.
    destruct (timestamp a) as [|x]; [contradiction|].
    destruct (timestamp b) as [|y]; [contradiction|].
    exists x, y. repeat split. lia.
  - intros d. apply Array_sort_filter. intros x y Hx Hy.
    unfold newest_first. rewrite Hx, Hy. destruct d; lia.
  - rewrite concat_grouped. exact Hperm.
Qed.

(** X26.  One entry whose date [format] rejects makes the page
    throw: nothing is shown. *)
Theorem Home_groups_throws entries :
  Exists (fun e => ∃ err, format (timestamp e) = Throw err) entries →
  ∃ err, Home_groups format entries = inl err.
Proof.
  intros Hbad.
  assert (Exists (fun e => ∃ err, format (timestamp e) = Throw err) (sortedEntries entries))
    as Hsorted.
  { apply Exists_exists in Hbad as (e & He & Herr). apply Exists_exists. exists e.
    split; [|exact Herr]. unfold sortedEntries. rewrite Array_sort_perm. exact He. }
  unfold Home_groups, entriesByDate.
  assert (∀ l acc, Exists (fun e => ∃ err, format (timestamp e) = Throw err) l →
                   ∃ err, foldl (group_entry format) acc l = inl err) as Hfold.
  { assert (∀ l err, foldl (group_entry format) (inl err) l = inl err) as Hinl.
    { induction l as [|e l IH]; intros err; [reflexivity | apply IH]. }
    induction l as [|e l IH]; intros acc Hl; [inversion Hl|]. cbn [foldl].
    apply Exists_cons in Hl as [[err Herr]|Hl]; [|apply IH, Hl].
    destruct acc as [err0|groups]; cbn [group_entry].
    - rewrite Hinl. eauto.
    - rewrite Herr, Hinl. eauto. }
  destruct (Hfold _ (inr []) Hsorted) as [err ->]. eauto.
Qed.

End HomeFacts.

(** The theorem for three entries of two days, with the date in UTC as
    the key: the later day comes first, and on the earlier day the later
    entry. *)
Lemma Home_groups_by_date_witness :
  (∃ groups, Home_groups format_utc dated_entries = inr groups
             ∧ map (fun g => (g.1, map message g.2)) groups
               = [("2024-02-29", ["second"]); ("2024-01-01", ["third"; "first"])])
  ∧ Home_groups format_utc dated_entries = inr (grouped utc_key (sortedEntries dated_entries))
  ∧ sortedEntries dated_entries ≡ₚ dated_entries
  ∧ Sorted (fun a b => ∃ x y, timestamp a = TimeValue x ∧ timestamp b = TimeValue y
                              ∧ (y ≤ x)%Z) (sortedEntries dated_entries)
  ∧ (∀ d, filter (fun e => timestamp e = d) (sortedEntries dated_entries)
          = filter (fun e => timestamp e = d) dated_entries)
  ∧ concat (grouped utc_key (sortedEntries dated_entries)).*2 ≡ₚ dated_entries.
Proof.
  split; [eexists; split; vm_compute; reflexivity|].
  apply (Home_groups_by_date format_utc utc_key dated_entries).
  - repeat constructor; discriminate.
  - repeat constructor.
Defined.

(** The theorem for the same entries and one with an invalid date. *)
Lemma Home_groups_throws_witness : ∃ err, Home_groups format_utc misdated_entries = inl err.
Proof.
  apply (Home_groups_throws format_utc misdated_entries).
  do 3 apply Exists_cons_tl. apply Exists_cons_hd. exists RangeError. reflexivity.
Defined.

(** ** Isolation *)

Section Isolation.
Context `{Platform} `{Validation}.

Lemma saveEntries_frame entries w r w1 k :
  saveEntries entries w = (r, w1) → k ≠ entries_key →
  localStorage w1 !! k = localStorage w !! k.
Proof.
  unfold saveEntries. destruct (map_throwing validate_for_save entries) as [objs|e].
  - rewrite setItem_entries.
    destruct (QUOTA_BYTES <? _)%Z; [intros [= <- <-]; reflexivity|].
    destruct (storage_full _ _ _); [intros [= <- <-]; reflexivity|].
    intros [= <- <-] Hk. cbn [localStorage]. apply lookup_insert_ne. congruence.
  - intros [= <- <-]. reflexivity.
Qed.

(** X27.  The storage layer keeps to its own key: whatever
    [getEntries], [saveEntries], [addEntry], [updateEntry],
    [deleteEntry] and [getStatistics] do, and whether they return or
    throw, every key of [localStorage] other than [devlog_entries] holds
    afterwards what it held before. *)
Theorem storage_keeps_to_its_key (k : string) (w : World) :
  k ≠ entries_key →
  localStorage (getEntries w).2 !! k = localStorage w !! k
  ∧ (∀ entries, localStorage (saveEntries entries w).2 !! k = localStorage w !! k)
  ∧ (∀ entry now c, localStorage (addEntry entry now c w).2 !! k = localStorage w !! k)
  ∧ (∀ i updates, localStorage (updateEntry i updates w).2 !! k = localStorage w !! k)
  ∧ (∀ i, localStorage (deleteEntry i w).2 !! k = localStorage w !! k)
  ∧ localStorage (getStatistics w).2 !! k = localStorage w !! k.
Proof.
  intros Hk.
  assert (∀ w0, localStorage (getEntries w0).2 !! k = localStorage w0 !! k) as Hread.
  { intros w0. destruct (getEntries w0) as [r w1] eqn:Hg.
    exact (getEntries_frame w0 r w1 k Hg Hk). }
  assert (∀ entries w0, localStorage (saveEntries entries w0).2 !! k = localStorage w0 !! k)
    as Hsave.
  { intros entries w0. destruct (saveEntries entries w0) as [r w1] eqn:Hs.
    exact (saveEntries_frame entries w0 r w1 k Hs Hk). }
  split; [apply Hread|]. split; [intros entries; apply Hsave|].
  split; [|split; [|split]].
  - intros entry now c. unfold addEntry.
    destruct (validateAndSanitizeText (f_message entry)); [|reflexivity].
    destruct (validateTags (map VStr (f_tags entry))); [|reflexivity].
    destruct (validate_optional_category (f_category entry)); [|reflexivity].
    pose proof (Hread w) as Hw. destruct (getEntries w) as [[entries|e] w1]; [|exact Hw].
    destruct (MAX_ENTRIES <=? Z.of_nat (length entries))%Z; [exact Hw|].
    destruct (new_id c) as [i|e]; [|exact Hw].
    match goal with |- context [saveEntries ?es w1] =>
      pose proof (Hsave es w1) as Hs; destruct (saveEntries es w1) as [[u|e] w2] end;
      cbn [snd] in *; congruence.
  - intros i updates. unfold updateEntry.
    destruct (validateEntryId i) as [validatedId|]; [|reflexivity].
    pose proof (Hread w) as Hw. destruct (getEntries w) as [[entries|e] w1]; [|exact Hw].
    destruct (findIndex validatedId entries); [|exact Hw].
    destruct (validate_updates updates); [|exact Hw].
    rewrite Hsave. exact Hw.
  - intros i. unfold deleteEntry.
    destruct (validateEntryId i) as [validatedId|]; [|reflexivity].
    pose proof (Hread w) as Hw. destruct (getEntries w) as [[entries|e] w1]; [|exact Hw].
    rewrite Hsave. exact Hw.
  - unfold getStatistics. pose proof (Hread w) as Hw.
    destruct (getEntries w) as [[entries|e] w1]; exact Hw.
Qed.

End Isolation.

(** The theorem for the key of another application, on the store of
    two entries. *)
Lemma storage_keeps_to_its_key_witness :
  let w := {| localStorage := <["theme" := "dark"]> (localStorage Examples.two_world);
              console := [] |} in
  localStorage (@getEntries Examples.browser SpecValidation.validation w).2 !! "theme"
  = Some "dark"
  ∧ localStorage (@deleteEntry Examples.browser SpecValidation.validation Examples.uuid w).2
    !! "theme" = Some "dark".
Proof.
  intros w.
  destruct (@storage_keeps_to_its_key Examples.browser SpecValidation.validation "theme" w)
    as (Hread & _ & _ & _ & Hdelete & _); [discriminate|].
  split; [rewrite Hread | rewrite Hdelete]; reflexivity.
Defined.
